(** * Blokus rules engine: piece geometry, legality, turns and scoring

    A shallow embedding of [piece.py] and [blokus.py].  Python integers are
    [Z]; a [Point] is a pair [(row, col)]; Python sets are [gset]s; lists
    indexed with [l[i]] use stdpp's list lookup.  A method that may raise
    returns a [result]. *)

From Stdlib Require Import ZArith Lia Ascii String.
From stdpp Require Import gmap list strings sets numbers sorting.

Local Open Scope Z_scope.

(** A point is represented by row and column numbers (r, c). *)
Abbreviation Point := (Z * Z)%type.

Definition row (point : Point) : Z := fst point.
Definition col (point : Point) : Z := snd point.

(** ** Outcomes of a call

    [ValueError] is raised with two different messages in the engine; the
    two are kept apart as [AlreadyPlayedShape] and [NoAnchorSet], and
    [ValueError] is the bare one.  [IndexError] is what [grid[r][c]]
    raises outside the list, and
    [Diverge] stands for a [while] loop that never exits. *)
Inductive exn : Set :=
| AlreadyPlayedShape
| NoAnchorSet
| ValueError
| IndexError.

Inductive result (A : Type) : Type :=
| Ok (a : A)
| Raise (e : exn)
| Diverge.
Arguments Ok {A} a.
Arguments Raise {A} e.
Arguments Diverge {A}.

#[global] Instance result_ret : MRet result := @Ok.
#[global] Instance result_bind : MBind result := λ A B k m,
  match m with
  | Ok a => k a
  | Raise e => Raise e
  | Diverge => Diverge
  end.

#[global] Instance exn_eq_dec : EqDecision exn.
Proof. solve_decision. Defined.

(** ** Python string methods used by [get_score], on ASCII text *)

(** [str.isspace] for one character. *)
Definition is_space (c : ascii) : bool :=
  let n := nat_of_ascii c in
  ((9 <=? n) && (n <=? 13) || (28 <=? n) && (n <=? 32))%nat.

(** The line boundaries of [str.splitlines]. *)
Definition is_linebreak (c : ascii) : bool :=
  let n := nat_of_ascii c in
  ((10 <=? n) && (n <=? 13) || (28 <=? n) && (n <=? 30))%nat.

Fixpoint lstrip (l : list ascii) : list ascii :=
  match l with
  | c :: rest => if is_space c then lstrip rest else l
  | [] => []
  end.

(** [s.strip()] *)
Definition py_strip (l : list ascii) : list ascii :=
  reverse (lstrip (reverse (lstrip l))).

(** [s.replace(c, "")] for a one-character [c]. *)
Definition py_remove (c : ascii) (l : list ascii) : list ascii :=
  filter (λ x, x ≠ c) l.

(** ["".join(s.splitlines())] *)
Definition join_splitlines (l : list ascii) : list ascii :=
  filter (λ x, is_linebreak x = false) l.

(** What [get_score] subtracts for one unplayed shape: the length of its
    definition once stripped of blanks, ["@"] and line breaks. *)
Definition definition_length (text : string) : Z :=
  Z.of_nat (length (join_splitlines
    (py_remove "@"%char (py_remove " "%char
      (py_strip (list_ascii_of_string text)))))).

(** The squares of a definition text: its ["X"] and ["O"] characters. *)
Definition count_squares (text : string) : Z :=
  Z.of_nat (length (filter (λ c, c = "X"%char ∨ c = "O"%char)
                           (list_ascii_of_string text))).

(** A cell is empty or holds the player and the shape kind of the piece on
    it; the grid is a list of rows. *)
Abbreviation Cell K := (option (Z * K)).
Abbreviation Grid K := (list (list (option (Z * K)))).

(** ** [textwrap.dedent] and [str.split], as [Shape.from_string] uses them

    [textwrap.dedent] belongs to the Python library.  It is modelled on
    lists of characters: lines made of blanks only become empty, and the
    longest run of blanks that starts every other line is cut off. *)

Fixpoint split_lines (l : list ascii) : list (list ascii) :=
  match l with
  | [] => [[]]
  | c :: rest =>
      if Ascii.eqb c "010"%char then [] :: split_lines rest
      else match split_lines rest with
           | line :: lines => (c :: line) :: lines
           | [] => [[c]]
           end
  end.

Definition is_blank (c : ascii) : bool :=
  Ascii.eqb c " "%char || Ascii.eqb c "009"%char.

Fixpoint indent_of (line : list ascii) : list ascii :=
  match line with
  | c :: rest => if is_blank c then c :: indent_of rest else []
  | [] => []
  end.

Fixpoint common_prefix (x y : list ascii) : list ascii :=
  match x, y with
  | a :: x', b :: y' => if Ascii.eqb a b then a :: common_prefix x' y' else []
  | _, _ => []
  end.

Definition dedent_lines (lines : list (list ascii)) : list (list ascii) :=
  let lines := map (λ line, if forallb is_blank line then [] else line) lines in
  let indents := map indent_of (filter (λ line, line ≠ []) lines) in
  let margin :=
    match indents with
    | [] => []
    | i :: rest => foldl common_prefix i rest
    end in
  map (λ line, if bool_decide (line = []) then []
               else drop (length margin) line) lines.

(** The characters of a shape definition: the three markers, the blank and
    the line feed. *)
Definition marker_char (c : ascii) : Prop :=
  c = "X"%char ∨ c = "O"%char ∨ c = "@"%char ∨ c = " "%char ∨ c = "010"%char.

#[global] Instance marker_char_dec (c : ascii) : Decision (marker_char c).
Proof. unfold marker_char. apply _. Defined.

(** The squares the double loop of [Shape.from_string] collects from the
    lines, before the origin is subtracted: the positions of ["X"] and
    ["O"], line by line. *)
Fixpoint line_squares (r c : Z) (line : list ascii) : list Point :=
  match line with
  | [] => []
  | ch :: rest =>
      (if Ascii.eqb ch "X"%char || Ascii.eqb ch "O"%char then [(r, c)] else [])
        ++ line_squares r (c + 1) rest
  end.

Fixpoint lines_squares (r : Z) (lines : list (list ascii)) : list Point :=
  match lines with
  | [] => []
  | line :: rest => line_squares r 0 line ++ lines_squares (r + 1) rest
  end.

(** The two characters that set the origin. *)
Definition origin_marker (ch : ascii) : bool :=
  Ascii.eqb ch "O"%char || Ascii.eqb ch "@"%char.

Section Engine.

(** [shape_definitions.py] is not part of the sources at hand: its enum
    [ShapeKind], the member [ShapeKind.ONE] and the dict [definitions] are
    taken as parameters.  A dict is an insertion-ordered list of pairs. *)
Context {ShapeKind : Type} `{!EqDecision ShapeKind}.
Variable ONE : ShapeKind.
Variable definitions : list (ShapeKind * string).

(** ** piece.py: [Shape] *)

Record Shape : Type := mkShape {
  kind : ShapeKind;
  origin : Point;
  can_be_transformed : bool;
  squares : list Point
}.

(** The three transforms overwrite [self.squares[i]] for every index in
    turn; the list keeps its length and order, so each is a [map]. *)
Definition flip_horizontally (sh : Shape) : Shape :=
  if can_be_transformed sh
  then mkShape (kind sh) (origin sh) (can_be_transformed sh)
               (map (λ point, (fst point, - snd point)) (squares sh))
  else sh.

Definition rotate_left (sh : Shape) : Shape :=
  if can_be_transformed sh
  then mkShape (kind sh) (origin sh) (can_be_transformed sh)
               (map (λ point, (- snd point, fst point)) (squares sh))
  else sh.

Definition rotate_right (sh : Shape) : Shape :=
  if can_be_transformed sh
  then mkShape (kind sh) (origin sh) (can_be_transformed sh)
               (map (λ point, (snd point, - fst point)) (squares sh))
  else sh.

(** The double loop of [Shape.from_string] over one line: ["X"] adds a
    square, ["O"] adds a square and moves the origin there, ["@"] only
    moves the origin; either of the last two sets [transform]. *)
Fixpoint scan_line (r c : Z) (line : list ascii)
    (acc : list Point * Point * bool) : list Point * Point * bool :=
  match line with
  | [] => acc
  | ch :: rest =>
      let '(sqs, orig, transform) := acc in
      scan_line r (c + 1) rest
        (if Ascii.eqb ch "X"%char then (sqs ++ [(r, c)], orig, transform)
         else if Ascii.eqb ch "O"%char then (sqs ++ [(r, c)], (r, c), true)
         else if Ascii.eqb ch "@"%char then (sqs, (r, c), true)
         else acc)
  end.

Fixpoint scan_lines (r : Z) (lines : list (list ascii))
    (acc : list Point * Point * bool) : list Point * Point * bool :=
  match lines with
  | [] => acc
  | line :: rest => scan_lines (r + 1) rest (scan_line r 0 line acc)
  end.

(** [Shape.from_string] *)
Definition from_string (k : ShapeKind) (definition : string) : Shape :=
  let lines := filter (λ line, line ≠ [])
                 (dedent_lines (split_lines (list_ascii_of_string definition))) in
  let '(sqs, orig, transform) := scan_lines 0 lines ([], (0, 0), false) in
  mkShape k orig transform
          (map (λ point, (fst point - fst orig, snd point - snd orig)) sqs).

(** [Blokus.shapes]: the dict rebuilt from [definitions], an entry per
    key. *)
Definition shapes : list (ShapeKind * Shape) :=
  map (λ kv, (fst kv, from_string (fst kv) (snd kv))) definitions.

(** [self.shapes[k]] *)
Definition shapes_get (k : ShapeKind) : option Shape :=
  (λ ikv, snd (snd ikv)) <$> list_find (λ kv, fst kv = k) shapes.

(** ** piece.py: [Piece] *)

Record Piece : Type := mkPiece {
  shape : Shape;
  anchor : option Point
}.

(** [Piece.__init__]: a deep copy of the shape, flipped when [face_up] is
    false and then right-rotated [rotation % 4] times; no anchor yet. *)
Definition new_piece (sh : Shape) (face_up : bool) (rotation : Z) : Piece :=
  let sh1 := if face_up then sh else flip_horizontally sh in
  mkPiece (Nat.iter (Z.to_nat (rotation mod 4)) rotate_right sh1) None.

Definition set_anchor (p : Piece) (a : Point) : Piece :=
  mkPiece (shape p) (Some a).

Definition _check_anchor (p : Piece) : result unit :=
  match anchor p with
  | None => Raise NoAnchorSet
  | Some _ => Ok tt
  end.

Definition piece_flip_horizontally (p : Piece) : result Piece :=
  _ ← _check_anchor p; Ok (mkPiece (flip_horizontally (shape p)) (anchor p)).

Definition piece_rotate_left (p : Piece) : result Piece :=
  _ ← _check_anchor p; Ok (mkPiece (rotate_left (shape p)) (anchor p)).

Definition piece_rotate_right (p : Piece) : result Piece :=
  _ ← _check_anchor p; Ok (mkPiece (rotate_right (shape p)) (anchor p)).

(** [Piece.squares()] *)
Definition piece_squares (p : Piece) : result (list Point) :=
  match anchor p with
  | None => Raise NoAnchorSet
  | Some a => Ok (map (λ rc, (row a + fst rc, col a + snd rc)) (squares (shape p)))
  end.

Definition cardinal_positions : list Point := [(-1, 0); (0, 1); (1, 0); (0, -1)].
Definition intercardinal_positions : list Point := [(-1, -1); (-1, 1); (1, 1); (1, -1)].

(** Every square shifted by every position, in the order of the two nested
    loops. *)
Definition shifted (sqs positions : list Point) : list Point :=
  flat_map (λ square, map (λ position, (fst square + fst position,
                                        snd square + snd position)) positions) sqs.

(** [Piece.cardinal_neighbors()] *)
Definition cardinal_neighbors (p : Piece) : result (gset Point) :=
  sqs ← piece_squares p;
  Ok (list_to_set (filter (λ neighbor, neighbor ∉ sqs)
                          (shifted sqs cardinal_positions))).

(** [Piece.intercardinal_neighbors()] *)
Definition intercardinal_neighbors (p : Piece) : result (gset Point) :=
  sqs ← piece_squares p;
  card ← cardinal_neighbors p;
  Ok (list_to_set (filter (λ neighbor, (neighbor ∉ card) ∧ (neighbor ∉ sqs))
                          (shifted sqs intercardinal_positions))).

(** ** blokus.py: the game state *)

(** The attributes of a [Blokus] object.  [_all_shapes] is left out: the
    [shapes] property refills it from [definitions] on every access, and
    the engine only reads its keys. *)
Record Blokus : Type := mkBlokus {
  _num_players : Z;
  _size : Z;
  _start_positions : gset Point;
  _retired_players : gset Z;
  _curr_player : Z;
  _grid : Grid ShapeKind;
  _num_moves : Z;
  _played_pieces : list (Z * ShapeKind)
}.

(** [[None] * size for _ in range(size)] *)
Definition empty_grid (n : Z) : Grid ShapeKind :=
  replicate (Z.to_nat n) (replicate (Z.to_nat n) None).

(** [Blokus.__init__] *)
Definition new_game (num_players board_size : Z) (start_positions : gset Point)
  : result Blokus :=
  if bool_decide (num_players < 1 ∨ num_players > 4) then Raise ValueError
  else if bool_decide (board_size < 5) then Raise ValueError
  else if existsb (λ position,
             bool_decide (fst position < 0 ∨ fst position > board_size - 1) ||
             bool_decide (snd position < 0 ∨ snd position > board_size - 1))
            (elements start_positions) then Raise ValueError
  else if bool_decide (Z.of_nat (size start_positions) < num_players)
       then Raise ValueError
  else Ok (mkBlokus num_players board_size start_positions ∅ 1
                    (empty_grid board_size) 0 []).

(** The keys of [self.shapes], in the order of [definitions]. *)
Definition shapes_keys : list ShapeKind := map fst definitions.

(** [definitions[kind]], when [kind in definitions]. *)
Definition definitions_get (k : ShapeKind) : option string :=
  (λ ikv, snd (snd ikv)) <$> list_find (λ kv, fst kv = k) definitions.

(** [l[i]] for a Python list, negative indices counted from the end. *)
Definition py_index {A} (l : list A) (i : Z) : result A :=
  let j := if bool_decide (i < 0) then i + Z.of_nat (length l) else i in
  if bool_decide (j < 0) then Raise IndexError
  else match l !! Z.to_nat j with
       | Some x => Ok x
       | None => Raise IndexError
       end.

(** [grid[r][c]] *)
Definition grid_get (g : Grid ShapeKind) (r c : Z) : result (Cell ShapeKind) :=
  line ← py_index g r; py_index line c.

(** [grid[r][c] = v], used only at squares that [any_collisions] has read
    before, hence inside the lists. *)
Definition grid_set (g : Grid ShapeKind) (r c : Z) (v : Cell ShapeKind)
  : Grid ShapeKind :=
  alter (λ line, <[Z.to_nat c := v]> line) (Z.to_nat r) g.

(** The set [played_shapes] of [remaining_shapes], as the list of its
    additions. *)
Definition played_shapes (g : Grid ShapeKind) (player : Z) : list ShapeKind :=
  flat_map (λ line,
    flat_map (λ cell : Cell ShapeKind,
      match cell with
      | Some (owner, k) => if bool_decide (owner = player) then [k] else []
      | None => []
      end) line) g.

(** [Blokus.remaining_shapes] *)
Definition remaining_shapes (b : Blokus) (player : Z) : list ShapeKind :=
  filter (λ shape, shape ∉ played_shapes (_grid b) player) shapes_keys.

(** [range(1, num_players + 1)] *)
Definition players (b : Blokus) : list Z := seqZ 1 (_num_players b).

(** [Blokus.game_over] *)
Definition game_over (b : Blokus) : bool :=
  if bool_decide (Z.of_nat (size (_retired_players b)) = _num_players b) then true
  else if bool_decide (size (_retired_players b) = 1%nat ∧ _num_players b = 2)
          && bool_decide (length (remaining_shapes b (_curr_player b)) = 0%nat)
       then true
  else
    let done := length (filter (λ num, length (remaining_shapes b num) = 0%nat)
                               (players b)) in
    bool_decide (Z.of_nat done + Z.of_nat (size (_retired_players b))
                 = _num_players b).

(** [Blokus.any_wall_collisions] *)
Definition any_wall_collisions (b : Blokus) (piece : Piece) : result bool :=
  sqs ← piece_squares piece;
  Ok (existsb (λ square,
        bool_decide (fst square < 0 ∨ snd square < 0 ∨
                     fst square >= _size b ∨ snd square >= _size b)) sqs).

(** The loop of [any_collisions] over the squares. *)
Fixpoint any_occupied (g : Grid ShapeKind) (locs : list Point) : result bool :=
  match locs with
  | [] => Ok false
  | (r, c) :: rest =>
      grid_get g r c ≫= λ cell : Cell ShapeKind,
      match cell with
      | Some _ => Ok true
      | None => any_occupied g rest
      end
  end.

(** [Blokus.any_collisions] *)
Definition any_collisions (b : Blokus) (piece : Piece) : result bool :=
  any_wall_collisions b piece ≫= λ wall : bool,
  if negb wall then
    _ ← _check_anchor piece;
    locs ← piece_squares piece;
    any_occupied (_grid b) locs
  else Ok true.

(** The body shared by the two neighbour loops of [legal_to_place]: is some
    in-bounds point of [pts] a cell of the current player? *)
Fixpoint touches_own (b : Blokus) (pts : list Point) : result bool :=
  match pts with
  | [] => Ok false
  | (r, c) :: rest =>
      if bool_decide (r < _size b ∧ r >= 0 ∧ c < _size b ∧ c >= 0) then
        grid_get (_grid b) r c ≫= λ cell : Cell ShapeKind,
        match cell with
        | Some (owner, _) =>
            if bool_decide (owner = _curr_player b) then Ok true
            else touches_own b rest
        | None => touches_own b rest
        end
      else touches_own b rest
  end.

(** [Blokus.legal_to_place] *)
Definition legal_to_place (b : Blokus) (piece : Piece) : result bool :=
  if bool_decide (kind (shape piece) ∉ remaining_shapes b (_curr_player b))
  then Raise AlreadyPlayedShape
  else match anchor piece with
  | None => Raise NoAnchorSet
  | Some _ =>
    any_collisions b piece ≫= λ collides : bool,
    if collides then Ok false
    else if bool_decide (_num_moves b <
                         _num_players b - Z.of_nat (size (_retired_players b)))
    then
      sqs ← piece_squares piece;
      Ok (existsb (λ square, bool_decide (square ∈ _start_positions b)) sqs)
    else
      card ← cardinal_neighbors piece;
      touches_own b (elements (card : gset Point)) ≫= λ edge : bool,
      if edge then Ok false
      else
        inter ← intercardinal_neighbors piece;
        touches_own b (elements (inter : gset Point))
  end.

(** [curr % num_players + 1] *)
Definition next_player (b : Blokus) (c : Z) : Z := c `mod` _num_players b + 1.

(** [while c in retired: c = c % num_players + 1].  After the first step
    the loop runs through [1..num_players] in a cycle, so the caller's fuel
    of [num_players + 1] tests is exact: when it is used up, every id the
    loop can ever reach is retired. *)
Fixpoint skip_retired (fuel : nat) (b : Blokus) (retired : gset Z) (c : Z)
  : result Z :=
  match fuel with
  | O => Diverge
  | S fuel' =>
      if bool_decide (c ∈ retired)
      then skip_retired fuel' b retired (next_player b c)
      else Ok c
  end.

(** The turn advancement that ends both [maybe_place] and [retire]. *)
Definition advance (b : Blokus) (retired : gset Z) (c : Z) : result Z :=
  if bool_decide (Z.of_nat (size retired) ≠ _num_players b)
  then skip_retired (S (Z.to_nat (_num_players b))) b retired c
  else Ok (next_player b c).

(** The loop of [maybe_place] that writes the piece on the grid. *)
Definition commit (g : Grid ShapeKind) (locs : list Point) (v : Cell ShapeKind)
  : Grid ShapeKind :=
  foldl (λ g' rc, grid_set g' (fst rc) (snd rc) v) g locs.

(** [Blokus.maybe_place] *)
Definition maybe_place (b : Blokus) (piece : Piece) : result (bool * Blokus) :=
  if bool_decide (_curr_player b ∈ _retired_players b) then Ok (false, b)
  else
    legal_to_place b piece ≫= λ legal : bool,
    if negb legal then Ok (false, b)
    else if bool_decide (kind (shape piece) ∉ remaining_shapes b (_curr_player b))
    then Raise ValueError
    else
      locs ← piece_squares piece;
      let grid' := commit (_grid b) locs
                     (Some (_curr_player b, kind (shape piece))) in
      let played' := _played_pieces b ++ [(_curr_player b, kind (shape piece))] in
      c ← advance b (_retired_players b) (next_player b (_curr_player b));
      Ok (true, mkBlokus (_num_players b) (_size b) (_start_positions b)
                         (_retired_players b) c grid' (_num_moves b + 1) played').

(** [Blokus.retire] *)
Definition retire (b : Blokus) : result Blokus :=
  let retired' :=
    if bool_decide (_curr_player b ∉ _retired_players b)
    then _retired_players b ∪ {[ _curr_player b ]}
    else _retired_players b in
  c ← advance b retired' (_curr_player b);
  Ok (mkBlokus (_num_players b) (_size b) (_start_positions b)
               retired' c (_grid b) (_num_moves b) (_played_pieces b)).

(** [Blokus.reset] *)
Definition reset (b : Blokus) : Blokus :=
  mkBlokus (_num_players b) (_size b) (_start_positions b)
           ∅ 1 (empty_grid (_size b)) 0 (_played_pieces b).

(** [range(-1, -n, -1)] *)
Definition range_down (n : nat) : list Z :=
  map (λ i, - Z.of_nat i) (seq 1 (n - 1)).

(** The bonus loop of [get_score] over the indices [xs]. *)
Fixpoint bonus_scan (hist : list (Z * ShapeKind)) (player : Z) (xs : list Z)
  : result bool :=
  match xs with
  | [] => Ok false
  | x :: rest =>
      py_index hist x ≫= λ played_piece : Z * ShapeKind,
      if bool_decide (fst played_piece = player) then
        if bool_decide (snd played_piece = ONE) then Ok true
        else bonus_scan hist player rest
      else bonus_scan hist player rest
  end.

(** [Blokus.get_score] *)
Definition get_score (b : Blokus) (player : Z) : result Z :=
  let pieces := remaining_shapes b player in
  if bool_decide (length pieces ≠ 0%nat) then
    Ok (foldl (λ score piece,
                 match definitions_get piece with
                 | Some text => score - definition_length text
                 | None => score
                 end) 0 pieces)
  else
    bonus_scan (_played_pieces b) player
               (range_down (length (_played_pieces b))) ≫= λ bonus : bool,
    Ok (if bonus then 20 else 15).

(** [Blokus.winners] *)
Definition winners (b : Blokus) : result (option (list Z)) :=
  if game_over b then
    high_score ← foldl (λ acc player,
                    acc ≫= λ high : Z,
                    get_score b player ≫= λ curr_score : Z,
                    Ok (Z.max high curr_score)) (Ok (-999)) (players b);
    winners_lst ← foldl (λ acc player,
                    acc ≫= λ lst : list Z,
                    get_score b player ≫= λ curr_score : Z,
                    Ok (if bool_decide (curr_score = high_score)
                        then lst ++ [player] else lst)) (Ok []) (players b);
    Ok (Some winners_lst)
  else Ok None.

(** [for r in range(size): for c in range(size)] *)
Definition board_points (b : Blokus) : list Point :=
  flat_map (λ r, map (λ c, (r, c)) (seqZ 0 (_size b))) (seqZ 0 (_size b)).

(** [Blokus.available_moves].  [Piece] defines neither [__eq__] nor
    [__hash__], so the set holds one object for each test that succeeds;
    it is the list of these objects in the order of the loops.  [None]
    stands for an exception: the [KeyError] of [self.shapes[shape_kind]]
    or what [legal_to_place] raises. *)
Definition available_moves (b : Blokus) : option (list Piece) :=
  let remaining := remaining_shapes b (_curr_player b) in
  foldl (λ acc rc,
    foldl (λ acc shape_kind,
      possible_moves ← acc;
      sh ← shapes_get shape_kind;
      let piece := set_anchor (new_piece sh true 0) rc in
      match legal_to_place b piece with
      | Ok true => Some (possible_moves ++ [piece])
      | Ok false => Some possible_moves
      | _ => None
      end) acc remaining) (Some []) (board_points b).

(** ** Well-formed and reachable states *)

(** What [__init__] establishes and every method keeps: the grid is
    [size] by [size], and the turn pointer and the retired ids are player
    numbers. *)
Record wf (b : Blokus) : Prop := mk_wf {
  wf_players : 1 ≤ _num_players b;
  wf_rows : length (_grid b) = Z.to_nat (_size b);
  wf_cols : Forall (λ line, length line = Z.to_nat (_size b)) (_grid b);
  wf_retired : ∀ p, p ∈ _retired_players b → 1 ≤ p ≤ _num_players b;
  wf_curr : 1 ≤ _curr_player b ≤ _num_players b
}.

(** One call that plays on: a placement attempt or a retirement. *)
Inductive play_step (b : Blokus) : Blokus → Prop :=
| step_place piece ok b' :
    maybe_place b piece = Ok (ok, b') → play_step b b'
| step_retire b' :
    retire b = Ok b' → play_step b b'.

(** The states a game can be in: built by [__init__], then changed by
    [maybe_place], [reset] and [retire].  [retire] is called as its
    docstring says, for a current player who has not played all their
    pieces. *)
Inductive reachable : Blokus → Prop :=
| reach_init num_players board_size start_positions b :
    new_game num_players board_size start_positions = Ok b → reachable b
| reach_place b piece ok b' :
    reachable b → maybe_place b piece = Ok (ok, b') → reachable b'
| reach_retire b b' :
    reachable b → remaining_shapes b (_curr_player b) ≠ [] →
    retire b = Ok b' → reachable b'
| reach_reset b :
    reachable b → reachable (reset b).

(** The states that calls of the public methods bring about, whether or not
    [retire] is called as its docstring says: the method itself does not
    test whether the current player has a piece left. *)
Inductive reachable_by_calls : Blokus → Prop :=
| calls_init num_players board_size start_positions b :
    new_game num_players board_size start_positions = Ok b →
    reachable_by_calls b
| calls_place b piece ok b' :
    reachable_by_calls b → maybe_place b piece = Ok (ok, b') →
    reachable_by_calls b'
| calls_retire b b' :
    reachable_by_calls b → retire b = Ok b' → reachable_by_calls b'
| calls_reset b :
    reachable_by_calls b → reachable_by_calls (reset b).

(** A player is done when retired or out of shapes. *)
Definition retired_or_exhausted (b : Blokus) (p : Z) : Prop :=
  p ∈ _retired_players b ∨ remaining_shapes b p = [].

(** A player is still in play when not retired and with a shape left. *)
Definition in_play (b : Blokus) (p : Z) : Prop :=
  (p ∉ _retired_players b) ∧ remaining_shapes b p ≠ [].

(** The turn order: the players who are still in have played equally many
    shapes, up to those before the pointer being one ahead. *)
Definition turn_order (b : Blokus) (retired : gset Z) (c : Z) : Prop :=
  ∃ r : Z, ∀ p, 1 ≤ p ≤ _num_players b → p ∉ retired →
    Z.of_nat (length (remaining_shapes b p))
      + (if bool_decide (p < c) then 1 else 0) = r.

(** What holds of every reachable state besides [wf]: the pointer is on a
    player who is still in unless all have retired, and nobody retired
    after playing every shape. *)
Record inv (b : Blokus) : Prop := mk_inv {
  inv_wf : wf b;
  inv_active : Z.of_nat (size (_retired_players b)) ≠ _num_players b →
               _curr_player b ∉ _retired_players b;
  inv_retired : ∀ p, p ∈ _retired_players b → remaining_shapes b p ≠ []
}.

(** The spec's wording of the opening test: the players who are not
    retired and have no square on the grid yet. *)
Definition unmoved_active (b : Blokus) : Z :=
  Z.of_nat (length (filter (λ p, (p ∉ _retired_players b) ∧
                                 played_shapes (_grid b) p = [])
                           (players b))).

(** A point inside the board whose cell belongs to the current player. *)
Definition own_cell (b : Blokus) (q : Point) : bool :=
  bool_decide (0 ≤ fst q < _size b ∧ 0 ≤ snd q < _size b) &&
  match grid_get (_grid b) (fst q) (snd q) with
  | Ok (Some (owner, _)) => bool_decide (owner = _curr_player b)
  | _ => false
  end.

(** The closed form of the bonus loop: some entry of the history other
    than the oldest is [(player, ONE)]. *)
Definition has_bonus (hist : list (Z * ShapeKind)) (player : Z) : bool :=
  existsb (λ played_piece, bool_decide (fst played_piece = player) &&
                           bool_decide (snd played_piece = ONE))
          (drop 1 hist).

(** The shape kind of the player's most recent placement. *)
Definition last_played (hist : list (Z * ShapeKind)) (player : Z)
  : option ShapeKind :=
  snd <$> head (filter (λ played_piece, fst played_piece = player)
                       (reverse hist)).

(** The cell in row [i], column [j], if the grid has one. *)
Definition cell_at (g : Grid ShapeKind) (i j : nat) : option (Cell ShapeKind) :=
  g !! i ≫= λ line, line !! j.

(** A point with coordinates that are not negative, as list indices. *)
Definition nat_point (rc : Point) : nat * nat :=
  (Z.to_nat (fst rc), Z.to_nat (snd rc)).

(** A point inside the board. *)
Definition in_board (b : Blokus) (rc : Point) : Prop :=
  0 ≤ fst rc < _size b ∧ 0 ≤ snd rc < _size b.

(** The number of shape kinds a player has on the grid, and the sum of
    these numbers over the players. *)
Definition played_count (b : Blokus) (p : Z) : Z :=
  Z.of_nat (length shapes_keys) - Z.of_nat (length (remaining_shapes b p)).

Definition total_played (b : Blokus) : Z :=
  foldr Z.add 0 (map (played_count b) (players b)).

(** [turn_order] with the retired players added: they have at least as
    many shapes left as the players still in had when the pointer last
    reached them. *)
Definition turn_floor (b : Blokus) (retired : gset Z) (c : Z) : Prop :=
  ∃ r : Z,
    (∀ p, 1 ≤ p ≤ _num_players b → p ∉ retired →
       Z.of_nat (length (remaining_shapes b p))
         + (if bool_decide (p < c) then 1 else 0) = r) ∧
    (∀ q, 1 ≤ q ≤ _num_players b → q ∈ retired →
       r ≤ Z.of_nat (length (remaining_shapes b q))).

(** Two points of the grid that share an edge. *)
Definition edge_adjacent (x y : Point) : Prop :=
  Z.abs (fst x - fst y) + Z.abs (snd x - snd y) = 1.

(** Two points of the grid that share a corner and no edge. *)
Definition diagonal (x y : Point) : Prop :=
  Z.abs (fst x - fst y) = 1 ∧ Z.abs (snd x - snd y) = 1.

(** The value [get_score] returns; it always returns one. *)
Definition score_value (b : Blokus) (player : Z) : Z :=
  match get_score b player with
  | Ok v => v
  | _ => 0
  end.

(** ** tui.py: moving the pending piece

    [TuiBoard.shift], [rotate] and [flip] change the piece they are given
    in place, and return either that piece or the deep copy made on entry.
    Each is a function to a pair: the argument as the call leaves it, and
    the piece returned.  The screen plays no part in them. *)

(** The loop of [rotate] and [flip] that rebuilds the squares: every square
    moves by [d], and the origin follows a square it is equal to. *)
Definition follow_origin (d : Point) (o : Point) (sqs : list Point) : Point :=
  foldl (λ o' sq, if bool_decide (sq = o')
                  then (fst sq + fst d, snd sq + snd d) else o') o sqs.

Definition moved_by (d : Point) (sqs : list Point) : list Point :=
  map (λ sq, (fst sq + fst d, snd sq + snd d)) sqs.

(** The end of the three methods: the copy comes back when the changed
    piece collides with a wall. *)
Definition unless_wall (b : Blokus) (prev_state piece : Piece)
  : result (Piece * Piece) :=
  any_wall_collisions b piece ≫= λ wall : bool,
  Ok (piece, if wall then prev_state else piece).

(** [TuiBoard.shift]; here the origin goes to the fixed point
    [(x_diff, y_diff)] when a square is equal to it. *)
Definition tui_shift (b : Blokus) (piece : Piece) (new_y new_x : Z)
  : result (Piece * Piece) :=
  let sh := shape piece in
  let x_diff := fst (origin sh) + new_x in
  let y_diff := snd (origin sh) + new_y in
  let o := foldl (λ o' sq, if bool_decide (sq = o') then (x_diff, y_diff) else o')
                 (origin sh) (squares sh) in
  unless_wall b piece
    (mkPiece (mkShape (kind sh) o (can_be_transformed sh)
                      (moved_by (new_x, new_y) (squares sh)))
             (anchor piece)).

(** What [rotate] and [flip] do once the shape is turned and the origin
    with it: the squares are moved so that the origin is back where it
    was. *)
Definition recentre (b : Blokus) (prev_state : Piece) (turned : Shape)
    (anchor : option Point) (d : Point) : result (Piece * Piece) :=
  unless_wall b prev_state
    (mkPiece (mkShape (kind turned)
                      (follow_origin d (origin turned) (squares turned))
                      (can_be_transformed turned)
                      (moved_by d (squares turned)))
             anchor).

(** [TuiBoard.rotate] *)
Definition tui_rotate (b : Blokus) (piece : Piece) (direction : string)
  : result (Piece * Piece) :=
  let old := origin (shape piece) in
  turned ←
    (if String.eqb direction "R" then
       p ← piece_rotate_right piece;
       Ok (mkShape (kind (shape p)) (snd old, - fst old)
                   (can_be_transformed (shape p)) (squares (shape p)))
     else if String.eqb direction "L" then
       p ← piece_rotate_left piece;
       Ok (mkShape (kind (shape p)) (- snd old, fst old)
                   (can_be_transformed (shape p)) (squares (shape p)))
     else Ok (shape piece));
  recentre b piece turned (anchor piece)
           (fst old - fst (origin turned), snd old - snd (origin turned)).

(** [TuiBoard.flip] *)
Definition tui_flip (b : Blokus) (piece : Piece) : result (Piece * Piece) :=
  let old := origin (shape piece) in
  p ← piece_flip_horizontally piece;
  let turned := mkShape (kind (shape p)) (fst old, - snd old)
                        (can_be_transformed (shape p)) (squares (shape p)) in
  recentre b piece turned (anchor piece) (0, snd old - snd (origin turned)).

End Engine.

Arguments Shape : clear implicits.
Arguments Piece : clear implicits.
Arguments Blokus : clear implicits.

(** ** grid.py: a grid as text and back

    The enum [ShapeKind] is not among the sources: the value of a member, a
    string, and the members in the order of their definition are taken as
    parameters.  [ShapeKind(v)] is the first member whose value is [v], and
    a [ValueError] when there is none.  The [print] of [grid_to_string]
    writes to the terminal only. *)
Section GridText.

Context {ShapeKind : Type} `{!EqDecision ShapeKind}.
Variable value : ShapeKind → list ascii.
Variable members : list ShapeKind.

Definition of_value (v : list ascii) : result ShapeKind :=
  match list_find (λ member, value member = v) members with
  | Some (_, member) => Ok member
  | None => Raise ValueError
  end.

(** What one cell adds to [row_str]; a cell of a player other than 1 and 2
    adds nothing. *)
Definition cell_text (cell : Cell ShapeKind) : list ascii :=
  match cell with
  | None => [" "; " "]%char
  | Some (player, sk) =>
      if bool_decide (player = 1) then value sk ++ [" "%char]
      else if bool_decide (player = 2) then " "%char :: value sk
      else []
  end.

(** [grid_to_string] *)
Definition grid_to_string (grid : Grid ShapeKind) : list ascii :=
  let size := length grid in
  let border := "+"%char :: replicate (size * 2) "-"%char ++ ["+"; "010"]%char in
  foldl (λ grid_str line,
           grid_str
             ++ foldl (λ row_str cell, row_str ++ cell_text cell)
                      ["|"%char] line
             ++ ["|"; "010"]%char) border grid
    ++ border.

(** [l[1:-1]] *)
Definition inner {A} (l : list A) : list A := drop 1 (take (length l - 1) l).

(** The body of the inner loop of [string_to_grid] for one slice of two
    characters. *)
Definition parse_cell (cell : list ascii) : result (Cell ShapeKind) :=
  if bool_decide (py_strip cell ≠ []) then
    c0 ← py_index cell 0;
    if negb (Ascii.eqb c0 " ") then
      sk ← of_value [c0]; Ok (Some (1, sk))
    else
      c1 ← py_index cell 1;
      sk ← of_value [c1]; Ok (Some (2, sk))
  else Ok None.

(** A loop that appends a result to a list for every element. *)
Fixpoint collect {A B} (f : A → result B) (l : list A) : result (list B) :=
  match l with
  | [] => Ok []
  | x :: rest => y ← f x; ys ← collect f rest; Ok (y :: ys)
  end.

(** [string_to_grid] *)
Definition string_to_grid (s : list ascii) : result (Grid ShapeKind) :=
  let lines := split_lines (py_strip s) in
  line0 ← py_index lines 0;
  let size := (Z.of_nat (length (line0 : list ascii)) - 2) `div` 2 in
  collect (λ line,
    let cell_str := inner line in
    collect (λ j, parse_cell (take 2 (drop (Z.to_nat (j * 2)) cell_str)))
            (seqZ 0 size)) (inner lines).

(** The cells [grid_to_string] writes in a way [string_to_grid] reads
    back: empty cells, and cells of player 1 or 2 whose kind has a value of
    one character that is no white space and that names this kind. *)
Definition readable (cell : Cell ShapeKind) : Prop :=
  match cell with
  | None => True
  | Some (player, sk) =>
      (player = 1 ∨ player = 2) ∧
      ∃ ch, value sk = [ch] ∧ is_space ch = false ∧
            of_value [ch] = Ok sk
  end.

End GridText.

(** ** A catalog to run the engine on *)

(** Modelled from the spec: [shape_definitions.py], with the enum
    [ShapeKind], is not among the sources.  The spec fixes 21 shape kinds,
    the polyominoes of one to five squares; the names below are the usual
    ones.  The type only serves to evaluate the engine on concrete games. *)
Inductive Kind21 : Set :=
| SK_ONE | SK_TWO | SK_THREE | SK_C | SK_FOUR | SK_SEVEN | SK_S
| SK_LETTER_O | SK_A | SK_F | SK_FIVE | SK_L | SK_N | SK_P | SK_T
| SK_U | SK_V | SK_W | SK_X | SK_Y | SK_Z.

#[global] Instance Kind21_eq_dec : EqDecision Kind21.
Proof. solve_decision. Defined.

(** Modelled from the spec: the dict [definitions] of
    [shape_definitions.py] is not among the sources.  The spec has each
    shape written as text, with ["X"] for a square, ["O"] for a square that
    is the origin and ["@"] for an origin that is no square; the single
    square has no origin marker, so it cannot be transformed. *)
Definition catalog : list (Kind21 * string) :=
  [ (SK_ONE, "
        X
    ");
    (SK_TWO, "
        OX
    ");
    (SK_THREE, "
        XOX
    ");
    (SK_C, "
        OX
         X
    ");
    (SK_FOUR, "
        XOXX
    ");
    (SK_SEVEN, "
        XO
         X
         X
    ");
    (SK_S, "
         OX
        XX
    ");
    (SK_LETTER_O, "
        OX
        XX
    ");
    (SK_A, "
         X
        XOX
    ");
    (SK_F, "
         XX
        XO
         X
    ");
    (SK_FIVE, "
        X
        X
        O
        X
        X
    ");
    (SK_L, "
        X
        X
        X
        OX
    ");
    (SK_N, "
         X
        XO
        X
        X
    ");
    (SK_P, "
        XX
        OX
        X
    ");
    (SK_T, "
        XXX
         O
         X
    ");
    (SK_U, "
        X@X
        XXX
    ");
    (SK_V, "
          X
          X
        XXO
    ");
    (SK_W, "
          X
         OX
        XX
    ");
    (SK_X, "
         X
        XOX
         X
    ");
    (SK_Y, "
         X
        XO
         X
         X
    ");
    (SK_Z, "
        XX
         O
         XX
    ") ].

(** [Piece(blokus.shapes[k])] with its anchor set to [a]. *)
Definition piece_at (k : Kind21) (a : Point) : option (Piece Kind21) :=
  (λ sh, set_anchor (new_piece sh true 0) a) <$> shapes_get catalog k.

(** The single square and the domino [OX], anchored. *)
Definition one_at (a : Point) : Piece Kind21 :=
  set_anchor (new_piece (from_string SK_ONE "X") true 0) a.
Definition two_at (a : Point) : Piece Kind21 :=
  set_anchor (new_piece (from_string SK_TWO "OX") true 0) a.

(** Calls [maybe_place] for each move in turn; [None] as soon as a call
    does not return true. *)
Fixpoint place_all (b : Blokus Kind21) (moves : list (Kind21 * Point))
  : option (Blokus Kind21) :=
  match moves with
  | [] => Some b
  | (k, a) :: rest =>
      match piece_at k a with
      | Some piece =>
          match maybe_place catalog b piece with
          | Ok (true, b') => place_all b' rest
          | _ => None
          end
      | None => None
      end
  end.

Definition after (b : Blokus Kind21) (moves : list (Kind21 * Point))
  : Blokus Kind21 :=
  default b (place_all b moves).

(** The mini board of the test suite: two players, size 5, start positions
    in two opposite corners; and a board for one player. *)
Definition mini_starts : gset Point := {[ (0, 0); (4, 4) ]}.
Definition mini_game : Blokus Kind21 :=
  mkBlokus 2 5 mini_starts ∅ 1 (empty_grid 5) 0 [].
Definition solo_game : Blokus Kind21 :=
  mkBlokus 1 14 {[ (0, 0) ]} ∅ 1 (empty_grid 14) 0 [].

(** Both players have placed their single square on a corner. *)
Definition mini_opened : Blokus Kind21 :=
  after mini_game [(SK_ONE, (0, 0)); (SK_ONE, (4, 4))].

(** A whole game of one player: the single square goes second, the [Z]
    last. *)
Definition moves_one_second : list (Kind21 * Point) :=
  [ (SK_TWO, (0, 0)); (SK_ONE, (1, 2)); (SK_THREE, (0, 4)); (SK_C, (1, 6));
    (SK_FOUR, (0, 9)); (SK_SEVEN, (1, 13)); (SK_S, (2, 3));
    (SK_LETTER_O, (2, 10)); (SK_A, (4, 5)); (SK_F, (5, 8)); (SK_FIVE, (6, 1));
    (SK_L, (8, 3)); (SK_N, (5, 12)); (SK_P, (9, 12)); (SK_T, (9, 9));
    (SK_U, (9, 1)); (SK_V, (13, 3)); (SK_W, (12, 7)); (SK_X, (7, 6));
    (SK_Y, (10, 5)); (SK_Z, (12, 11)) ].

(** Another one: the single square goes first. *)
Definition moves_one_first : list (Kind21 * Point) :=
  [ (SK_ONE, (0, 0)); (SK_TWO, (1, 1)); (SK_THREE, (0, 4)); (SK_C, (1, 6));
    (SK_FOUR, (0, 9)); (SK_SEVEN, (1, 13)); (SK_S, (2, 3));
    (SK_LETTER_O, (2, 10)); (SK_A, (4, 5)); (SK_F, (5, 8)); (SK_FIVE, (4, 0));
    (SK_L, (7, 12)); (SK_N, (6, 3)); (SK_P, (7, 5)); (SK_T, (9, 8));
    (SK_U, (9, 5)); (SK_V, (13, 3)); (SK_W, (12, 6)); (SK_X, (9, 11));
    (SK_Y, (11, 13)); (SK_Z, (12, 10)) ].

Definition solo_finished : Blokus Kind21 := after solo_game moves_one_second.

(** Two moves, a reset, then the game that starts with the single square. *)
Definition solo_before_reset : Blokus Kind21 :=
  after solo_game [(SK_TWO, (0, 0)); (SK_ONE, (1, 2))].
Definition solo_replayed : Blokus Kind21 :=
  after (reset solo_before_reset) moves_one_first.

(** Player 1 has placed the single square on a corner of the mini board. *)
Definition mini_first_move : Blokus Kind21 :=
  after mini_game [(SK_ONE, (0, 0))].

(** Three players on a 28 by 28 board.  Players 1 and 2 both play the game
    [moves_one_second], player 2 fourteen rows down and fourteen columns
    to the right; player 3 retires on the first turn. *)
Definition shift_moves (d : Z) (moves : list (Kind21 * Point))
  : list (Kind21 * Point) :=
  map (λ m, (fst m, (fst (snd m) + d, snd (snd m) + d))) moves.

Fixpoint alternate (xs ys : list (Kind21 * Point)) : list (Kind21 * Point) :=
  match xs, ys with
  | x :: xs', y :: ys' => x :: y :: alternate xs' ys'
  | _, _ => []
  end.

Definition retired (b : Blokus Kind21) : Blokus Kind21 :=
  match retire b with
  | Ok b' => b'
  | _ => b
  end.

Definition three_game : Blokus Kind21 :=
  mkBlokus 3 28 {[ (0, 0); (14, 14); (27, 27) ]} ∅ 1 (empty_grid 28) 0 [].
Definition three_opened : Blokus Kind21 :=
  after three_game [(SK_TWO, (0, 0)); (SK_TWO, (14, 14))].
Definition three_finished : Blokus Kind21 :=
  after (retired three_opened)
        (alternate (drop 1 moves_one_second)
                   (shift_moves 14 (drop 1 moves_one_second))).

(** The values of the two members that the tests of [grid.py] show, ["1"]
    for [ONE] and ["2"] for [TWO]; no other member is given a value
    here. *)
Definition test_value (k : Kind21) : list ascii :=
  match k with
  | SK_ONE => ["1"%char]
  | SK_TWO => ["2"%char]
  | _ => []
  end.
Definition test_members : list Kind21 := [SK_ONE; SK_TWO].

(** The single square of the catalog moved to row 1 and column 2 by
    [TuiBoard.shift]. *)
Definition one_shifted : Piece Kind21 :=
  mkPiece (mkShape SK_ONE (1, 2) false [(1, 2)]) (Some (0, 0)).

(** * Properties *)

Section Properties.

Context {ShapeKind : Type} `{!EqDecision ShapeKind}.
Variable ONE : ShapeKind.
Variable definitions : list (ShapeKind * string).

Implicit Types (b : Blokus ShapeKind) (piece : Piece ShapeKind).
Implicit Types (sh : Shape ShapeKind) (g : Grid ShapeKind).

(** ** Transforms *)

Lemma map_involutive (f : Point → Point) (l : list Point) :
  (∀ x, f x = x) → map f l = l.
Proof.
  intros Hf. induction l as [|x l IH]; simpl; [done|]. by rewrite Hf, IH.
Qed.

(** C7. Four right rotations, four left rotations and two horizontal flips
    each give back the shape they started from: the list of offsets is the
    same, element by element, hence also as a multiset.  A shape that
    cannot be transformed is left alone by every call. *)
Theorem transforms_round_trip sh :
  (rotate_right (rotate_right (rotate_right (rotate_right sh))) = sh ∧
   rotate_left (rotate_left (rotate_left (rotate_left sh))) = sh ∧
   flip_horizontally (flip_horizontally sh) = sh) ∧
  (squares (rotate_right (rotate_right (rotate_right (rotate_right sh))))
     ≡ₚ squares sh ∧
   squares (rotate_left (rotate_left (rotate_left (rotate_left sh))))
     ≡ₚ squares sh ∧
   squares (flip_horizontally (flip_horizontally sh)) ≡ₚ squares sh).
Proof.
  assert (Heq :
    rotate_right (rotate_right (rotate_right (rotate_right sh))) = sh ∧
    rotate_left (rotate_left (rotate_left (rotate_left sh))) = sh ∧
    flip_horizontally (flip_horizontally sh) = sh).
  { destruct sh as [k o [|] sqs]; unfold rotate_right, rotate_left,
      flip_horizontally; simpl; [|done].
    repeat split; f_equal; rewrite ?map_map; apply map_involutive;
      intros [r c]; simpl; f_equal; lia. }
  split; [exact Heq|].
  destruct Heq as (-> & -> & ->). done.
Qed.

(** ** The grid as a list of lists *)

Lemma py_index_nonneg {A} (l : list A) (i : Z) :
  0 ≤ i →
  py_index l i = match l !! Z.to_nat i with
                 | Some x => Ok x
                 | None => Raise IndexError
                 end.
Proof.
  intros Hi. unfold py_index.
  rewrite (bool_decide_eq_false_2 (i < 0)) by lia.
  by rewrite bool_decide_eq_false_2 by lia.
Qed.

Lemma grid_get_cell_at g (r c : Z) (cell : Cell ShapeKind) :
  0 ≤ r → 0 ≤ c →
  grid_get g r c = Ok cell ↔ cell_at g (Z.to_nat r) (Z.to_nat c) = Some cell.
Proof.
  intros Hr Hc. unfold grid_get, cell_at.
  rewrite py_index_nonneg by done.
  destruct (g !! Z.to_nat r) as [line|]; simpl; [|split; discriminate].
  rewrite py_index_nonneg by done.
  destruct (line !! Z.to_nat c); split; congruence.
Qed.

Lemma cell_at_in_bounds b (i j : nat) :
  wf b → (i < Z.to_nat (_size b))%nat → (j < Z.to_nat (_size b))%nat →
  is_Some (cell_at (_grid b) i j).
Proof.
  intros Hwf Hi Hj. unfold cell_at.
  destruct (lookup_lt_is_Some_2 (_grid b) i) as [line Hline].
  { by rewrite (wf_rows _ Hwf). }
  rewrite Hline. simpl. apply lookup_lt_is_Some_2.
  pose proof (wf_cols _ Hwf) as Hcols.
  rewrite Forall_lookup in Hcols. by rewrite (Hcols _ _ Hline).
Qed.

Lemma grid_get_in_bounds b (r c : Z) :
  wf b → 0 ≤ r < _size b → 0 ≤ c < _size b →
  ∃ cell, grid_get (_grid b) r c = Ok cell.
Proof.
  intros Hwf Hr Hc.
  destruct (cell_at_in_bounds b (Z.to_nat r) (Z.to_nat c) Hwf) as [cell H];
    [lia..|].
  exists cell. apply grid_get_cell_at; [lia..|done].
Qed.

Lemma elem_of_played_shapes g (player : Z) (k : ShapeKind) :
  k ∈ played_shapes g player ↔ ∃ i j, cell_at g i j = Some (Some (player, k)).
Proof.
  unfold played_shapes, cell_at. rewrite list_elem_of_In, in_flat_map. split.
  - intros (line & Hline & Hk). apply in_flat_map in Hk as (cell & Hcell & Hk).
    apply list_elem_of_In, list_elem_of_lookup in Hline as [i Hi].
    apply list_elem_of_In, list_elem_of_lookup in Hcell as [j Hj].
    exists i, j. rewrite Hi. simpl. rewrite Hj. f_equal.
    destruct cell as [[owner k']|]; [|by destruct Hk].
    case_bool_decide; [|by destruct Hk].
    destruct Hk as [->|[]]. by subst.
  - intros (i & j & H). destruct (g !! i) as [line|] eqn:Hi; [|done].
    simpl in H. exists line. split.
    + apply list_elem_of_In, list_elem_of_lookup. eauto.
    + apply in_flat_map. exists (Some (player, k)). split.
      * apply list_elem_of_In, list_elem_of_lookup. eauto.
      * rewrite bool_decide_eq_true_2 by done. by left.
Qed.

Lemma cell_at_grid_set g (r c : Z) (v : Cell ShapeKind) (i j : nat) :
  cell_at (grid_set g r c v) i j =
    if decide (i = Z.to_nat r ∧ j = Z.to_nat c)
    then (λ _, v) <$> cell_at g i j else cell_at g i j.
Proof.
  unfold cell_at, grid_set. rewrite list_lookup_alter.
  destruct (decide (Z.to_nat r = i)) as [Hr|Hr].
  - subst i. destruct (g !! Z.to_nat r) as [line|]; simpl.
    + rewrite list_lookup_insert.
      destruct (decide (Z.to_nat c = j ∧ _)) as [[<- Hlt]|Hn];
        destruct (decide (_ ∧ _)) as [[_ Hj]|Hm]; try done.
      * by destruct (lookup_lt_is_Some_2 line _ Hlt) as [x ->].
      * naive_solver.
      * subst j. rewrite lookup_ge_None_2; [done|].
        destruct (decide (Z.to_nat c < length line)%nat); [|lia].
        naive_solver.
    + by destruct (decide _).
  - destruct (decide (_ ∧ _)) as [[Hi _]|_]; [by subst i|done].
Qed.

Lemma cell_at_commit g (locs : list Point) (v : Cell ShapeKind) (i j : nat) :
  cell_at (commit g locs v) i j =
    if decide ((i, j) ∈ map nat_point locs)
    then (λ _, v) <$> cell_at g i j else cell_at g i j.
Proof.
  unfold commit. revert g.
  induction locs as [|[r c] locs IH]; intros g; simpl.
  - done.
  - rewrite IH, cell_at_grid_set.
    assert (Hhd : nat_point (r, c) = (Z.to_nat r, Z.to_nat c)) by done.
    destruct (decide ((i, j) ∈ map nat_point locs)) as [Hin|Hnin];
      destruct (decide (i = Z.to_nat r ∧ j = Z.to_nat c)) as [[Hi Hj]|Hne];
      destruct (decide ((i, j) ∈ nat_point (r, c) :: map nat_point locs))
        as [Hc|Hc]; try done.
    + by destruct (cell_at g i j).
    + destruct Hc. apply elem_of_cons. by right.
    + destruct Hc. apply elem_of_cons. by right.
    + destruct Hc. rewrite Hhd, Hi, Hj. apply elem_of_cons. by left.
    + apply elem_of_cons in Hc as [Heq|Hc]; [|done].
      rewrite Hhd in Heq. naive_solver.
Qed.

(** ** Collisions *)

Lemma piece_squares_anchored piece (a : Point) :
  anchor piece = Some a →
  piece_squares piece =
    Ok (map (λ rc, (row a + fst rc, col a + snd rc)) (squares (shape piece))).
Proof. intros Ha. unfold piece_squares. by rewrite Ha. Qed.

Lemma any_occupied_false g (locs : list Point) :
  any_occupied g locs = Ok false ↔
  Forall (λ rc, grid_get g (fst rc) (snd rc) = Ok None) locs.
Proof.
  induction locs as [|[r c] locs IH]; simpl.
  - split; [constructor|done].
  - split.
    + intros H. destruct (grid_get g r c) as [[cell|]| |] eqn:Hg; try done.
      constructor; [done|]. by apply IH.
    + intros H. inversion H as [|? ? Hg H']; subst. simpl in Hg.
      rewrite Hg. simpl. by apply IH.
Qed.

Lemma any_occupied_total b (locs : list Point) :
  wf b → Forall (in_board b) locs →
  ∃ v, any_occupied (_grid b) locs = Ok v.
Proof.
  intros Hwf. induction 1 as [|[r c] locs [Hr Hc] _ IH]; simpl; [eauto|].
  destruct (grid_get_in_bounds b r c Hwf Hr Hc) as [cell ->]. simpl.
  destruct cell; eauto.
Qed.

Lemma wall_collisions_false b (sqs : list Point) :
  existsb (λ square,
     bool_decide (fst square < 0 ∨ snd square < 0 ∨
                  fst square >= _size b ∨ snd square >= _size b)) sqs = false ↔
  Forall (in_board b) sqs.
Proof.
  induction sqs as [|sq sqs IH]; simpl.
  - split; [constructor|done].
  - split.
    + intros [H1 H2]%orb_false_iff. apply bool_decide_eq_false in H1.
      constructor; [unfold in_board; lia|by apply IH].
    + intros H. inversion H as [|? ? [Hr Hc] H']; subst.
      apply orb_false_iff. split; [|by apply IH].
      apply bool_decide_eq_false. lia.
Qed.

Lemma any_collisions_false b piece :
  any_collisions b piece = Ok false →
  ∃ a sqs, anchor piece = Some a ∧ piece_squares piece = Ok sqs ∧
           Forall (in_board b) sqs ∧
           Forall (λ rc, grid_get (_grid b) (fst rc) (snd rc) = Ok None) sqs.
Proof.
  unfold any_collisions, any_wall_collisions, _check_anchor, piece_squares.
  destruct (anchor piece) as [a|]; simpl; [|done].
  destruct (existsb _ _) eqn:Hwall; simpl; [done|].
  intros Hocc. eexists a, _. repeat split; [|by apply any_occupied_false].
  by apply wall_collisions_false.
Qed.

Lemma any_collisions_total b piece :
  wf b → anchor piece ≠ None → ∃ v, any_collisions b piece = Ok v.
Proof.
  intros Hwf Ha.
  unfold any_collisions, any_wall_collisions, _check_anchor, piece_squares.
  destruct (anchor piece) as [a|]; simpl; [|done].
  destruct (existsb _ _) eqn:Hwall; simpl; [eauto|].
  apply any_occupied_total; [done|]. by apply wall_collisions_false.
Qed.

(** ** Neighbour loops *)

Lemma touches_own_spec b (pts : list Point) :
  wf b → touches_own b pts = Ok (existsb (own_cell b) pts).
Proof.
  intros Hwf. induction pts as [|[r c] pts IH]; simpl; [done|].
  unfold own_cell at 1. simpl.
  case_bool_decide as Hin.
  - rewrite bool_decide_eq_true_2 by lia. simpl.
    destruct (grid_get_in_bounds b r c Hwf) as [cell ->]; [lia..|]. simpl.
    destruct cell as [[owner k]|]; [|done].
    by case_bool_decide.
  - rewrite bool_decide_eq_false_2 by lia. done.
Qed.

Lemma cardinal_neighbors_anchored piece (a : Point) :
  anchor piece = Some a → ∃ card, cardinal_neighbors piece = Ok card.
Proof.
  intros Ha. unfold cardinal_neighbors.
  rewrite (piece_squares_anchored _ a Ha). simpl. eauto.
Qed.

Lemma intercardinal_neighbors_anchored piece (a : Point) :
  anchor piece = Some a → ∃ inter, intercardinal_neighbors piece = Ok inter.
Proof.
  intros Ha. unfold intercardinal_neighbors, cardinal_neighbors.
  rewrite (piece_squares_anchored _ a Ha). simpl. eauto.
Qed.

(** [legal_to_place] once the two contract checks and the collision test
    are passed. *)
Lemma legal_to_place_clear b piece (a : Point) sqs card inter :
  wf b →
  kind (shape piece) ∈ remaining_shapes definitions b (_curr_player b) →
  anchor piece = Some a →
  any_collisions b piece = Ok false →
  piece_squares piece = Ok sqs →
  cardinal_neighbors piece = Ok card →
  intercardinal_neighbors piece = Ok inter →
  legal_to_place definitions b piece =
    Ok (if bool_decide (_num_moves b <
                        _num_players b - Z.of_nat (size (_retired_players b)))
        then existsb (λ square, bool_decide (square ∈ _start_positions b)) sqs
        else negb (existsb (own_cell b) (elements card))
             && existsb (own_cell b) (elements inter)).
Proof.
  intros Hwf Hk Ha Hcoll Hsqs Hcard Hinter. unfold legal_to_place.
  rewrite bool_decide_eq_false_2 by (by intros []).
  rewrite Ha, Hcoll. simpl.
  case_bool_decide; [by rewrite Hsqs|].
  rewrite Hcard. simpl. rewrite touches_own_spec by done. simpl.
  destruct (existsb (own_cell b) (elements card)); simpl; [done|].
  rewrite Hinter. simpl. by apply touches_own_spec.
Qed.

Lemma existsb_elements (f : Point → bool) (X : gset Point) :
  existsb f (elements X) = true ↔ ∃ q, q ∈ X ∧ f q = true.
Proof.
  rewrite existsb_exists. split; intros (q & Hq & Hf); exists q; split;
    try done; [by apply elem_of_elements, list_elem_of_In|
               by apply list_elem_of_In, elem_of_elements].
Qed.

Lemma own_cell_true b (q : Point) :
  own_cell b q = true ↔
  in_board b q ∧
  ∃ k, grid_get (_grid b) (fst q) (snd q) = Ok (Some (_curr_player b, k)).
Proof.
  unfold own_cell, in_board. rewrite andb_true_iff, bool_decide_eq_true.
  split; intros [Hin H]; (split; [done|]).
  - destruct (grid_get _ _ _) as [[[owner k]|]| |]; try done.
    apply bool_decide_eq_true in H as ->. eauto.
  - destruct H as [k ->]. by apply bool_decide_eq_true.
Qed.

Lemma elem_of_shifted (q : Point) (sqs positions : list Point) :
  q ∈ shifted sqs positions ↔
  ∃ sq d, sq ∈ sqs ∧ d ∈ positions ∧ q = (fst sq + fst d, snd sq + snd d).
Proof.
  unfold shifted. rewrite list_elem_of_In, in_flat_map. split.
  - intros (sq & Hsq & Hq). apply in_map_iff in Hq as (d & <- & Hd).
    exists sq, d. by rewrite !list_elem_of_In.
  - intros (sq & d & Hsq & Hd & ->). exists sq.
    rewrite <- list_elem_of_In. split; [done|].
    apply in_map_iff. exists d. by rewrite <- list_elem_of_In.
Qed.

(** The points [cardinal_neighbors] returns: one step north, east, south or
    west of a square of the piece, and no square of the piece. *)
Lemma elem_of_cardinal_neighbors piece sqs card (q : Point) :
  piece_squares piece = Ok sqs → cardinal_neighbors piece = Ok card →
  q ∈ card ↔
  (q ∉ sqs) ∧ ∃ sq d, sq ∈ sqs ∧ d ∈ cardinal_positions ∧
                    q = (fst sq + fst d, snd sq + snd d).
Proof.
  intros Hsqs. unfold cardinal_neighbors. rewrite Hsqs. simpl.
  intros [= <-].
  by rewrite elem_of_list_to_set, list_elem_of_filter, elem_of_shifted.
Qed.

(** The points [intercardinal_neighbors] returns: one diagonal step from a
    square of the piece, neither a square nor a cardinal neighbour. *)
Lemma elem_of_intercardinal_neighbors piece sqs card inter (q : Point) :
  piece_squares piece = Ok sqs → cardinal_neighbors piece = Ok card →
  intercardinal_neighbors piece = Ok inter →
  q ∈ inter ↔
  ((q ∉ card) ∧ (q ∉ sqs)) ∧
  ∃ sq d, sq ∈ sqs ∧ d ∈ intercardinal_positions ∧
          q = (fst sq + fst d, snd sq + snd d).
Proof.
  intros Hsqs Hcard. unfold intercardinal_neighbors. rewrite Hsqs, Hcard.
  simpl. intros [= <-].
  by rewrite elem_of_list_to_set, list_elem_of_filter, elem_of_shifted.
Qed.

(** ** The contract errors of [legal_to_place] *)

Lemma legal_to_place_played b piece :
  kind (shape piece) ∉ remaining_shapes definitions b (_curr_player b) →
  legal_to_place definitions b piece = Raise AlreadyPlayedShape.
Proof. intros Hk. unfold legal_to_place. by rewrite bool_decide_eq_true_2. Qed.

Lemma legal_to_place_unanchored b piece :
  kind (shape piece) ∈ remaining_shapes definitions b (_curr_player b) →
  anchor piece = None →
  legal_to_place definitions b piece = Raise NoAnchorSet.
Proof.
  intros Hk Ha. unfold legal_to_place.
  rewrite bool_decide_eq_false_2 by (by intros []). by rewrite Ha.
Qed.

Lemma legal_to_place_returns b piece :
  wf b →
  kind (shape piece) ∈ remaining_shapes definitions b (_curr_player b) →
  anchor piece ≠ None →
  ∃ v : bool, legal_to_place definitions b piece = Ok v ∧
              (any_collisions b piece = Ok true → v = false).
Proof.
  intros Hwf Hk Ha. destruct (anchor piece) as [a|] eqn:Hanchor; [|done].
  destruct (any_collisions_total b piece Hwf) as [[|] Hcoll];
    [by rewrite Hanchor| |].
  - exists false. split; [|done]. unfold legal_to_place.
    rewrite bool_decide_eq_false_2 by (by intros []).
    by rewrite Hanchor, Hcoll.
  - destruct (cardinal_neighbors_anchored _ _ Hanchor) as [card Hcard].
    destruct (intercardinal_neighbors_anchored _ _ Hanchor) as [inter Hinter].
    rewrite (legal_to_place_clear b piece a _ card inter Hwf Hk Hanchor
               Hcoll (piece_squares_anchored _ _ Hanchor) Hcard Hinter).
    eexists. split; [done|]. by rewrite Hcoll.
Qed.

(** C8. [legal_to_place] raises the already-played error exactly when the
    shape kind is not in the current player's remaining shapes, whatever
    the anchor; it raises the missing-anchor error exactly when the kind is
    still available and the anchor is unset; in every other case it returns
    a boolean, and that boolean is false when the piece collides with a
    wall or a played piece. *)
Theorem legal_to_place_errors b piece :
  wf b →
  (legal_to_place definitions b piece = Raise AlreadyPlayedShape ↔
     kind (shape piece) ∉ remaining_shapes definitions b (_curr_player b)) ∧
  (legal_to_place definitions b piece = Raise NoAnchorSet ↔
     kind (shape piece) ∈ remaining_shapes definitions b (_curr_player b) ∧
     anchor piece = None) ∧
  (kind (shape piece) ∈ remaining_shapes definitions b (_curr_player b) →
   anchor piece ≠ None →
   ∃ v : bool, legal_to_place definitions b piece = Ok v ∧
               (any_collisions b piece = Ok true → v = false)).
Proof.
  intros Hwf.
  destruct (decide (kind (shape piece)
              ∈ remaining_shapes definitions b (_curr_player b))) as [Hk|Hk].
  - destruct (anchor piece) as [a|] eqn:Ha.
    + destruct (legal_to_place_returns b piece Hwf Hk) as (v & Hv & Hcoll);
        [by rewrite Ha|].
      rewrite Hv. repeat split; try done; [by intros [_ ?]|eauto].
    + rewrite (legal_to_place_unanchored b piece Hk Ha).
      repeat split; done.
  - rewrite (legal_to_place_played b piece Hk).
    repeat split; try done. by intros [? _].
Qed.

(** ** Counting players *)

Lemma elem_of_players b (p : Z) : p ∈ players b ↔ 1 ≤ p ≤ _num_players b.
Proof. unfold players. rewrite elem_of_seqZ. lia. Qed.

Lemma length_players b : 0 ≤ _num_players b →
  Z.of_nat (length (players b)) = _num_players b.
Proof. intros Hn. unfold players. rewrite length_seqZ. lia. Qed.

Lemma length_filter_retired b :
  wf b →
  length (filter (λ p, p ∈ _retired_players b) (players b))
    = size (_retired_players b).
Proof.
  intros Hwf.
  rewrite <- (size_list_to_set (C := gset Z)).
  - f_equal. apply set_eq. intros p.
    rewrite elem_of_list_to_set, list_elem_of_filter, elem_of_players.
    split; [by intros [? _]|]. intros Hp. split; [done|].
    by apply (wf_retired _ Hwf).
  - apply list.NoDup_filter, NoDup_seqZ.
Qed.

Lemma length_filter_split (P Q : Z → Prop)
    `{!∀ x, Decision (P x)} `{!∀ x, Decision (Q x)} (l : list Z) :
  (∀ x, x ∈ l → ¬ (P x ∧ Q x)) →
  (length (filter P l) + length (filter Q l) ≤ length l)%nat ∧
  ((length (filter P l) + length (filter Q l) = length l)%nat ↔
   ∀ x, x ∈ l → P x ∨ Q x).
Proof.
  induction l as [|x l IH]; intros Hdisj.
  - simpl. split; [done|]. split; [|done]. by intros _ x ?%elem_of_nil.
  - destruct IH as [IHle IHeq].
    { intros y Hy. apply Hdisj. by right. }
    assert (Hx : ¬ (P x ∧ Q x)) by (apply Hdisj; by left).
    rewrite !filter_cons.
    destruct (decide (P x)) as [HP|HP], (decide (Q x)) as [HQ|HQ]; simpl;
      [tauto|..].
    + split; [lia|]. split.
      * intros Hlen y [->|Hy]%elem_of_cons; [by left|].
        apply IHeq; [lia|done].
      * intros Hall. cut (length (filter P l) + length (filter Q l)
                          = length l)%nat; [lia|].
        apply IHeq. intros y Hy. apply Hall. by right.
    + split; [lia|]. split.
      * intros Hlen y [->|Hy]%elem_of_cons; [by right|].
        apply IHeq; [lia|done].
      * intros Hall. cut (length (filter P l) + length (filter Q l)
                          = length l)%nat; [lia|].
        apply IHeq. intros y Hy. apply Hall. by right.
    + split; [lia|]. split; [lia|].
      intros Hall. destruct (Hall x); [by left|done..].
Qed.

Lemma unmoved_active_le b :
  wf b →
  unmoved_active b
    ≤ _num_players b - Z.of_nat (size (_retired_players b)).
Proof.
  intros Hwf. unfold unmoved_active.
  rewrite <- (length_filter_retired b Hwf).
  rewrite <- (length_players b) at 1 by (pose proof (wf_players _ Hwf); lia).
  pose proof (length_filter_split
    (λ p, (p ∉ _retired_players b) ∧ played_shapes (_grid b) p = [])
    (λ p, p ∈ _retired_players b) (players b)) as [Hle _].
  { intros p _ [[Hn _] Hr]. done. }
  lia.
Qed.

(** ** The two placement rules *)

(** C4. For an anchored piece that collides with nothing and whose kind the
    current player still has: while the move counter is below the number of
    players who are not retired and have no square on the grid,
    [legal_to_place] returns a boolean, and it is true exactly when some
    square of the piece is a start position.  No neighbour is looked at.
    (The code's own test is the weaker [_num_moves < num_players -
    len(retired)], see [legal_to_place_clear].) *)
Theorem opening_move_rule b piece (a : Point) :
  wf b →
  kind (shape piece) ∈ remaining_shapes definitions b (_curr_player b) →
  anchor piece = Some a →
  any_collisions b piece = Ok false →
  _num_moves b < unmoved_active b →
  ∃ sqs (v : bool),
    piece_squares piece = Ok sqs ∧
    legal_to_place definitions b piece = Ok v ∧
    (v = true ↔ ∃ sq, sq ∈ sqs ∧ sq ∈ _start_positions b).
Proof.
  intros Hwf Hk Ha Hcoll Hopen.
  destruct (cardinal_neighbors_anchored _ _ Ha) as [card Hcard].
  destruct (intercardinal_neighbors_anchored _ _ Ha) as [inter Hinter].
  pose proof (piece_squares_anchored _ _ Ha) as Hsqs.
  eexists _, _. split; [exact Hsqs|]. split.
  - rewrite (legal_to_place_clear b piece a _ card inter) by done.
    rewrite bool_decide_eq_true_2; [done|].
    pose proof (unmoved_active_le b Hwf). lia.
  - rewrite existsb_exists. split.
    + intros (sq & Hsq & Hstart). exists sq.
      by rewrite list_elem_of_In, <- (bool_decide_eq_true (sq ∈ _)).
    + intros (sq & Hsq & Hstart). exists sq.
      by rewrite <- list_elem_of_In, bool_decide_eq_true.
Qed.

(** The neighbours in terms of the grid: a step by a cardinal position is
    a step to a cell that shares an edge, a step by an intercardinal
    position one to a cell that shares a corner only. *)
Lemma edge_adjacent_step (x y : Point) :
  edge_adjacent x y ↔
  ∃ d, d ∈ cardinal_positions ∧ y = (fst x + fst d, snd x + snd d).
Proof.
  destruct x as [xr xc], y as [yr yc]. unfold edge_adjacent. simpl. split.
  - intros Hadj. exists (yr - xr, yc - xc). split.
    + unfold cardinal_positions. rewrite !elem_of_cons.
      assert ((yr - xr = -1 ∧ yc - xc = 0) ∨ (yr - xr = 0 ∧ yc - xc = 1) ∨
              (yr - xr = 1 ∧ yc - xc = 0) ∨ (yr - xr = 0 ∧ yc - xc = -1))
        as [[-> ->]|[[-> ->]|[[-> ->]|[-> ->]]]] by lia; auto.
    + simpl. f_equal; lia.
  - intros (d & Hd & Heq). unfold cardinal_positions in Hd.
    rewrite !elem_of_cons, elem_of_nil in Hd. injection Heq as -> ->.
    destruct Hd as [->|[->|[->|[->|[]]]]]; simpl; lia.
Qed.

Lemma diagonal_step (x y : Point) :
  diagonal x y ↔
  ∃ d, d ∈ intercardinal_positions ∧ y = (fst x + fst d, snd x + snd d).
Proof.
  destruct x as [xr xc], y as [yr yc]. unfold diagonal. simpl. split.
  - intros [Hr Hc]. exists (yr - xr, yc - xc). split.
    + unfold intercardinal_positions. rewrite !elem_of_cons.
      assert ((yr - xr = -1 ∧ yc - xc = -1) ∨ (yr - xr = -1 ∧ yc - xc = 1) ∨
              (yr - xr = 1 ∧ yc - xc = 1) ∨ (yr - xr = 1 ∧ yc - xc = -1))
        as [[-> ->]|[[-> ->]|[[-> ->]|[-> ->]]]] by lia; auto.
    + simpl. f_equal; lia.
  - intros (d & Hd & Heq). unfold intercardinal_positions in Hd.
    rewrite !elem_of_cons, elem_of_nil in Hd. injection Heq as -> ->.
    destruct Hd as [->|[->|[->|[->|[]]]]]; simpl; lia.
Qed.

Lemma cardinal_neighbors_edges piece sqs card (q : Point) :
  piece_squares piece = Ok sqs → cardinal_neighbors piece = Ok card →
  q ∈ card ↔ (q ∉ sqs) ∧ ∃ sq, sq ∈ sqs ∧ edge_adjacent sq q.
Proof.
  intros Hsqs Hcard.
  rewrite (elem_of_cardinal_neighbors piece sqs card q Hsqs Hcard). split.
  - intros [Hq (sq & d & Hsq & Hd & ->)]. split; [done|].
    exists sq. split; [done|]. apply edge_adjacent_step. by exists d.
  - intros [Hq (sq & Hsq & (d & Hd & ->)%edge_adjacent_step)].
    split; [done|]. by exists sq, d.
Qed.

Lemma intercardinal_neighbors_corners piece sqs card inter (q : Point) :
  piece_squares piece = Ok sqs → cardinal_neighbors piece = Ok card →
  intercardinal_neighbors piece = Ok inter →
  q ∈ inter ↔
  (q ∉ sqs) ∧ (∀ sq, sq ∈ sqs → ¬ edge_adjacent sq q) ∧
  ∃ sq, sq ∈ sqs ∧ diagonal sq q.
Proof.
  intros Hsqs Hcard Hinter.
  rewrite (elem_of_intercardinal_neighbors piece sqs card inter q
             Hsqs Hcard Hinter). split.
  - intros [[Hnot Hq] (sq & d & Hsq & Hd & Heq)]. split; [done|]. split.
    + intros sq' Hsq' Hadj. apply Hnot.
      apply (cardinal_neighbors_edges piece sqs card q Hsqs Hcard).
      split; [done|]. by exists sq'.
    + exists sq. split; [done|]. apply diagonal_step. by exists d.
  - intros (Hq & Hno & sq & Hsq & (d & Hd & Heq)%diagonal_step).
    split; [split; [|done]|by exists sq, d].
    intros Hin.
    apply (cardinal_neighbors_edges piece sqs card q Hsqs Hcard) in Hin
      as [_ (sq' & Hsq' & Hadj)].
    by apply (Hno sq').
Qed.

(** C5. For an anchored piece that collides with nothing and whose kind the
    current player still has, once the opening test of [legal_to_place]
    fails, that is once the move counter has reached the number of players
    who are not retired.  The cardinal neighbours are the cells that share
    an edge with a square of the piece and are no square of it; the
    intercardinal neighbours are the cells that share a corner with a
    square of the piece, are no square of it and share an edge with none.
    If some cell of the first kind lies on the board and belongs to the
    current player the result is false, whatever the diagonal contacts;
    otherwise the result is true exactly when some cell of the second kind
    lies on the board and belongs to the current player. *)
Theorem subsequent_move_rule b piece (a : Point) :
  wf b →
  kind (shape piece) ∈ remaining_shapes definitions b (_curr_player b) →
  anchor piece = Some a →
  any_collisions b piece = Ok false →
  _num_players b - Z.of_nat (size (_retired_players b)) ≤ _num_moves b →
  ∃ sqs card inter,
    piece_squares piece = Ok sqs ∧
    cardinal_neighbors piece = Ok card ∧
    intercardinal_neighbors piece = Ok inter ∧
    (∀ q, q ∈ card ↔ (q ∉ sqs) ∧ ∃ sq, sq ∈ sqs ∧ edge_adjacent sq q) ∧
    (∀ q, q ∈ inter ↔
          (q ∉ sqs) ∧ (∀ sq, sq ∈ sqs → ¬ edge_adjacent sq q) ∧
          ∃ sq, sq ∈ sqs ∧ diagonal sq q) ∧
    ((∃ q, (q ∉ sqs) ∧ (∃ sq, sq ∈ sqs ∧ edge_adjacent sq q) ∧
           in_board b q ∧
           ∃ k, grid_get (_grid b) (fst q) (snd q)
                = Ok (Some (_curr_player b, k))) →
       legal_to_place definitions b piece = Ok false) ∧
    (¬ (∃ q, (q ∉ sqs) ∧ (∃ sq, sq ∈ sqs ∧ edge_adjacent sq q) ∧
             in_board b q ∧
             ∃ k, grid_get (_grid b) (fst q) (snd q)
                  = Ok (Some (_curr_player b, k))) →
       ∃ v : bool,
         legal_to_place definitions b piece = Ok v ∧
         (v = true ↔
          ∃ q, (q ∉ sqs) ∧ (∀ sq, sq ∈ sqs → ¬ edge_adjacent sq q) ∧
               (∃ sq, sq ∈ sqs ∧ diagonal sq q) ∧
               in_board b q ∧
               ∃ k, grid_get (_grid b) (fst q) (snd q)
                    = Ok (Some (_curr_player b, k)))).
Proof.
  intros Hwf Hk Ha Hcoll Hlater.
  destruct (cardinal_neighbors_anchored _ _ Ha) as [card Hcard].
  destruct (intercardinal_neighbors_anchored _ _ Ha) as [inter Hinter].
  pose proof (piece_squares_anchored _ _ Ha) as Hsqs.
  pose proof (λ q, cardinal_neighbors_edges piece _ card q Hsqs Hcard)
    as Hedges.
  pose proof (λ q, intercardinal_neighbors_corners piece _ card inter q
                     Hsqs Hcard Hinter) as Hcorners.
  eexists _, card, inter. split; [exact Hsqs|]. split; [done|].
  split; [done|]. split; [exact Hedges|]. split; [exact Hcorners|].
  rewrite (legal_to_place_clear b piece a _ card inter) by done.
  rewrite bool_decide_eq_false_2 by lia.
  assert (Hown_edge :
    existsb (own_cell b) (elements card) = true ↔
    ∃ q, (q ∉ map (λ rc, (row a + fst rc, col a + snd rc))
                  (squares (shape piece))) ∧
         (∃ sq, sq ∈ map (λ rc, (row a + fst rc, col a + snd rc))
                         (squares (shape piece)) ∧ edge_adjacent sq q) ∧
         in_board b q ∧
         ∃ k, grid_get (_grid b) (fst q) (snd q)
              = Ok (Some (_curr_player b, k))).
  { rewrite existsb_elements. split.
    - intros (q & [Hq Hadj]%Hedges & Hown%own_cell_true). by exists q.
    - intros (q & Hq & Hadj & Hown). exists q.
      split; [by apply Hedges|by apply own_cell_true]. }
  assert (Hown_corner :
    existsb (own_cell b) (elements inter) = true ↔
    ∃ q, (q ∉ map (λ rc, (row a + fst rc, col a + snd rc))
                  (squares (shape piece))) ∧
         (∀ sq, sq ∈ map (λ rc, (row a + fst rc, col a + snd rc))
                         (squares (shape piece)) → ¬ edge_adjacent sq q) ∧
         (∃ sq, sq ∈ map (λ rc, (row a + fst rc, col a + snd rc))
                         (squares (shape piece)) ∧ diagonal sq q) ∧
         in_board b q ∧
         ∃ k, grid_get (_grid b) (fst q) (snd q)
              = Ok (Some (_curr_player b, k))).
  { rewrite existsb_elements. split.
    - intros (q & (Hq & Hno & Hdiag)%Hcorners & Hown%own_cell_true).
      by exists q.
    - intros (q & Hq & Hno & Hdiag & Hown). exists q.
      split; [by apply Hcorners|by apply own_cell_true]. }
  split.
  - intros Hedge. apply Hown_edge in Hedge. by rewrite Hedge.
  - intros Hedge.
    assert (existsb (own_cell b) (elements card) = false) as ->.
    { apply not_true_is_false. intros Hown. by apply Hedge, Hown_edge. }
    simpl. eexists. split; [done|]. exact Hown_corner.
Qed.

(** ** A failed placement *)

Lemma maybe_place_false b piece b' :
  maybe_place definitions b piece = Ok (false, b') → b' = b.
Proof.
  unfold maybe_place. case_bool_decide; [congruence|].
  destruct (legal_to_place definitions b piece) as [[|]| |]; simpl;
    [|congruence|done..].
  case_bool_decide; [done|].
  destruct (piece_squares piece); simpl; [|done..].
  destruct (advance _ _ _); simpl; congruence.
Qed.

Lemma maybe_place_retired b piece :
  _curr_player b ∈ _retired_players b →
  maybe_place definitions b piece = Ok (false, b).
Proof. intros Hret. unfold maybe_place. by rewrite bool_decide_eq_true_2. Qed.

Lemma maybe_place_illegal b piece :
  _curr_player b ∉ _retired_players b →
  legal_to_place definitions b piece = Ok false →
  maybe_place definitions b piece = Ok (false, b).
Proof.
  intros Hret Hlegal. unfold maybe_place.
  rewrite bool_decide_eq_false_2 by done. by rewrite Hlegal.
Qed.

(** C6. When [maybe_place] returns false the state it leaves is the state
    it was called on: grid, current player, move counter, retired set and
    history are the same, and so are every player's remaining shapes.  It
    does return false, with that state, both when the current player is
    retired and when the piece is not legal. *)
Theorem maybe_place_false_unchanged b piece :
  (∀ b', maybe_place definitions b piece = Ok (false, b') →
     b' = b ∧
     _grid b' = _grid b ∧ _curr_player b' = _curr_player b ∧
     _num_moves b' = _num_moves b ∧
     _retired_players b' = _retired_players b ∧
     _played_pieces b' = _played_pieces b ∧
     ∀ p, remaining_shapes definitions b' p = remaining_shapes definitions b p) ∧
  (_curr_player b ∈ _retired_players b →
     maybe_place definitions b piece = Ok (false, b)) ∧
  (_curr_player b ∉ _retired_players b →
   legal_to_place definitions b piece = Ok false →
     maybe_place definitions b piece = Ok (false, b)).
Proof.
  split; [|split; [apply maybe_place_retired|apply maybe_place_illegal]].
  intros b' Hplace. by rewrite (maybe_place_false _ _ _ Hplace).
Qed.

(** ** A successful placement *)

Lemma maybe_place_true b piece b' :
  maybe_place definitions b piece = Ok (true, b') →
  ∃ sqs c,
    (_curr_player b ∉ _retired_players b) ∧
    legal_to_place definitions b piece = Ok true ∧
    kind (shape piece) ∈ remaining_shapes definitions b (_curr_player b) ∧
    piece_squares piece = Ok sqs ∧
    advance b (_retired_players b) (next_player b (_curr_player b)) = Ok c ∧
    b' = mkBlokus (_num_players b) (_size b) (_start_positions b)
           (_retired_players b) c
           (commit (_grid b) sqs (Some (_curr_player b, kind (shape piece))))
           (_num_moves b + 1)
           (_played_pieces b ++ [(_curr_player b, kind (shape piece))]).
Proof.
  unfold maybe_place. case_bool_decide as Hret; [congruence|].
  destruct (legal_to_place definitions b piece) as [[|]| |]; simpl;
    [|congruence|done..].
  case_bool_decide as Hk; [done|].
  destruct (piece_squares piece) as [sqs| |]; simpl; [|done..].
  destruct (advance _ _ _) as [c| |]; simpl; [|done..].
  intros [= <-]. exists sqs, c. repeat split; try done.
Qed.

Lemma legal_true_squares b piece :
  wf b → legal_to_place definitions b piece = Ok true →
  ∃ sqs, piece_squares piece = Ok sqs ∧ sqs ≠ [] ∧
         Forall (in_board b) sqs ∧
         Forall (λ rc, grid_get (_grid b) (fst rc) (snd rc) = Ok None) sqs.
Proof.
  intros Hwf Hlegal.
  destruct (decide (kind (shape piece)
              ∈ remaining_shapes definitions b (_curr_player b))) as [Hk|Hk];
    [|by rewrite legal_to_place_played in Hlegal].
  destruct (anchor piece) as [a|] eqn:Ha;
    [|by rewrite legal_to_place_unanchored in Hlegal].
  destruct (legal_to_place_returns b piece Hwf Hk) as (v & Hv & Hfalse);
    [by rewrite Ha|].
  destruct (any_collisions_total b piece Hwf) as [coll Hcoll];
    [by rewrite Ha|].
  destruct coll; [rewrite Hfalse in Hv by done; congruence|].
  destruct (any_collisions_false b piece Hcoll)
    as (a' & sqs & _ & Hsqs & Hin & Hfree).
  exists sqs. repeat split; try done.
  intros ->.
  destruct (cardinal_neighbors_anchored _ _ Ha) as [card Hcard].
  assert (Hinter : intercardinal_neighbors piece = Ok ∅).
  { unfold intercardinal_neighbors. by rewrite Hsqs, Hcard. }
  rewrite (legal_to_place_clear b piece a [] card ∅) in Hlegal by done.
  rewrite elements_empty in Hlegal. simpl in Hlegal.
  rewrite andb_false_r in Hlegal. by destruct (bool_decide _).
Qed.

Lemma played_shapes_commit g (locs : list Point) (p q : Z) (k k' : ShapeKind) :
  Forall (λ rc, (0 ≤ fst rc ∧ 0 ≤ snd rc) ∧
                grid_get g (fst rc) (snd rc) = Ok None) locs →
  k' ∈ played_shapes (commit g locs (Some (p, k))) q ↔
  k' ∈ played_shapes g q ∨ (locs ≠ [] ∧ q = p ∧ k' = k).
Proof.
  intros Hfree.
  assert (Hnone : ∀ i j, (i, j) ∈ map nat_point locs → cell_at g i j = Some None).
  { intros i j Hij. apply list_elem_of_fmap in Hij as ([r c] & Heq & Hrc).
    rewrite list.Forall_forall in Hfree. destruct (Hfree _ Hrc) as [[Hr Hc] Hget].
    simpl in *. injection Heq as -> ->. by apply grid_get_cell_at. }
  rewrite !elem_of_played_shapes. split.
  - intros (i & j & Hcell). rewrite cell_at_commit in Hcell.
    destruct (decide ((i, j) ∈ map nat_point locs)) as [Hij|Hij].
    + right. rewrite (Hnone _ _ Hij) in Hcell. simpl in Hcell.
      injection Hcell as -> ->. split; [|done]. intros ->.
      by apply elem_of_nil in Hij.
    + left. eauto.
  - intros [(i & j & Hcell)|(Hne & -> & ->)].
    + exists i, j. rewrite cell_at_commit.
      destruct (decide ((i, j) ∈ map nat_point locs)) as [Hij|Hij]; [|done].
      rewrite (Hnone _ _ Hij) in Hcell. done.
    + destruct locs as [|rc locs]; [done|].
      exists (Z.to_nat (fst rc)), (Z.to_nat (snd rc)).
      assert (Hij : (Z.to_nat (fst rc), Z.to_nat (snd rc))
                      ∈ map nat_point (rc :: locs)).
      { simpl. apply elem_of_cons. by left. }
      rewrite cell_at_commit, decide_True by done.
      by rewrite (Hnone _ _ Hij).
Qed.

Lemma free_squares_nonneg b (sqs : list Point) :
  Forall (in_board b) sqs →
  Forall (λ rc, grid_get (_grid b) (fst rc) (snd rc) = Ok None) sqs →
  Forall (λ rc, (0 ≤ fst rc ∧ 0 ≤ snd rc) ∧
                grid_get (_grid b) (fst rc) (snd rc) = Ok None) sqs.
Proof.
  rewrite !list.Forall_forall. intros Hin Hfree rc Hrc.
  destruct (Hin _ Hrc) as [? ?]. split; [lia|]. by apply Hfree.
Qed.

(** What a successful placement does to each player's remaining shapes. *)
Lemma remaining_shapes_placed b piece b' (q : Z) :
  wf b → maybe_place definitions b piece = Ok (true, b') →
  remaining_shapes definitions b' q =
    if decide (q = _curr_player b)
    then filter (λ sk, sk ≠ kind (shape piece))
                (remaining_shapes definitions b q)
    else remaining_shapes definitions b q.
Proof.
  intros Hwf Hplace.
  destruct (maybe_place_true _ _ _ Hplace)
    as (sqs & c & Hret & Hlegal & Hk & Hsqs & Hadv & ->).
  destruct (legal_true_squares _ _ Hwf Hlegal)
    as (sqs' & Hsqs' & Hne & Hin & Hfree).
  rewrite Hsqs in Hsqs'. injection Hsqs' as <-.
  pose proof (free_squares_nonneg _ _ Hin Hfree) as Hfree'.
  unfold remaining_shapes at 1. simpl.
  destruct (decide (q = _curr_player b)) as [->|Hq].
  - unfold remaining_shapes. rewrite list_filter_filter.
    apply list_filter_iff. intros sk.
    rewrite played_shapes_commit by done.
    destruct (decide (sk = kind (shape piece))); intuition congruence.
  - apply list_filter_iff. intros sk.
    rewrite played_shapes_commit by done. intuition congruence.
Qed.

(** ** The turn pointer *)

Lemma next_player_eq b (c : Z) :
  1 ≤ c ≤ _num_players b →
  next_player b c = if decide (c < _num_players b) then c + 1 else 1.
Proof.
  intros Hc. unfold next_player. destruct (decide _) as [Hlt|Hge].
  - by rewrite Z.mod_small by lia.
  - assert (c = _num_players b) as -> by lia.
    by rewrite Z.mod_same by lia.
Qed.

Lemma next_player_range b (c : Z) :
  1 ≤ _num_players b → 1 ≤ next_player b c ≤ _num_players b.
Proof.
  intros Hn. unfold next_player.
  pose proof (Z.mod_pos_bound c (_num_players b)). lia.
Qed.

Lemma skip_retired_range (fuel : nat) b (retired : gset Z) (c c' : Z) :
  1 ≤ c ≤ _num_players b →
  skip_retired fuel b retired c = Ok c' →
  1 ≤ c' ≤ _num_players b ∧ c' ∉ retired.
Proof.
  revert c. induction fuel as [|fuel IH]; intros c Hc; simpl; [done|].
  case_bool_decide as Hin.
  - apply IH, next_player_range. lia.
  - by intros [= <-].
Qed.

Lemma advance_range b (retired : gset Z) (c c' : Z) :
  1 ≤ c ≤ _num_players b →
  advance b retired c = Ok c' →
  1 ≤ c' ≤ _num_players b ∧
  (Z.of_nat (size retired) ≠ _num_players b → c' ∉ retired).
Proof.
  intros Hc. unfold advance. case_bool_decide as Hsize.
  - intros H. by destruct (skip_retired_range _ _ _ _ _ Hc H).
  - intros [= <-]. split; [apply next_player_range; lia|done].
Qed.

(** The distance from [c] to [q] along the cycle [1, 2, .., n, 1, ..]. *)
Lemma skip_retired_fuel (fuel : nat) b (retired : gset Z) (c q : Z) :
  1 ≤ c ≤ _num_players b → 1 ≤ q ≤ _num_players b → q ∉ retired →
  (if decide (c ≤ q) then q - c else q - c + _num_players b)
    < Z.of_nat fuel →
  ∃ c', skip_retired fuel b retired c = Ok c'.
Proof.
  revert c. induction fuel as [|fuel IH]; intros c Hc Hq Hnot Hdist; simpl.
  - destruct (decide (c ≤ q)); lia.
  - case_bool_decide as Hin; [|eauto].
    assert (c ≠ q) by (by intros ->).
    apply IH; [apply next_player_range; lia|done..|].
    rewrite next_player_eq by done.
    repeat destruct (decide _); lia.
Qed.

Lemma all_retired b :
  wf b → Z.of_nat (size (_retired_players b)) = _num_players b →
  ∀ p, 1 ≤ p ≤ _num_players b → p ∈ _retired_players b.
Proof.
  intros Hwf Hsize p Hp.
  destruct (decide (p ∈ _retired_players b)) as [|Hnot]; [done|].
  apply elem_of_players in Hp.
  pose proof (length_filter_lt (λ p, p ∈ _retired_players b) _ _ Hp Hnot) as Hlt.
  rewrite (length_filter_retired b Hwf) in Hlt.
  pose proof (length_players b). pose proof (wf_players _ Hwf). lia.
Qed.

Lemma some_active b :
  wf b → Z.of_nat (size (_retired_players b)) ≠ _num_players b →
  ∃ q, 1 ≤ q ≤ _num_players b ∧ q ∉ _retired_players b.
Proof.
  intros Hwf Hsize.
  destruct (decide (Forall (λ p, p ∈ _retired_players b) (players b)))
    as [Hall|Hsome].
  - destruct Hsize. rewrite <- (length_filter_retired b Hwf).
    pose proof (wf_players _ Hwf).
    rewrite <- (length_players b) by lia. f_equal.
    clear -Hall. induction Hall as [|x l Hx _ IH]; [done|].
    rewrite filter_cons_True by done. simpl. by rewrite IH.
  - apply not_Forall_Exists in Hsome; [|apply _].
    apply list.Exists_exists in Hsome as (q & Hq & Hnot).
    exists q. split; [by apply elem_of_players|done].
Qed.

(** The turn advancement ends, and on a player number. *)
Lemma advance_total b (retired : gset Z) (c : Z) :
  1 ≤ c ≤ _num_players b →
  (Z.of_nat (size retired) ≠ _num_players b →
   ∃ q, 1 ≤ q ≤ _num_players b ∧ q ∉ retired) →
  ∃ c', advance b retired c = Ok c'.
Proof.
  intros Hc Hactive. unfold advance. case_bool_decide as Hsize; [|eauto].
  destruct (Hactive Hsize) as (q & Hq & Hnot).
  apply (skip_retired_fuel _ _ _ _ q); [done..|].
  destruct (decide _); lia.
Qed.

(** The fuel of [advance] is exact: when it runs out, the loop test holds
    of the start and of every player number, so the loop of the source
    never exits either. *)
Lemma skip_retired_diverges b (retired : gset Z) (c : Z) :
  1 ≤ _num_players b →
  skip_retired (S (Z.to_nat (_num_players b))) b retired c = Diverge →
  c ∈ retired ∧ ∀ q, 1 ≤ q ≤ _num_players b → q ∈ retired.
Proof.
  intros Hn. simpl. case_bool_decide as Hc; [|done]. intros Hdiv.
  split; [done|]. intros q Hq.
  destruct (decide (q ∈ retired)) as [|Hnot]; [done|].
  destruct (skip_retired_fuel (Z.to_nat (_num_players b)) b retired
              (next_player b c) q) as [c' Hc']; [|done..| |congruence].
  - by apply next_player_range.
  - pose proof (next_player_range b c Hn). destruct (decide _); lia.
Qed.

(** ** Well-formedness is kept *)

Lemma commit_rows g (locs : list Point) (v : Cell ShapeKind) :
  length (commit g locs v) = length g.
Proof.
  unfold commit. revert g. induction locs as [|rc locs IH]; intros g; simpl;
    [done|].
  rewrite IH. unfold grid_set. apply length_alter.
Qed.

Lemma commit_cols g (locs : list Point) (v : Cell ShapeKind) (n : nat) :
  Forall (λ line, length line = n) g →
  Forall (λ line, length line = n) (commit g locs v).
Proof.
  unfold commit. revert g. induction locs as [|rc locs IH]; intros g Hg; simpl;
    [done|].
  apply IH. unfold grid_set. apply Forall_alter; [done|].
  intros line _ Hline. by rewrite length_insert.
Qed.

Lemma empty_grid_rows (n : Z) :
  length (empty_grid (ShapeKind := ShapeKind) n) = Z.to_nat n.
Proof. unfold empty_grid. apply length_replicate. Qed.

Lemma empty_grid_cols (n : Z) :
  Forall (λ line, length line = Z.to_nat n)
         (empty_grid (ShapeKind := ShapeKind) n).
Proof.
  unfold empty_grid. apply Forall_replicate, length_replicate.
Qed.

Lemma played_shapes_empty_grid (n p : Z) :
  played_shapes (ShapeKind := ShapeKind) (empty_grid n) p = [].
Proof.
  unfold empty_grid, played_shapes.
  induction (Z.to_nat n) as [|k IH] at 1; simpl; [done|].
  rewrite IH, app_nil_r. clear.
  induction (Z.to_nat n) as [|m IH]; simpl; [done|]. exact IH.
Qed.

Lemma wf_new_game (num_players board_size : Z) (starts : gset Point) b :
  new_game num_players board_size starts = Ok b → wf b.
Proof.
  unfold new_game. repeat (case_bool_decide; [done|]).
  destruct (existsb _ _); [done|].
  case_bool_decide; [done|]. intros [= <-].
  constructor; simpl; [lia|apply empty_grid_rows|apply empty_grid_cols| |lia].
  by intros p ?%elem_of_empty.
Qed.

Lemma wf_reset b : wf b → wf (reset b).
Proof.
  intros [Hn _ _ _ _].
  constructor; simpl; [lia|apply empty_grid_rows|apply empty_grid_cols| |lia].
  by intros p ?%elem_of_empty.
Qed.

Lemma wf_maybe_place b piece (ok : bool) b' :
  wf b → maybe_place definitions b piece = Ok (ok, b') → wf b'.
Proof.
  intros Hwf Hplace. destruct ok;
    [|by rewrite (maybe_place_false _ _ _ Hplace)].
  destruct (maybe_place_true _ _ _ Hplace)
    as (sqs & c & _ & _ & _ & _ & Hadv & ->).
  destruct Hwf as [Hn Hrows Hcols Hret Hcurr].
  apply advance_range in Hadv as [Hc _]; [|by apply next_player_range].
  constructor; simpl; [done| | |done..].
  - by rewrite commit_rows.
  - by apply commit_cols.
Qed.

Lemma wf_retire b b' : wf b → retire b = Ok b' → wf b'.
Proof.
  intros [Hn Hrows Hcols Hret Hcurr]. unfold retire.
  destruct (advance _ _ _) as [c| |] eqn:Hadv; simpl; [|done..].
  intros [= <-]. apply advance_range in Hadv as [Hc _]; [|done].
  constructor; simpl; try done.
  intros p. case_bool_decide; [|by apply Hret].
  intros [?| ->%elem_of_singleton]%elem_of_union; [by apply Hret|done].
Qed.

Lemma wf_play_step b b' : wf b → play_step definitions b b' → wf b'.
Proof.
  intros Hwf [piece ok b'' Hplace|b'' Hretire].
  - by eapply wf_maybe_place.
  - by eapply wf_retire.
Qed.

(** ** Remaining shapes only shrink during play *)

Lemma remaining_shapes_grid b b' (p : Z) :
  _grid b' = _grid b →
  remaining_shapes definitions b' p = remaining_shapes definitions b p.
Proof. intros Hg. unfold remaining_shapes. by rewrite Hg. Qed.

Lemma retire_grid b b' : retire b = Ok b' → _grid b' = _grid b.
Proof.
  unfold retire. destruct (advance _ _ _); simpl; [|done..]. by intros [= <-].
Qed.

Lemma remaining_shapes_step b b' (q : Z) (k : ShapeKind) :
  wf b → play_step definitions b b' →
  k ∈ remaining_shapes definitions b' q → k ∈ remaining_shapes definitions b q.
Proof.
  intros Hwf [piece [|] b'' Hplace|b'' Hretire].
  - rewrite (remaining_shapes_placed _ _ _ _ Hwf Hplace).
    destruct (decide _); [|done]. by intros [_ ?]%list_elem_of_filter.
  - by rewrite (maybe_place_false _ _ _ Hplace).
  - by rewrite (remaining_shapes_grid _ _ _ (retire_grid _ _ Hretire)).
Qed.

Lemma length_filter_ne (l : list ShapeKind) (k : ShapeKind) :
  NoDup l → k ∈ l →
  (length (filter (λ sk, sk ≠ k) l) + 1 = length l)%nat.
Proof.
  induction 1 as [|x l Hx Hl IH]; intros Hk; [by apply elem_of_nil in Hk|].
  rewrite filter_cons. destruct (decide (x ≠ k)) as [Hne|Heq]; simpl.
  - apply elem_of_cons in Hk as [->|Hk]; [done|]. by rewrite IH.
  - apply dec_stable in Heq as ->. f_equal.
    rewrite Nat.add_1_r. f_equal.
    clear -Hx. induction l as [|y l IH]; [done|].
    apply not_elem_of_cons in Hx as [Hne Hx].
    rewrite filter_cons_True by done. simpl. by rewrite IH.
Qed.

(** [NoDup (shapes_keys definitions)] says that [definitions] is a dict:
    every key occurs once. *)
Lemma NoDup_remaining_shapes b (p : Z) :
  NoDup (shapes_keys definitions) → NoDup (remaining_shapes definitions b p).
Proof. intros Hkeys. by apply list.NoDup_filter. Qed.

Lemma remaining_shapes_placed_length b piece b' :
  NoDup (shapes_keys definitions) → wf b →
  maybe_place definitions b piece = Ok (true, b') →
  (length (remaining_shapes definitions b' (_curr_player b)) + 1 =
   length (remaining_shapes definitions b (_curr_player b)))%nat.
Proof.
  intros Hkeys Hwf Hplace.
  destruct (maybe_place_true _ _ _ Hplace) as (_ & _ & _ & _ & Hk & _).
  rewrite (remaining_shapes_placed _ _ _ (_curr_player b) Hwf Hplace).
  rewrite decide_True by done. apply length_filter_ne; [|done].
  by apply NoDup_remaining_shapes.
Qed.

(** C9, as the code has it.  A successful [maybe_place] by the current
    player removes the placed kind, and nothing else, from that player's
    remaining shapes, which get shorter by one, and leaves the other
    players' remaining shapes as they were; along any sequence of
    [maybe_place] and [retire] calls no player gets a kind back.  ([reset]
    is left out: it empties the grid.) *)
Theorem remaining_shapes_shrinks b :
  NoDup (shapes_keys definitions) → wf b →
  (∀ piece b', maybe_place definitions b piece = Ok (true, b') →
     kind (shape piece) ∈ remaining_shapes definitions b (_curr_player b) ∧
     remaining_shapes definitions b' (_curr_player b) =
       filter (λ sk, sk ≠ kind (shape piece))
              (remaining_shapes definitions b (_curr_player b)) ∧
     (length (remaining_shapes definitions b' (_curr_player b)) + 1 =
      length (remaining_shapes definitions b (_curr_player b)))%nat ∧
     ∀ q, q ≠ _curr_player b →
          remaining_shapes definitions b' q = remaining_shapes definitions b q) ∧
  (∀ b', rtc (play_step definitions) b b' →
     ∀ q k, k ∈ remaining_shapes definitions b' q →
            k ∈ remaining_shapes definitions b q).
Proof.
  intros Hkeys Hwf. split.
  - intros piece b' Hplace.
    destruct (maybe_place_true _ _ _ Hplace) as (_ & _ & _ & _ & Hk & _).
    pose proof (remaining_shapes_placed _ _ _ (_curr_player b) Hwf Hplace) as Hcur.
    rewrite decide_True in Hcur by done.
    repeat split; [done..| |].
    + by eapply remaining_shapes_placed_length.
    + intros q Hq. rewrite (remaining_shapes_placed _ _ _ q Hwf Hplace).
      by rewrite decide_False.
  - intros b' Hsteps. induction Hsteps as [b|b b1 b2 Hstep _ IH];
      intros q k Hk; [done|].
    eapply remaining_shapes_step; [done..|].
    apply IH; [|done]. by eapply wf_play_step.
Qed.

(** ** The turn order *)

Lemma turn_order_same_grid b b' (retired : gset Z) (c : Z) :
  _grid b' = _grid b → _num_players b' = _num_players b →
  turn_order definitions b retired c → turn_order definitions b' retired c.
Proof.
  intros Hg Hn [r Hr]. exists r. intros p Hp Hact.
  rewrite (remaining_shapes_grid _ _ _ Hg). apply Hr; [|done]. by rewrite <- Hn.
Qed.

Lemma turn_order_skip b (retired : gset Z) (c : Z) :
  c ∈ retired →
  turn_order definitions b retired c → turn_order definitions b retired (c + 1).
Proof.
  intros Hc [r Hr]. exists r. intros p Hp Hact.
  rewrite <- (Hr p Hp Hact). assert (p ≠ c) by (by intros ->).
  repeat case_bool_decide; lia.
Qed.

Lemma turn_order_next b (retired : gset Z) (c : Z) :
  1 ≤ c ≤ _num_players b →
  turn_order definitions b retired (c + 1) →
  turn_order definitions b retired (next_player b c).
Proof.
  intros Hc [r Hr]. rewrite next_player_eq by done.
  destruct (decide _) as [|Hlast]; [by exists r|].
  exists (r - 1). intros p Hp Hact. rewrite <- (Hr p Hp Hact).
  repeat case_bool_decide; lia.
Qed.

Lemma turn_order_retire b (retired : gset Z) (c q : Z) :
  turn_order definitions b retired c →
  turn_order definitions b (retired ∪ {[ q ]}) c.
Proof.
  intros [r Hr]. exists r. intros p Hp Hact. apply Hr; [done|].
  intros ?. apply Hact, elem_of_union. by left.
Qed.

Lemma turn_order_all_retired b (retired : gset Z) (c : Z) :
  (∀ p, 1 ≤ p ≤ _num_players b → p ∈ retired) →
  turn_order definitions b retired c.
Proof. intros Hall. exists 0. intros p Hp Hact. destruct Hact. auto. Qed.

Lemma turn_order_skip_retired (fuel : nat) b (retired : gset Z) (c c' : Z) :
  1 ≤ c ≤ _num_players b →
  skip_retired fuel b retired c = Ok c' →
  turn_order definitions b retired c → turn_order definitions b retired c'.
Proof.
  revert c. induction fuel as [|fuel IH]; intros c Hc; simpl; [done|].
  case_bool_decide as Hin; [|by intros [= <-]].
  intros Hskip Hturn. eapply IH; [|done|].
  - apply next_player_range. lia.
  - by apply turn_order_next, turn_order_skip.
Qed.

Lemma turn_order_placed b piece b' :
  NoDup (shapes_keys definitions) → wf b →
  maybe_place definitions b piece = Ok (true, b') →
  turn_order definitions b (_retired_players b) (_curr_player b) →
  turn_order definitions b' (_retired_players b) (_curr_player b + 1).
Proof.
  intros Hkeys Hwf Hplace [r Hr].
  pose proof (remaining_shapes_placed_length _ _ _ Hkeys Hwf Hplace) as Hlen.
  assert (Hn : _num_players b' = _num_players b).
  { by destruct (maybe_place_true _ _ _ Hplace) as (? & ? & _ & _ & _ & _ & _ & ->). }
  exists r. intros p Hp Hact. rewrite Hn in Hp. rewrite <- (Hr p Hp Hact).
  destruct (decide (p = _curr_player b)) as [->|Hne].
  - repeat case_bool_decide; lia.
  - rewrite (remaining_shapes_placed _ _ _ p Hwf Hplace).
    rewrite decide_False by done. repeat case_bool_decide; lia.
Qed.

(** ** Invariants of the reachable states *)

Lemma remaining_shapes_empty_grid b (p : Z) :
  _grid b = empty_grid (_size b) →
  remaining_shapes definitions b p = shapes_keys definitions.
Proof.
  intros Hg. unfold remaining_shapes. rewrite Hg, played_shapes_empty_grid.
  induction (shapes_keys definitions) as [|k l IH]; [done|].
  rewrite filter_cons_True by (by intros ?%elem_of_nil). by rewrite IH.
Qed.

Lemma inv_fresh b :
  wf b → _grid b = empty_grid (_size b) → _retired_players b = ∅ →
  _curr_player b = 1 → inv definitions b.
Proof.
  intros Hwf Hg Hret Hcurr. constructor; [done|..].
  - intros _. rewrite Hret. apply not_elem_of_empty.
  - intros p. rewrite Hret. by intros ?%elem_of_empty.
Qed.

Lemma turn_order_fresh b :
  _grid b = empty_grid (_size b) → _curr_player b = 1 →
  turn_order definitions b (_retired_players b) (_curr_player b).
Proof.
  intros Hg Hcurr. exists (Z.of_nat (length (shapes_keys definitions))).
  intros p Hp _. rewrite remaining_shapes_empty_grid by done.
  rewrite Hcurr, bool_decide_eq_false_2 by lia. lia.
Qed.

Lemma new_game_fresh (num_players board_size : Z) (starts : gset Point) b :
  new_game num_players board_size starts = Ok b →
  _grid b = empty_grid (_size b) ∧ _retired_players b = ∅ ∧ _curr_player b = 1.
Proof.
  unfold new_game. repeat (case_bool_decide; [done|]).
  destruct (existsb _ _); [done|].
  case_bool_decide; [done|]. by intros [= <-].
Qed.

Lemma inv_maybe_place b piece (ok : bool) b' :
  inv definitions b → maybe_place definitions b piece = Ok (ok, b') → inv definitions b'.
Proof.
  intros Hinv Hplace. destruct ok;
    [|by rewrite (maybe_place_false _ _ _ Hplace)].
  pose proof (wf_maybe_place _ _ _ _ (inv_wf _ _ Hinv) Hplace) as Hwf'.
  pose proof (λ q, remaining_shapes_placed _ _ _ q (inv_wf _ _ Hinv) Hplace) as Hrem.
  destruct (maybe_place_true _ _ _ Hplace)
    as (sqs & c & Hcurr & _ & _ & _ & Hadv & ->).
  constructor; [done|simpl..].
  - apply advance_range in Hadv as [_ Hc]; [done|].
    apply next_player_range, wf_players, (inv_wf _ _ Hinv).
  - intros p Hp. rewrite Hrem. rewrite decide_False by (by intros ->).
    by apply (inv_retired _ _ Hinv).
Qed.

Lemma inv_retire b b' :
  inv definitions b → remaining_shapes definitions b (_curr_player b) ≠ [] →
  retire b = Ok b' → inv definitions b'.
Proof.
  intros Hinv Hrem Hretire.
  pose proof (wf_retire _ _ (inv_wf _ _ Hinv) Hretire) as Hwf'.
  pose proof (λ q, remaining_shapes_grid _ _ q (retire_grid _ _ Hretire)) as Hgrid.
  constructor; [done|..].
  - revert Hretire. unfold retire.
    destruct (advance _ _ _) as [c| |] eqn:Hadv; simpl; [|done..].
    intros [= <-]. simpl.
    apply advance_range in Hadv as [_ Hc]; [done|].
    apply wf_curr, (inv_wf _ _ Hinv).
  - intros p Hp. rewrite Hgrid. revert Hretire Hp. unfold retire.
    destruct (advance _ _ _) as [c| |]; simpl; [|done..].
    intros [= <-]. simpl. case_bool_decide; [|by apply (inv_retired _ _ Hinv)].
    intros [?| ->%elem_of_singleton]%elem_of_union; [|done].
    by apply (inv_retired _ _ Hinv).
Qed.

Lemma reachable_inv b : reachable definitions b → inv definitions b.
Proof.
  induction 1 as [n sz starts b Hnew|b piece ok b' _ IH Hplace
                 |b b' _ IH Hrem Hretire|b _ IH].
  - destruct (new_game_fresh _ _ _ _ Hnew) as (Hg & Hret & Hcurr).
    apply inv_fresh; [by eapply wf_new_game|done..].
  - by eapply inv_maybe_place.
  - by eapply inv_retire.
  - apply inv_fresh; [apply wf_reset, (inv_wf _ _ IH)|done..].
Qed.

Lemma turn_order_advance b b0 (retired : gset Z) (c c' : Z) :
  _num_players b0 = _num_players b →
  1 ≤ c ≤ _num_players b →
  (Z.of_nat (size retired) = _num_players b →
   ∀ p, 1 ≤ p ≤ _num_players b → p ∈ retired) →
  advance b retired c = Ok c' →
  turn_order definitions b0 retired c → turn_order definitions b0 retired c'.
Proof.
  intros Hn Hc Hall. unfold advance. case_bool_decide as Hsize.
  - assert (Hskip : ∀ fuel, skip_retired fuel b retired c
                            = skip_retired fuel b0 retired c).
    { intros fuel. revert c Hc. induction fuel as [|fuel IH]; intros c Hc;
        simpl; [done|].
      case_bool_decide; [|done]. unfold next_player. rewrite Hn.
      apply IH. pose proof (Z.mod_pos_bound c (_num_players b)). lia. }
    rewrite Hskip. apply turn_order_skip_retired. by rewrite Hn.
  - intros _ _. apply turn_order_all_retired. rewrite Hn. apply Hall. lia.
Qed.

Lemma reachable_turn_order b :
  NoDup (shapes_keys definitions) → reachable definitions b →
  turn_order definitions b (_retired_players b) (_curr_player b).
Proof.
  intros Hkeys.
  induction 1 as [n sz starts b Hnew|b piece ok b' Hreach IH Hplace
                 |b b' Hreach IH Hrem Hretire|b _ IH].
  - destruct (new_game_fresh _ _ _ _ Hnew) as (Hg & Hret & Hcurr).
    by apply turn_order_fresh.
  - destruct ok; [|by rewrite (maybe_place_false _ _ _ Hplace)].
    pose proof (reachable_inv _ Hreach) as Hinv.
    pose proof (inv_wf _ _ Hinv) as Hwf.
    pose proof (turn_order_placed _ _ _ Hkeys Hwf Hplace IH) as Hturn.
    destruct (maybe_place_true _ _ _ Hplace)
      as (sqs & c & Hcurr & _ & _ & _ & Hadv & Hb').
    rewrite Hb' in Hturn |- *. simpl.
    apply (turn_order_advance b _ (_retired_players b)
             (next_player b (_curr_player b)) c); [done| | |done|].
    + apply next_player_range, (wf_players _ Hwf).
    + by apply all_retired.
    + match goal with |- turn_order _ ?b1 _ _ =>
        change (next_player b (_curr_player b))
          with (next_player b1 (_curr_player b))
      end.
      apply turn_order_next; [apply (wf_curr _ Hwf)|done].
  - pose proof (reachable_inv _ Hreach) as Hinv.
    pose proof (inv_wf _ _ Hinv) as Hwf.
    revert Hretire. unfold retire.
    destruct (advance _ _ _) as [c| |] eqn:Hadv; simpl; [|done..].
    intros [= <-]. simpl.
    eapply (turn_order_advance b _ _ (_curr_player b) c);
      [done|apply (wf_curr _ Hwf)| |exact Hadv|].
    + case_bool_decide as Hin; [|by apply all_retired].
      intros Hsize p Hp.
      set (b1 := mkBlokus (_num_players b) (_size b) (_start_positions b)
                   (_retired_players b ∪ {[ _curr_player b ]}) (_curr_player b)
                   (_grid b) (_num_moves b) (_played_pieces b)).
      apply (all_retired b1); [|done..].
      destruct Hwf as [? ? ? Hret Hcurr]. constructor; simpl; try done.
      intros q [?| ->%elem_of_singleton]%elem_of_union; [by apply Hret|done].
    + eapply turn_order_same_grid; [done..|].
      case_bool_decide; [by apply turn_order_retire|done].
  - by apply turn_order_fresh.
Qed.

(** ** Termination of the game *)

Lemma game_over_iff b :
  inv definitions b →
  game_over definitions b = true ↔
  ∀ p, 1 ≤ p ≤ _num_players b → retired_or_exhausted definitions b p.
Proof.
  intros [Hwf Hact Hret]. unfold game_over, retired_or_exhausted.
  case_bool_decide as Hall.
  { split; [|done]. intros _ p Hp. left. by apply all_retired. }
  destruct (bool_decide (size _ = 1%nat ∧ _) && _) eqn:Htwo.
  { split; [|done]. intros _ p Hp.
    apply andb_true_iff in Htwo as [[Hone Hn]%bool_decide_eq_true
                                    Hlen%bool_decide_eq_true].
    apply nil_length_inv in Hlen.
    destruct (decide (p = _curr_player b)) as [->|Hp']; [by right|left].
    apply size_1_elem_of in Hone as [x Hx].
    assert (Hxin : x ∈ _retired_players b) by (rewrite Hx; set_solver).
    pose proof (wf_retired _ Hwf x Hxin). pose proof (wf_curr _ Hwf).
    assert (x ≠ _curr_player b) by (intros ->; by apply Hact).
    by assert (p = x) as -> by lia. }
  rewrite bool_decide_eq_true.
  pose proof (length_filter_split
    (λ num, length (remaining_shapes definitions b num) = 0%nat)
    (λ p, p ∈ _retired_players b) (players b)) as [_ Hsplit].
  { intros p _ [Hlen Hp]. apply nil_length_inv in Hlen. by apply (Hret p). }
  rewrite (length_filter_retired b Hwf) in Hsplit.
  pose proof (length_players b). pose proof (wf_players _ Hwf).
  split.
  - intros Hsum p Hp. destruct Hsplit as [Hsplit _].
    destruct (Hsplit ltac:(lia) p) as [Hlen|Hin];
      [by apply elem_of_players|right; by apply nil_length_inv|by left].
  - intros Hdone. destruct Hsplit as [_ Hsplit].
    cut (length (filter (λ num, length (remaining_shapes definitions b num)
                                = 0%nat) (players b))
         + size (_retired_players b) = length (players b))%nat; [lia|].
    apply Hsplit. intros p Hp%elem_of_players.
    destruct (Hdone p Hp) as [Hin|Hnil]; [by right|left]. by rewrite Hnil.
Qed.

Lemma curr_player_in_play b :
  inv definitions b →
  turn_order definitions b (_retired_players b) (_curr_player b) →
  game_over definitions b = false →
  (_curr_player b ∉ _retired_players b) ∧
  remaining_shapes definitions b (_curr_player b) ≠ [].
Proof.
  intros Hinv [r Hr] Hover.
  pose proof (inv_wf _ _ Hinv) as Hwf.
  assert (Hact : _curr_player b ∉ _retired_players b).
  { apply (inv_active _ _ Hinv). intros Hall.
    unfold game_over in Hover. by rewrite bool_decide_eq_true_2 in Hover. }
  split; [done|]. intros Hnil.
  apply not_true_iff_false in Hover. apply Hover, game_over_iff; [done|].
  intros p Hp. destruct (decide (p ∈ _retired_players b)) as [|Hp']; [by left|].
  right. apply nil_length_inv.
  pose proof (Hr p Hp Hp') as Hrp.
  pose proof (Hr _ (wf_curr _ Hwf) Hact) as Hrc.
  rewrite Hnil, bool_decide_eq_false_2 in Hrc by lia. simpl in Hrc.
  case_bool_decide; lia.
Qed.

(** The turn advancement of a call on a reachable state comes to an end. *)
Lemma retire_total b : wf b → ∃ b', retire b = Ok b'.
Proof.
  intros Hwf. unfold retire.
  set (retired' := if bool_decide _ then _ else _).
  destruct (advance_total b retired' (_curr_player b)) as [c Hc].
  - apply (wf_curr _ Hwf).
  - intros Hsize.
    set (b1 := mkBlokus (_num_players b) (_size b) (_start_positions b)
                 retired' (_curr_player b) (_grid b) (_num_moves b)
                 (_played_pieces b)).
    apply (some_active b1); [|done].
    destruct Hwf as [? ? ? Hret Hcurr]. constructor; simpl; try done.
    intros q. unfold retired'. case_bool_decide; [|by apply Hret].
    intros [?| ->%elem_of_singleton]%elem_of_union; [by apply Hret|done].
  - rewrite Hc. simpl. eauto.
Qed.

Lemma maybe_place_total b piece :
  wf b → maybe_place definitions b piece ≠ Diverge.
Proof.
  intros Hwf. unfold maybe_place. case_bool_decide as Hret; [done|].
  destruct (decide (kind (shape piece)
              ∈ remaining_shapes definitions b (_curr_player b))) as [Hk|Hk];
    [|by rewrite legal_to_place_played].
  destruct (anchor piece) as [a|] eqn:Ha;
    [|by rewrite legal_to_place_unanchored].
  destruct (legal_to_place_returns b piece Hwf Hk) as (v & -> & _);
    [by rewrite Ha|].
  simpl. destruct v; simpl; [|done].
  rewrite bool_decide_eq_false_2 by (by intros []).
  rewrite (piece_squares_anchored _ _ Ha). simpl.
  destruct (advance_total b (_retired_players b)
              (next_player b (_curr_player b))) as [c ->]; [| |done].
  - apply next_player_range, (wf_players _ Hwf).
  - intros Hsize. by apply some_active.
Qed.

(** ** The pointer, whatever the calls *)

Lemma reachable_calls b :
  reachable definitions b → reachable_by_calls definitions b.
Proof.
  induction 1 as [n sz starts b Hnew|b piece ok b' _ IH Hplace
                 |b b' _ IH _ Hretire|b _ IH].
  - by eapply calls_init.
  - by eapply calls_place.
  - by eapply calls_retire.
  - by apply calls_reset.
Qed.

Lemma calls_pointer b :
  reachable_by_calls definitions b →
  wf b ∧ (Z.of_nat (size (_retired_players b)) ≠ _num_players b →
          _curr_player b ∉ _retired_players b).
Proof.
  induction 1 as [n sz starts b Hnew|b piece ok b' _ [Hwf IH] Hplace
                 |b b' _ [Hwf IH] Hretire|b _ [Hwf IH]].
  - destruct (new_game_fresh _ _ _ _ Hnew) as (_ & Hret & _).
    split; [by eapply wf_new_game|]. intros _. rewrite Hret.
    apply not_elem_of_empty.
  - destruct ok; [|by rewrite (maybe_place_false _ _ _ Hplace)].
    split; [by eapply wf_maybe_place|].
    destruct (maybe_place_true _ _ _ Hplace)
      as (sqs & c & _ & _ & _ & _ & Hadv & ->). simpl.
    apply advance_range in Hadv as [_ Hc]; [done|].
    apply next_player_range, (wf_players _ Hwf).
  - split; [by eapply wf_retire|].
    revert Hretire. unfold retire.
    destruct (advance _ _ _) as [c| |] eqn:Hadv; simpl; [|done..].
    intros [= <-]. simpl.
    apply advance_range in Hadv as [_ Hc]; [done|].
    apply (wf_curr _ Hwf).
  - split; [by apply wf_reset|]. intros _. simpl. apply not_elem_of_empty.
Qed.

Lemma calls_turn_order b :
  NoDup (shapes_keys definitions) → reachable_by_calls definitions b →
  turn_order definitions b (_retired_players b) (_curr_player b).
Proof.
  intros Hkeys.
  induction 1 as [n sz starts b Hnew|b piece ok b' Hreach IH Hplace
                 |b b' Hreach IH Hretire|b _ IH].
  - destruct (new_game_fresh _ _ _ _ Hnew) as (Hg & Hret & Hcurr).
    by apply turn_order_fresh.
  - destruct ok; [|by rewrite (maybe_place_false _ _ _ Hplace)].
    destruct (calls_pointer _ Hreach) as [Hwf _].
    pose proof (turn_order_placed _ _ _ Hkeys Hwf Hplace IH) as Hturn.
    destruct (maybe_place_true _ _ _ Hplace)
      as (sqs & c & Hcurr & _ & _ & _ & Hadv & Hb').
    rewrite Hb' in Hturn |- *. simpl.
    apply (turn_order_advance b _ (_retired_players b)
             (next_player b (_curr_player b)) c); [done| | |done|].
    + apply next_player_range, (wf_players _ Hwf).
    + by apply all_retired.
    + match goal with |- turn_order _ ?b1 _ _ =>
        change (next_player b (_curr_player b))
          with (next_player b1 (_curr_player b))
      end.
      apply turn_order_next; [apply (wf_curr _ Hwf)|done].
  - destruct (calls_pointer _ Hreach) as [Hwf _].
    revert Hretire. unfold retire.
    destruct (advance _ _ _) as [c| |] eqn:Hadv; simpl; [|done..].
    intros [= <-]. simpl.
    eapply (turn_order_advance b _ _ (_curr_player b) c);
      [done|apply (wf_curr _ Hwf)| |exact Hadv|].
    + case_bool_decide as Hin; [|by apply all_retired].
      intros Hsize p Hp.
      set (b1 := mkBlokus (_num_players b) (_size b) (_start_positions b)
                   (_retired_players b ∪ {[ _curr_player b ]}) (_curr_player b)
                   (_grid b) (_num_moves b) (_played_pieces b)).
      apply (all_retired b1); [|done..].
      destruct Hwf as [? ? ? Hret Hcurr]. constructor; simpl; try done.
      intros q [?| ->%elem_of_singleton]%elem_of_union; [by apply Hret|done].
    + eapply turn_order_same_grid; [done..|].
      case_bool_decide; [by apply turn_order_retire|done].
  - by apply turn_order_fresh.
Qed.

Lemma calls_in_play b (p : Z) :
  NoDup (shapes_keys definitions) → reachable_by_calls definitions b →
  1 ≤ p ≤ _num_players b → in_play definitions b p →
  in_play definitions b (_curr_player b).
Proof.
  intros Hkeys Hcalls Hp [Hpact Hprem].
  destruct (calls_pointer _ Hcalls) as [Hwf Hpointer].
  destruct (calls_turn_order b Hkeys Hcalls) as [r Hr].
  assert (Hact : _curr_player b ∉ _retired_players b).
  { apply Hpointer. intros Hsize. by apply Hpact, all_retired. }
  split; [done|]. intros Hnil.
  pose proof (Hr p Hp Hpact) as Hrp.
  pose proof (Hr _ (wf_curr _ Hwf) Hact) as Hrc.
  rewrite Hnil, bool_decide_eq_false_2 in Hrc by lia. simpl in Hrc.
  destruct (remaining_shapes definitions b p); [done|].
  simpl in Hrp. case_bool_decide; lia.
Qed.

(** C1. In every state that calls of [maybe_place], [retire] and [reset]
    bring about, the current player is a player number, and when some
    player is neither retired nor out of shapes the current player is such
    a player.  This holds in particular of the state in which [maybe_place]
    or [retire] leaves the game, and both calls do come back from their
    turn advancement.  Where [retire] has only been called for a player
    with a shape left, as its docstring says, [game_over] is false exactly
    when some player is neither retired nor out of shapes, so the current
    player is such a player whenever [game_over] is false. *)
Theorem curr_player_active b :
  NoDup (shapes_keys definitions) → reachable_by_calls definitions b →
  1 ≤ _curr_player b ≤ _num_players b ∧
  ((∃ p, 1 ≤ p ≤ _num_players b ∧ in_play definitions b p) →
   in_play definitions b (_curr_player b)) ∧
  (∀ piece (ok : bool) b',
     maybe_place definitions b piece = Ok (ok, b') →
     1 ≤ _curr_player b' ≤ _num_players b' ∧
     ((∃ p, 1 ≤ p ≤ _num_players b' ∧ in_play definitions b' p) →
      in_play definitions b' (_curr_player b'))) ∧
  (∃ b', retire b = Ok b' ∧
     1 ≤ _curr_player b' ≤ _num_players b' ∧
     ((∃ p, 1 ≤ p ≤ _num_players b' ∧ in_play definitions b' p) →
      in_play definitions b' (_curr_player b'))) ∧
  (∀ piece, maybe_place definitions b piece ≠ Diverge) ∧
  (reachable definitions b →
   (game_over definitions b = false ↔
    ∃ p, 1 ≤ p ≤ _num_players b ∧ in_play definitions b p) ∧
   (game_over definitions b = false →
    in_play definitions b (_curr_player b))).
Proof.
  intros Hkeys Hcalls.
  assert (Hgen : ∀ b0, reachable_by_calls definitions b0 →
            1 ≤ _curr_player b0 ≤ _num_players b0 ∧
            ((∃ p, 1 ≤ p ≤ _num_players b0 ∧ in_play definitions b0 p) →
             in_play definitions b0 (_curr_player b0))).
  { intros b0 Hb0. destruct (calls_pointer _ Hb0) as [Hwf0 _].
    split; [apply (wf_curr _ Hwf0)|].
    intros (p & Hp & Hin). by apply (calls_in_play b0 p). }
  destruct (calls_pointer _ Hcalls) as [Hwf _].
  split; [apply (Hgen b Hcalls)|]. split; [apply (Hgen b Hcalls)|].
  split; [|split; [|split]].
  - intros piece ok b' Hplace. apply Hgen. by eapply calls_place.
  - destruct (retire_total b Hwf) as [b' Hretire].
    exists b'. split; [done|]. apply Hgen. by eapply calls_retire.
  - intros piece. by apply maybe_place_total.
  - intros Hreach. pose proof (reachable_inv _ Hreach) as Hinv.
    assert (Hin : game_over definitions b = false →
                  in_play definitions b (_curr_player b)).
    { intros Hover.
      apply curr_player_in_play; [done|by apply reachable_turn_order|done]. }
    split; [|done]. split.
    + intros Hover. exists (_curr_player b).
      split; [apply (wf_curr _ Hwf)|by apply Hin].
    + intros (p & Hp & Hpact & Hprem). apply not_true_is_false.
      intros Hover. by destruct (proj1 (game_over_iff b Hinv) Hover p Hp).
Qed.

(** Where [retire] has only been called as its docstring says,
    [game_over] is true exactly when every player is retired or has no
    shape left, whatever the number of players.  The branch for two
    players, one of them retired and the current one out of shapes,
    answers true in states where the general rule says so too. *)
Theorem game_over_spec b :
  reachable definitions b →
  (game_over definitions b = true ↔
   ∀ p, 1 ≤ p ≤ _num_players b → retired_or_exhausted definitions b p) ∧
  (_num_players b = 2 → size (_retired_players b) = 1%nat →
   remaining_shapes definitions b (_curr_player b) = [] →
   game_over definitions b = true ∧
   ∀ p, 1 ≤ p ≤ _num_players b → retired_or_exhausted definitions b p).
Proof.
  intros Hreach. pose proof (reachable_inv _ Hreach) as Hinv.
  pose proof (game_over_iff b Hinv) as Hiff.
  split; [done|]. intros Hn Hone Hnil.
  assert (Hover : game_over definitions b = true).
  { unfold game_over. case_bool_decide; [done|].
    rewrite bool_decide_eq_true_2 by done.
    by rewrite Hnil, bool_decide_eq_true_2. }
  split; [done|]. by apply Hiff.
Qed.

(** [game_over] adds the number of retired players to the number of
    players without a shape left, so a player who is both is counted
    twice: with such a player the sum passes the number of players when
    every player is retired or out of shapes, and the answer is false.
    Only the first two tests can still answer true. *)
Lemma length_filter_cover (P Q : Z → Prop)
    `{!∀ x, Decision (P x)} `{!∀ x, Decision (Q x)} (l : list Z) :
  (∀ x, x ∈ l → P x ∨ Q x) →
  (length l ≤ length (filter P l) + length (filter Q l))%nat.
Proof.
  induction l as [|x l IH]; intros Hall; [done|].
  assert (IH' : (length l ≤ length (filter P l) + length (filter Q l))%nat).
  { apply IH. intros y Hy. apply Hall, elem_of_cons. by right. }
  assert (Hx : P x ∨ Q x) by (apply Hall, elem_of_cons; by left).
  destruct (decide (P x)), (decide (Q x));
    rewrite ?(filter_cons_True P), ?(filter_cons_False P),
            ?(filter_cons_True Q), ?(filter_cons_False Q) by done;
    simpl; try lia.
  by destruct Hx.
Qed.

Lemma length_filter_overlap (P Q : Z → Prop)
    `{!∀ x, Decision (P x)} `{!∀ x, Decision (Q x)} (l : list Z) (q : Z) :
  (∀ x, x ∈ l → P x ∨ Q x) → q ∈ l → P q → Q q →
  (length l < length (filter P l) + length (filter Q l))%nat.
Proof.
  induction l as [|x l IH]; intros Hall Hq HP HQ;
    [by apply elem_of_nil in Hq|].
  assert (Hrest : ∀ y, y ∈ l → P y ∨ Q y).
  { intros y Hy. apply Hall, elem_of_cons. by right. }
  pose proof (length_filter_cover P Q l Hrest) as Hcover.
  apply elem_of_cons in Hq as [<-|Hq].
  - rewrite !filter_cons_True by done. simpl. lia.
  - pose proof (IH Hrest Hq HP HQ) as IH'.
    assert (Hx : P x ∨ Q x) by (apply Hall, elem_of_cons; by left).
    destruct (decide (P x)), (decide (Q x));
      rewrite ?(filter_cons_True P), ?(filter_cons_False P),
              ?(filter_cons_True Q), ?(filter_cons_False Q) by done;
      simpl; try lia.
    by destruct Hx.
Qed.

Lemma game_over_double_count b (q : Z) :
  wf b →
  (∀ p, 1 ≤ p ≤ _num_players b → retired_or_exhausted definitions b p) →
  q ∈ _retired_players b → remaining_shapes definitions b q = [] →
  Z.of_nat (size (_retired_players b)) ≠ _num_players b →
  ¬ (size (_retired_players b) = 1%nat ∧ _num_players b = 2) →
  game_over definitions b = false.
Proof.
  intros Hwf Hdone Hq Hnil Hsize Htwo. unfold game_over.
  rewrite bool_decide_eq_false_2 by done.
  rewrite (bool_decide_eq_false_2 (size _ = 1%nat ∧ _)) by done. simpl.
  apply bool_decide_eq_false_2.
  pose proof (length_filter_overlap
                (λ num, length (remaining_shapes definitions b num) = 0%nat)
                (λ p, p ∈ _retired_players b) (players b) q) as Hlt.
  rewrite (length_filter_retired b Hwf) in Hlt.
  pose proof (wf_players _ Hwf).
  pose proof (length_players b ltac:(lia)) as Hlen.
  cut (length (players b)
       < length (filter (λ num, length (remaining_shapes definitions b num)
                                = 0%nat) (players b))
         + size (_retired_players b))%nat; [lia|].
  apply Hlt.
  - intros p Hp%elem_of_players.
    destruct (Hdone p Hp) as [Hin|Hp']; [by right|left]. by rewrite Hp'.
  - by apply elem_of_players, (wf_retired _ Hwf).
  - by rewrite Hnil.
  - done.
Qed.

(** ** The text of a definition *)

Lemma filter_lstrip (P : ascii → Prop) `{!∀ c, Decision (P c)} (l : list ascii) :
  (∀ c, P c → is_space c = false) → filter P (lstrip l) = filter P l.
Proof.
  intros HP. induction l as [|c l IH]; simpl; [done|].
  destruct (is_space c) eqn:Hc; [|done].
  rewrite IH, filter_cons_False; [done|].
  intros Hpc. apply HP in Hpc. congruence.
Qed.

Lemma Forall_lstrip (Q : ascii → Prop) (l : list ascii) :
  Forall Q l → Forall Q (lstrip l).
Proof.
  induction 1 as [|c l Hc Hl IH]; simpl; [constructor|].
  destruct (is_space c); [done|by constructor].
Qed.

Lemma filter_py_strip (P : ascii → Prop) `{!∀ c, Decision (P c)} (l : list ascii) :
  (∀ c, P c → is_space c = false) → filter P (py_strip l) = filter P l.
Proof.
  intros HP. unfold py_strip.
  rewrite filter_reverse, filter_lstrip, filter_reverse, reverse_involutive
    by done.
  by apply filter_lstrip.
Qed.

Lemma strip_markers (l : list ascii) :
  Forall marker_char l →
  join_splitlines (py_remove "@"%char (py_remove " "%char l))
    = filter (λ c, c = "X"%char ∨ c = "O"%char) l.
Proof.
  unfold join_splitlines, py_remove.
  induction 1 as [|c l Hc Hl IH]; [done|].
  destruct Hc as [-> | [-> | [-> | [-> | ->]]]];
    rewrite ?(filter_cons _ _ l); simpl; rewrite ?(filter_cons _ _ (filter _ l));
    simpl; rewrite ?(filter_cons _ _ (filter _ (filter _ l))); simpl;
    by rewrite IH.
Qed.

(** For a definition written with the three markers, blanks and line feeds
    only, what [get_score] subtracts is its number of squares. *)
Lemma definition_length_squares (text : string) :
  Forall marker_char (list_ascii_of_string text) →
  definition_length text = count_squares text.
Proof.
  intros Hchars. unfold definition_length, count_squares. f_equal. f_equal.
  rewrite strip_markers.
  - apply filter_py_strip. by intros c [-> | ->].
  - unfold py_strip.
    by apply Forall_reverse, Forall_lstrip, Forall_reverse, Forall_lstrip.
Qed.

(** ** Scoring *)

Lemma py_index_neg {A} (l : list A) (i : nat) :
  (1 ≤ i ≤ length l)%nat →
  py_index l (- Z.of_nat i) = match l !! (length l - i)%nat with
                              | Some x => Ok x
                              | None => Raise IndexError
                              end.
Proof.
  intros Hi. unfold py_index.
  rewrite (bool_decide_eq_true_2 (- Z.of_nat i < 0)) by lia.
  rewrite bool_decide_eq_false_2 by lia.
  by replace (Z.to_nat (- Z.of_nat i + Z.of_nat (length l)))
    with (length l - i)%nat by lia.
Qed.

Lemma elem_of_range_down (n : nat) (x : Z) :
  x ∈ range_down n ↔ ∃ i : nat, x = - Z.of_nat i ∧ (1 ≤ i < n)%nat.
Proof.
  unfold range_down. rewrite list_elem_of_fmap. split.
  - intros (i & -> & Hi%elem_of_seq). exists i. split; [done|lia].
  - intros (i & -> & Hi). exists i. split; [done|]. apply elem_of_seq. lia.
Qed.

Lemma bonus_scan_returns (hist : list (Z * ShapeKind)) (player : Z) (xs : list Z) :
  (∀ x, x ∈ xs → ∃ played_piece, py_index hist x = Ok played_piece) →
  ∃ v : bool,
    bonus_scan ONE hist player xs = Ok v ∧
    (v = true ↔ ∃ x, x ∈ xs ∧ py_index hist x = Ok (player, ONE)).
Proof.
  induction xs as [|x xs IH]; intros Hxs; simpl.
  - exists false. split; [done|]. split; [done|].
    by intros (x & ?%elem_of_nil & _).
  - destruct IH as (v & Hv & Hiff).
    { intros y Hy. apply Hxs. by right. }
    destruct (Hxs x) as [[owner k] Hx]; [by left|]. rewrite Hx. simpl.
    destruct (decide (owner = player ∧ k = ONE)) as [[-> ->]|Hne].
    + rewrite !bool_decide_eq_true_2 by done. exists true.
      split; [done|]. split; [|done]. intros _. exists x. split; [by left|done].
    + exists v. split.
      * repeat case_bool_decide; try done. by destruct Hne.
      * rewrite Hiff. split; intros (y & Hy & Hpp).
        -- exists y. split; [by right|done].
        -- apply elem_of_cons in Hy as [->|Hy]; [|by exists y].
           rewrite Hx in Hpp. injection Hpp as -> ->. by destruct Hne.
Qed.

Lemma has_bonus_true (hist : list (Z * ShapeKind)) (player : Z) :
  has_bonus ONE hist player = true ↔ (player, ONE) ∈ drop 1 hist.
Proof.
  unfold has_bonus. rewrite existsb_exists. split.
  - intros ([owner k] & Hin & H). simpl in H.
    apply andb_true_iff in H as [->%bool_decide_eq_true ->%bool_decide_eq_true].
    by apply list_elem_of_In.
  - intros Hin. exists (player, ONE). split; [by apply list_elem_of_In|].
    simpl. by rewrite !bool_decide_eq_true_2.
Qed.

(** The bonus loop of [get_score] finds an entry of the player with the
    single square anywhere in the history but at its oldest position. *)
Lemma bonus_scan_spec (hist : list (Z * ShapeKind)) (player : Z) :
  bonus_scan ONE hist player (range_down (length hist))
    = Ok (has_bonus ONE hist player).
Proof.
  destruct (bonus_scan_returns hist player (range_down (length hist)))
    as (v & -> & Hv).
  { intros x (i & -> & Hi)%elem_of_range_down.
    rewrite py_index_neg by lia.
    destruct (lookup_lt_is_Some_2 hist (length hist - i)) as [pp ->]; [lia|].
    eauto. }
  f_equal. apply eq_true_iff_eq. rewrite Hv, has_bonus_true.
  rewrite list_elem_of_lookup. setoid_rewrite lookup_drop. split.
  - intros (x & (i & -> & Hi)%elem_of_range_down & Hx).
    rewrite py_index_neg in Hx by lia.
    destruct (hist !! (length hist - i)%nat) as [pp|] eqn:Hpp; [|done].
    injection Hx as ->. exists (length hist - i - 1)%nat.
    by replace (1 + (length hist - i - 1))%nat with (length hist - i)%nat by lia.
  - intros (j & Hj). pose proof (lookup_lt_Some _ _ _ Hj) as Hlt.
    exists (- Z.of_nat (length hist - (1 + j))). split.
    + apply elem_of_range_down. exists (length hist - (1 + j))%nat.
      split; [done|lia].
    + rewrite py_index_neg by lia.
      replace (length hist - (length hist - (1 + j)))%nat with (1 + j)%nat by lia.
      by rewrite Hj.
Qed.

Lemma get_score_exhausted b (player : Z) :
  remaining_shapes definitions b player = [] →
  get_score ONE definitions b player =
    Ok (if has_bonus ONE (_played_pieces b) player then 20 else 15).
Proof.
  intros Hrem. unfold get_score. rewrite Hrem. simpl.
  by rewrite bonus_scan_spec.
Qed.

(** With shapes left, the score is minus the summed lengths of the
    stripped definitions of the shapes left. *)
Lemma get_score_unplayed b (player : Z) :
  remaining_shapes definitions b player ≠ [] →
  get_score ONE definitions b player =
    Ok (- foldr Z.add 0
            (map (λ k, default 0 (definition_length
                                    <$> definitions_get definitions k))
                 (remaining_shapes definitions b player))).
Proof.
  intros Hrem. unfold get_score.
  rewrite bool_decide_eq_true_2
    by (by intros ?%nil_length_inv).
  f_equal.
  generalize (remaining_shapes definitions b player). intros l.
  assert (Hgen : ∀ acc,
    foldl (λ score sk,
             match definitions_get definitions sk with
             | Some text => score - definition_length text
             | None => score
             end) acc l
    = acc - foldr Z.add 0
              (map (λ k, default 0 (definition_length
                                      <$> definitions_get definitions k)) l)).
  { induction l as [|k l IH]; intros acc; simpl; [lia|].
    rewrite IH. destruct (definitions_get definitions k); simpl; lia. }
  rewrite Hgen. lia.
Qed.

(** ** Reset and the history *)

Lemma play_step_history b b' :
  play_step definitions b b' →
  ∃ new, _played_pieces b' = _played_pieces b ++ new.
Proof.
  intros [piece [|] b'' Hplace|b'' Hretire].
  - destruct (maybe_place_true _ _ _ Hplace)
      as (sqs & c & _ & _ & _ & _ & _ & ->). simpl. eauto.
  - rewrite (maybe_place_false _ _ _ Hplace). exists []. by rewrite app_nil_r.
  - revert Hretire. unfold retire. destruct (advance _ _ _); simpl; [|done..].
    intros [= <-]. simpl. exists []. by rewrite app_nil_r.
Qed.

Lemma play_history b b' :
  rtc (play_step definitions) b b' →
  ∃ new, _played_pieces b' = _played_pieces b ++ new.
Proof.
  induction 1 as [b|b b1 b2 Hstep _ [new2 IH]].
  - exists []. by rewrite app_nil_r.
  - destruct (play_step_history _ _ Hstep) as [new1 Hnew1].
    exists (new1 ++ new2). by rewrite IH, Hnew1, app_assoc.
Qed.

(** C10. [reset] empties the grid, puts the pointer back on player 1, the
    move counter on zero and the retired set on empty, and keeps the
    history of placements.  So in any state played on from the reset one,
    a player who runs out of shapes scores the 20 of the bonus as soon as
    the history from before the reset holds an entry of that player with
    the single square (the oldest entry apart), whatever was placed
    since. *)
Theorem reset_keeps_history b :
  (_grid (reset b) = empty_grid (_size b) ∧
   _curr_player (reset b) = 1 ∧
   _num_moves (reset b) = 0 ∧
   _retired_players (reset b) = ∅ ∧
   _played_pieces (reset b) = _played_pieces b) ∧
  (∀ b' player,
     rtc (play_step definitions) (reset b) b' →
     remaining_shapes definitions b' player = [] →
     (player, ONE) ∈ drop 1 (_played_pieces b) →
     get_score ONE definitions b' player = Ok 20).
Proof.
  split; [done|]. intros b' player Hplay Hrem Hold.
  destruct (play_history _ _ Hplay) as [new Hnew]. simpl in Hnew.
  rewrite (get_score_exhausted b' player Hrem).
  assert (Hbonus : has_bonus ONE (_played_pieces b') player = true).
  { apply has_bonus_true. rewrite Hnew.
    destruct (_played_pieces b) as [|first rest]; [by apply elem_of_nil in Hold|].
    simpl in *. rewrite !drop_0 in *. apply elem_of_app. by left. }
  by rewrite Hbonus.
Qed.

(** * Further properties of the code *)

(** ** Orientations *)

Lemma rotate_left_right sh : rotate_left (rotate_right sh) = sh.
Proof.
  destruct sh as [k o [|] sqs]; unfold rotate_left, rotate_right; simpl;
    [|done].
  f_equal. rewrite map_map. apply map_involutive.
  intros [r c]; simpl; f_equal; lia.
Qed.

Lemma rotate_right_left sh : rotate_right (rotate_left sh) = sh.
Proof.
  destruct sh as [k o [|] sqs]; unfold rotate_left, rotate_right; simpl;
    [|done].
  f_equal. rewrite map_map. apply map_involutive.
  intros [r c]; simpl; f_equal; lia.
Qed.

Lemma rotate_right_thrice sh :
  rotate_right (rotate_right (rotate_right sh)) = rotate_left sh.
Proof.
  destruct sh as [k o [|] sqs]; unfold rotate_left, rotate_right; simpl;
    [|done].
  f_equal. rewrite !map_map. apply map_ext.
  intros [r c]; simpl; f_equal; lia.
Qed.

(** X1. A left rotation undoes a right rotation and the other way round; a
    left rotation is three right rotations; and flipping after a right
    rotation is the same as rotating left after flipping. *)
Theorem rotations_compose sh :
  rotate_left (rotate_right sh) = sh ∧
  rotate_right (rotate_left sh) = sh ∧
  rotate_right (rotate_right (rotate_right sh)) = rotate_left sh ∧
  flip_horizontally (rotate_right sh) = rotate_left (flip_horizontally sh).
Proof.
  split; [apply rotate_left_right|].
  split; [apply rotate_right_left|].
  split; [apply rotate_right_thrice|].
  destruct sh as [k o [|] sqs];
    unfold rotate_left, rotate_right, flip_horizontally; simpl; [|done].
  f_equal. rewrite !map_map. apply map_ext.
  intros [r c]; simpl; f_equal; lia.
Qed.

Lemma rotate_right_iter_four (n : nat) sh :
  Nat.iter (4 + n) rotate_right sh = Nat.iter n rotate_right sh.
Proof.
  rewrite Nat.add_comm, Nat.iter_add. f_equal. simpl.
  by rewrite rotate_right_thrice, rotate_left_right.
Qed.

(** X2. [Piece(shape, face_up, rotation)] starts without anchor; only
    [rotation % 4] counts, for negative numbers too, so a rotation of -1 is
    one left rotation; and a piece built with [rotation] and then rotated
    right once more has the shape of one built with [rotation + 1]. *)
Theorem new_piece_rotation sh (face_up : bool) (rotation : Z) :
  anchor (new_piece sh face_up rotation) = None ∧
  new_piece sh face_up (rotation + 4) = new_piece sh face_up rotation ∧
  shape (new_piece sh face_up (-1))
    = rotate_left (if face_up then sh else flip_horizontally sh) ∧
  rotate_right (shape (new_piece sh face_up rotation))
    = shape (new_piece sh face_up (rotation + 1)).
Proof.
  split; [done|]. split; [|split].
  - unfold new_piece.
    replace ((rotation + 4) `mod` 4) with (rotation `mod` 4); [done|].
    by rewrite <- (Z.mod_add rotation 1 4) by lia.
  - unfold new_piece. simpl. apply rotate_right_thrice.
  - unfold new_piece. simpl.
    set (sh1 := if face_up then sh else flip_horizontally sh).
    pose proof (Z.mod_pos_bound rotation 4 ltac:(lia)) as Hr.
    destruct (decide (rotation `mod` 4 = 3)) as [H3|H3].
    + assert ((rotation + 1) `mod` 4 = 0) as ->.
      { rewrite Z.add_mod, H3 by lia. done. }
      rewrite H3. simpl.
      by rewrite rotate_right_thrice, rotate_left_right.
    + assert ((rotation + 1) `mod` 4 = rotation `mod` 4 + 1) as ->.
      { rewrite Z.add_mod by lia. rewrite (Z.mod_small 1 4) by lia.
        apply Z.mod_small. lia. }
      by rewrite Z2Nat.inj_add, Nat.add_comm by lia.
Qed.

(** X3. Without an anchor every query on the position of a piece raises
    the missing-anchor error: its squares, both neighbour sets, the three
    transforms of [Piece] and the two collision tests; once the anchor is
    set none of the first six does. *)
Theorem unanchored_piece_raises piece :
  (anchor piece = None →
     piece_squares piece = Raise NoAnchorSet ∧
     cardinal_neighbors piece = Raise NoAnchorSet ∧
     intercardinal_neighbors piece = Raise NoAnchorSet ∧
     piece_flip_horizontally piece = Raise NoAnchorSet ∧
     piece_rotate_left piece = Raise NoAnchorSet ∧
     piece_rotate_right piece = Raise NoAnchorSet ∧
     ∀ b, any_wall_collisions b piece = Raise NoAnchorSet ∧
          any_collisions b piece = Raise NoAnchorSet) ∧
  (∀ a : Point,
     (∃ sqs, piece_squares (set_anchor piece a) = Ok sqs) ∧
     (∃ card, cardinal_neighbors (set_anchor piece a) = Ok card) ∧
     (∃ inter, intercardinal_neighbors (set_anchor piece a) = Ok inter) ∧
     (∃ p, piece_flip_horizontally (set_anchor piece a) = Ok p) ∧
     (∃ p, piece_rotate_left (set_anchor piece a) = Ok p) ∧
     (∃ p, piece_rotate_right (set_anchor piece a) = Ok p)).
Proof.
  split.
  - intros Ha.
    unfold cardinal_neighbors, intercardinal_neighbors, piece_flip_horizontally,
      piece_rotate_left, piece_rotate_right, any_collisions,
      any_wall_collisions, _check_anchor, cardinal_neighbors, piece_squares.
    rewrite Ha. simpl. done.
  - intros a.
    unfold cardinal_neighbors, intercardinal_neighbors, piece_flip_horizontally,
      piece_rotate_left, piece_rotate_right, _check_anchor, cardinal_neighbors,
      piece_squares.
    simpl. repeat split; eauto.
Qed.

(** X4. The cardinal neighbours of a piece are no squares of the piece;
    its intercardinal neighbours are neither squares nor cardinal
    neighbours, touch a square by a corner and share no edge with any
    square. *)
Theorem neighbours_apart piece sqs card inter :
  piece_squares piece = Ok sqs →
  cardinal_neighbors piece = Ok card →
  intercardinal_neighbors piece = Ok inter →
  (∀ q, q ∈ card → q ∉ sqs) ∧
  (∀ q, q ∈ inter →
     (q ∉ sqs) ∧ (q ∉ card) ∧
     (∃ sq, sq ∈ sqs ∧ Z.abs (fst q - fst sq) = 1 ∧ Z.abs (snd q - snd sq) = 1) ∧
     (∀ sq, sq ∈ sqs →
        Z.abs (fst q - fst sq) + Z.abs (snd q - snd sq) ≠ 1)).
Proof.
  intros Hsqs Hcard Hinter. split.
  - intros q Hq.
    by apply (elem_of_cardinal_neighbors _ _ _ q Hsqs Hcard) in Hq as [? _].
  - intros q Hq.
    apply (elem_of_intercardinal_neighbors _ _ _ _ q Hsqs Hcard Hinter) in Hq
      as ([Hnc Hns] & sq & d & Hsq & Hd & ->).
    repeat split; try done.
    + exists sq. split; [done|]. simpl.
      unfold intercardinal_positions in Hd.
      repeat (apply elem_of_cons in Hd as [->|Hd]; [simpl; lia|]).
      by apply elem_of_nil in Hd.
    + intros sq' Hsq' Hdist. apply Hnc.
      apply (elem_of_cardinal_neighbors _ _ _ _ Hsqs Hcard).
      split; [done|].
      set (q := (sq.1 + d.1, sq.2 + d.2)) in *.
      exists sq', (fst q - fst sq', snd q - snd sq').
      split; [done|]. split.
      * assert (Hcases : (fst q - fst sq' = -1 ∧ snd q - snd sq' = 0) ∨
                         (fst q - fst sq' = 0 ∧ snd q - snd sq' = 1) ∨
                         (fst q - fst sq' = 1 ∧ snd q - snd sq' = 0) ∨
                         (fst q - fst sq' = 0 ∧ snd q - snd sq' = -1)) by lia.
        unfold cardinal_positions.
        destruct Hcases as [[-> ->] | [[-> ->] | [[-> ->] | [-> ->]]]];
          repeat first [apply elem_of_cons; left; reflexivity
                       |apply elem_of_cons; right].
      * subst q. simpl. f_equal; lia.
Qed.

(** ** Construction *)

Lemma game_over_fresh b :
  wf b → _grid b = empty_grid (_size b) → _retired_players b = ∅ →
  definitions ≠ [] → game_over definitions b = false.
Proof.
  intros Hwf Hg Hret Hdefs. unfold game_over. rewrite Hret, size_empty.
  pose proof (wf_players _ Hwf).
  rewrite bool_decide_eq_false_2 by lia.
  rewrite (bool_decide_eq_false_2 (0%nat = 1%nat ∧ _)) by (by intros [? _]).
  simpl. apply bool_decide_eq_false.
  assert (filter (λ num, length (remaining_shapes definitions b num) = 0%nat)
                 (players b) = []) as ->; [|simpl; lia].
  induction (players b) as [|p l IH]; [done|].
  rewrite filter_cons_False; [done|].
  rewrite remaining_shapes_empty_grid by done.
  unfold shapes_keys. rewrite length_map.
  by destruct definitions.
Qed.

(** X5. [Blokus.__init__] raises [ValueError] exactly when the number of
    players is not 1 to 4, the size is below 5, a start position has a
    coordinate off the board, or there are fewer start positions than
    players.  Otherwise it builds a well-formed game with an empty grid,
    player 1 to move, nobody retired, no move made, and every shape of the
    catalog remaining for every player; with a catalog that is not empty
    this game is not over. *)
Theorem new_game_spec (num_players board_size : Z) (starts : gset Point) :
  (new_game (ShapeKind := ShapeKind) num_players board_size starts
     = Raise ValueError ↔
   num_players < 1 ∨ num_players > 4 ∨ board_size < 5 ∨
   (∃ p, p ∈ starts ∧ ¬ (0 ≤ fst p < board_size ∧ 0 ≤ snd p < board_size)) ∨
   Z.of_nat (size starts) < num_players) ∧
  (∀ b, new_game num_players board_size starts = Ok b →
     b = mkBlokus num_players board_size starts ∅ 1
                  (empty_grid board_size) 0 [] ∧
     wf b ∧
     (∀ p, remaining_shapes definitions b p = shapes_keys definitions) ∧
     (definitions ≠ [] → game_over definitions b = false)) ∧
  (∀ e, new_game (ShapeKind := ShapeKind) num_players board_size starts
          = Raise e → e = ValueError) ∧
  new_game (ShapeKind := ShapeKind) num_players board_size starts ≠ Diverge.
Proof.
  assert (Hstarts :
    existsb (λ position,
       bool_decide (fst position < 0 ∨ fst position > board_size - 1) ||
       bool_decide (snd position < 0 ∨ snd position > board_size - 1))
      (elements starts) = true ↔
    ∃ p, p ∈ starts ∧ ¬ (0 ≤ fst p < board_size ∧ 0 ≤ snd p < board_size)).
  { rewrite existsb_elements. split; intros (p & Hp & Hout); exists p;
      (split; [done|]).
    - apply orb_true_iff in Hout as [?%bool_decide_eq_true|?%bool_decide_eq_true];
        lia.
    - apply orb_true_iff.
      destruct (decide (fst p < 0 ∨ fst p > board_size - 1));
        [left|right]; apply bool_decide_eq_true; [done|lia]. }
  split; [|split; [|split]].
  - unfold new_game.
    case_bool_decide as H1; [split; [intros _; lia|done]|].
    case_bool_decide as H2; [split; [intros _; lia|done]|].
    destruct (existsb _ _) eqn:Hex.
    + split; [intros _|done]. right. right. right. left. by apply Hstarts.
    + case_bool_decide; [split; [intros _; lia|done]|].
      split; [done|]. intros [?|[?|[?|[Hout|?]]]]; try lia.
      apply Hstarts in Hout. congruence.
  - intros b Hnew.
    destruct (new_game_fresh _ _ _ _ Hnew) as (Hg & Hret & Hcurr).
    pose proof (wf_new_game _ _ _ _ Hnew) as Hwf.
    split; [|split; [done|split]].
    + revert Hnew. unfold new_game. repeat (case_bool_decide; [done|]).
      destruct (existsb _ _); [done|].
      case_bool_decide; [done|]. by intros [= <-].
    + intros p. by apply remaining_shapes_empty_grid.
    + by apply game_over_fresh.
  - intros e. unfold new_game. repeat (case_bool_decide; [by intros [= <-]|]).
    destruct (existsb _ _); [by intros [= <-]|].
    by case_bool_decide; [intros [= <-]|].
  - unfold new_game. repeat (case_bool_decide; [done|]).
    destruct (existsb _ _); [done|]. by case_bool_decide.
Qed.

(** ** Collision tests *)

Lemma grid_get_alt g (r c : Z) :
  0 ≤ r → 0 ≤ c →
  grid_get g r c = match cell_at g (Z.to_nat r) (Z.to_nat c) with
                   | Some cell => Ok cell
                   | None => Raise IndexError
                   end.
Proof.
  intros Hr Hc. unfold grid_get, cell_at. rewrite py_index_nonneg by done.
  destruct (g !! Z.to_nat r) as [line|]; simpl; [|done].
  by rewrite py_index_nonneg by done.
Qed.

Lemma any_occupied_true b (locs : list Point) :
  wf b → Forall (in_board b) locs →
  any_occupied (_grid b) locs = Ok true ↔
  ∃ sq cell, sq ∈ locs ∧ grid_get (_grid b) (fst sq) (snd sq) = Ok (Some cell).
Proof.
  intros Hwf. induction 1 as [|[r c] locs [Hr Hc] _ IH]; simpl.
  - split; [done|]. by intros (sq & cell & ?%elem_of_nil & _).
  - destruct (grid_get_in_bounds b r c Hwf Hr Hc) as [cell Hcell].
    rewrite Hcell. simpl. destruct cell as [cell|].
    + split; [|done]. intros _. exists (r, c), cell. split; [by left|done].
    + rewrite IH. split.
      * intros (sq & cell & Hsq & Hget). exists sq, cell. split; [by right|done].
      * intros (sq & cell & [->|Hsq]%elem_of_cons & Hget); [|eauto].
        simpl in Hget. congruence.
Qed.

Lemma wall_collisions_true b (sqs : list Point) :
  existsb (λ square,
     bool_decide (fst square < 0 ∨ snd square < 0 ∨
                  fst square >= _size b ∨ snd square >= _size b)) sqs = true ↔
  ∃ sq, sq ∈ sqs ∧ ¬ in_board b sq.
Proof.
  rewrite existsb_exists. unfold in_board.
  split; intros (sq & Hsq & Hout); exists sq.
  - apply bool_decide_eq_true in Hout. split; [by apply list_elem_of_In|lia].
  - split; [by apply list_elem_of_In|]. apply bool_decide_eq_true. lia.
Qed.

(** X6. On a well-formed game and for an anchored piece both collision
    tests return a boolean.  [any_wall_collisions] is true exactly when
    some square of the piece is off the board, and [any_collisions] exactly
    when some square is off the board or lies on an occupied cell; it never
    indexes the grid out of range. *)
Theorem collisions_spec b piece (a : Point) :
  wf b → anchor piece = Some a →
  ∃ sqs (wall coll : bool),
    piece_squares piece = Ok sqs ∧
    any_wall_collisions b piece = Ok wall ∧
    (wall = true ↔ ∃ sq, sq ∈ sqs ∧ ¬ in_board b sq) ∧
    any_collisions b piece = Ok coll ∧
    (coll = true ↔
       (∃ sq, sq ∈ sqs ∧ ¬ in_board b sq) ∨
       (∃ sq cell, sq ∈ sqs ∧
                   grid_get (_grid b) (fst sq) (snd sq) = Ok (Some cell))).
Proof.
  intros Hwf Ha. pose proof (piece_squares_anchored _ _ Ha) as Hsqs.
  eexists. unfold any_collisions, any_wall_collisions, _check_anchor.
  rewrite Hsqs, Ha. simpl.
  destruct (existsb _ _) eqn:Hwall; simpl.
  - exists true, true. repeat split; try done.
    + intros _. by apply wall_collisions_true.
    + intros _. left. by apply wall_collisions_true.
  - pose proof Hwall as Hin. apply wall_collisions_false in Hin.
    destruct (any_occupied_total b _ Hwf Hin) as [coll Hcoll].
    exists false, coll. rewrite Hcoll. repeat split; try done.
    + intros Hex%wall_collisions_true. congruence.
    + intros ->. right. by apply (any_occupied_true b _ Hwf Hin).
    + intros [Hex%wall_collisions_true|Hocc]; [congruence|].
      apply (any_occupied_true b _ Hwf Hin) in Hocc. congruence.
Qed.

(** ** What [maybe_place] does *)

Lemma maybe_place_legal b piece :
  wf b → _curr_player b ∉ _retired_players b →
  legal_to_place definitions b piece = Ok true →
  ∃ b', maybe_place definitions b piece = Ok (true, b').
Proof.
  intros Hwf Hret Hlegal.
  destruct (legal_true_squares b piece Hwf Hlegal) as (sqs & Hsqs & _).
  assert (Hk : kind (shape piece)
                 ∈ remaining_shapes definitions b (_curr_player b)).
  { destruct (decide (kind (shape piece)
                ∈ remaining_shapes definitions b (_curr_player b)));
      [done|by rewrite legal_to_place_played in Hlegal]. }
  destruct (advance_total b (_retired_players b)
              (next_player b (_curr_player b))) as [c Hc].
  { apply next_player_range, (wf_players _ Hwf). }
  { intros Hsize. by apply some_active. }
  unfold maybe_place. rewrite bool_decide_eq_false_2 by done.
  rewrite Hlegal. simpl. rewrite bool_decide_eq_false_2 by (by intros []).
  rewrite Hsqs. simpl. rewrite Hc. simpl. eauto.
Qed.

(** X7. On a well-formed game whose current player is not retired,
    [maybe_place] places every piece [legal_to_place] accepts and passes on
    every error [legal_to_place] raises.  Whoever is to move, the only
    errors it raises are the two of [legal_to_place]: the inventory test
    it repeats after the legality test never fires, the grid is never
    indexed out of range and the turn advancement ends. *)
Theorem maybe_place_outcomes b piece :
  wf b →
  (_curr_player b ∉ _retired_players b →
     (legal_to_place definitions b piece = Ok true →
        ∃ b', maybe_place definitions b piece = Ok (true, b')) ∧
     (∀ e, legal_to_place definitions b piece = Raise e →
           maybe_place definitions b piece = Raise e)) ∧
  (∀ (ok : bool) b', maybe_place definitions b piece = Ok (ok, b') →
     ok = true ↔ (_curr_player b ∉ _retired_players b) ∧
                 legal_to_place definitions b piece = Ok true) ∧
  (∀ e, maybe_place definitions b piece = Raise e →
        (e = AlreadyPlayedShape ∨ e = NoAnchorSet) ∧
        legal_to_place definitions b piece = Raise e) ∧
  maybe_place definitions b piece ≠ Diverge.
Proof.
  intros Hwf. split; [|split; [|split]].
  - intros Hret. split; [by apply maybe_place_legal|].
    intros e He. unfold maybe_place.
    rewrite bool_decide_eq_false_2 by done. by rewrite He.
  - intros ok b' Hplace. destruct ok.
    + destruct (maybe_place_true _ _ _ Hplace) as (? & ? & ? & ? & _). done.
    + split; [done|]. intros [Hret Hlegal].
      destruct (maybe_place_legal b piece Hwf Hret Hlegal) as [b'' Hb''].
      congruence.
  - intros e. unfold maybe_place. case_bool_decide as Hret; [done|].
    destruct (decide (kind (shape piece)
                ∈ remaining_shapes definitions b (_curr_player b))) as [Hk|Hk].
    + destruct (anchor piece) as [a|] eqn:Ha.
      * destruct (legal_to_place_returns b piece Hwf Hk) as (v & Hv & _);
          [by rewrite Ha|].
        rewrite Hv. simpl. destruct v; simpl; [|done].
        rewrite bool_decide_eq_false_2 by (by intros []).
        rewrite (piece_squares_anchored _ _ Ha). simpl.
        destruct (advance_total b (_retired_players b)
                    (next_player b (_curr_player b))) as [c ->]; [| |done].
        -- apply next_player_range, (wf_players _ Hwf).
        -- intros Hsize. by apply some_active.
      * rewrite (legal_to_place_unanchored b piece Hk Ha). simpl.
        intros [= <-]. auto.
    + rewrite (legal_to_place_played b piece Hk). simpl.
      intros [= <-]. auto.
  - by apply maybe_place_total.
Qed.

Lemma commit_grid_get b (sqs : list Point) (v : Cell ShapeKind) (r c : Z) :
  wf b → Forall (in_board b) sqs → 0 ≤ r → 0 ≤ c →
  grid_get (commit (_grid b) sqs v) r c =
    if decide ((r, c) ∈ sqs) then Ok v else grid_get (_grid b) r c.
Proof.
  intros Hwf Hin Hr Hc. rewrite !grid_get_alt, cell_at_commit by done.
  assert (Hiff : (Z.to_nat r, Z.to_nat c) ∈ map nat_point sqs ↔ (r, c) ∈ sqs).
  { split.
    - intros ([r' c'] & Heq & Hrc)%list_elem_of_fmap.
      rewrite list.Forall_forall in Hin. destruct (Hin _ Hrc) as [? ?].
      unfold nat_point in Heq. simpl in *. injection Heq as Hr' Hc'.
      assert (r = r') as -> by lia. by assert (c = c') as -> by lia.
    - intros Hrc. apply list_elem_of_fmap. by exists (r, c). }
  destruct (decide ((r, c) ∈ sqs)) as [Hrc|Hrc].
  - rewrite decide_True by (by apply Hiff).
    rewrite list.Forall_forall in Hin. destruct (Hin _ Hrc) as [? ?]. simpl in *.
    destruct (cell_at_in_bounds b (Z.to_nat r) (Z.to_nat c) Hwf) as [x ->];
      [lia..|done].
  - by rewrite decide_False by (by rewrite Hiff).
Qed.

(** X8. A successful [maybe_place] writes the current player and the
    shape kind on the squares of the piece, which were empty and on the
    board, and leaves every other cell as it was; it adds one to the move
    counter and one entry to the history, and changes neither the retired
    set nor the size, the start positions or the number of players. *)
Theorem maybe_place_effect b piece b' :
  wf b → maybe_place definitions b piece = Ok (true, b') →
  ∃ sqs,
    piece_squares piece = Ok sqs ∧ sqs ≠ [] ∧
    (∀ sq, sq ∈ sqs →
       in_board b sq ∧ grid_get (_grid b) (fst sq) (snd sq) = Ok None) ∧
    (∀ r c, 0 ≤ r → 0 ≤ c →
       grid_get (_grid b') r c =
         if decide ((r, c) ∈ sqs)
         then Ok (Some (_curr_player b, kind (shape piece)))
         else grid_get (_grid b) r c) ∧
    _num_moves b' = _num_moves b + 1 ∧
    _played_pieces b' = _played_pieces b ++ [(_curr_player b, kind (shape piece))] ∧
    _retired_players b' = _retired_players b ∧
    _num_players b' = _num_players b ∧ _size b' = _size b ∧
    _start_positions b' = _start_positions b.
Proof.
  intros Hwf Hplace.
  destruct (maybe_place_true _ _ _ Hplace)
    as (sqs & c & Hret & Hlegal & Hk & Hsqs & Hadv & ->).
  destruct (legal_true_squares _ _ Hwf Hlegal)
    as (sqs' & Hsqs' & Hne & Hin & Hfree).
  rewrite Hsqs in Hsqs'. injection Hsqs' as <-.
  exists sqs. simpl. split; [done|]. split; [done|]. split; [|split; [|done]].
  - intros sq Hsq. rewrite list.Forall_forall in Hin, Hfree.
    split; [by apply Hin|by apply Hfree].
  - intros r c0 Hr Hc. by apply commit_grid_get.
Qed.

Lemma play_step_cell b b' (r c : Z) (cell : Z * ShapeKind) :
  wf b → play_step definitions b b' → 0 ≤ r → 0 ≤ c →
  grid_get (_grid b) r c = Ok (Some cell) →
  grid_get (_grid b') r c = Ok (Some cell).
Proof.
  intros Hwf [piece [|] b'' Hplace|b'' Hretire] Hr Hc Hcell.
  - destruct (maybe_place_true _ _ _ Hplace)
      as (sqs & c0 & Hret & Hlegal & Hk & Hsqs & Hadv & ->).
    destruct (legal_true_squares _ _ Hwf Hlegal)
      as (sqs' & Hsqs' & Hne & Hin & Hfree).
    rewrite Hsqs in Hsqs'. injection Hsqs' as <-. simpl.
    rewrite commit_grid_get by done.
    destruct (decide ((r, c) ∈ sqs)) as [Hrc|]; [|done].
    rewrite list.Forall_forall in Hfree. apply Hfree in Hrc. simpl in Hrc.
    congruence.
  - by rewrite (maybe_place_false _ _ _ Hplace).
  - by rewrite (retire_grid _ _ Hretire).
Qed.

(** X9. Along any sequence of [maybe_place] and [retire] calls a cell
    that is occupied keeps its player and its shape kind: no piece is ever
    taken off the grid or written over. *)
Theorem cells_are_kept b b' :
  wf b → rtc (play_step definitions) b b' →
  ∀ r c cell, 0 ≤ r → 0 ≤ c →
    grid_get (_grid b) r c = Ok (Some cell) →
    grid_get (_grid b') r c = Ok (Some cell).
Proof.
  intros Hwf Hsteps. induction Hsteps as [b|b b1 b2 Hstep _ IH];
    intros r c cell Hr Hc Hcell; [done|].
  apply IH; [by eapply wf_play_step|done..|].
  by eapply play_step_cell.
Qed.

(** ** What [retire] does *)

(** X10. On a well-formed game [retire] returns: the current player is in
    the retired set afterwards, nobody else joins it, and the grid, the
    move counter and the history are as before; the pointer is on a player
    number, and on one who is not retired unless every player is.  Along
    any sequence of [maybe_place] and [retire] calls a retired player
    stays retired. *)
Theorem retire_effect b :
  wf b →
  (∃ b', retire b = Ok b' ∧
     _retired_players b' = _retired_players b ∪ {[ _curr_player b ]} ∧
     _grid b' = _grid b ∧ _num_moves b' = _num_moves b ∧
     _played_pieces b' = _played_pieces b ∧
     1 ≤ _curr_player b' ≤ _num_players b' ∧
     (Z.of_nat (size (_retired_players b')) ≠ _num_players b' →
      _curr_player b' ∉ _retired_players b')) ∧
  (∀ b', rtc (play_step definitions) b b' →
         _retired_players b ⊆ _retired_players b').
Proof.
  intros Hwf. split.
  - destruct (retire_total b Hwf) as [b' Hretire]. exists b'.
    split; [done|]. revert Hretire. unfold retire.
    destruct (advance _ _ _) as [c| |] eqn:Hadv; simpl; [|done..].
    intros [= <-]. simpl.
    apply advance_range in Hadv as [Hc Hact]; [|apply (wf_curr _ Hwf)].
    repeat split; try done; try lia.
    case_bool_decide as Hin; [done|]. apply set_eq. intros x.
    rewrite elem_of_union, elem_of_singleton.
    split; [by left|by intros [?| ->]].
  - intros b' Hsteps. induction Hsteps as [b|b b1 b2 Hstep _ IH]; [done|].
    etrans; [|apply IH; by eapply wf_play_step].
    destruct Hstep as [piece [|] b'' Hplace|b'' Hretire].
    + by destruct (maybe_place_true _ _ _ Hplace)
        as (? & ? & _ & _ & _ & _ & _ & ->).
    + by rewrite (maybe_place_false _ _ _ Hplace).
    + revert Hretire. unfold retire.
      destruct (advance _ _ _); simpl; [|done..].
      intros [= <-]. simpl.
      case_bool_decide; [apply union_subseteq_l|done].
Qed.

(** ** The turn advancement *)

Lemma skip_retired_first (fuel : nat) b (retired : gset Z) (c c' : Z) :
  skip_retired fuel b retired c = Ok c' →
  ∃ k : nat,
    (k < fuel)%nat ∧ c' = Nat.iter k (next_player b) c ∧ (c' ∉ retired) ∧
    ∀ j : nat, (j < k)%nat → Nat.iter j (next_player b) c ∈ retired.
Proof.
  revert c. induction fuel as [|fuel IH]; intros c; simpl; [done|].
  case_bool_decide as Hin.
  - intros (k & Hk & -> & Hnot & Hbefore)%IH. exists (S k).
    split; [lia|]. split; [by rewrite Nat.iter_succ_r|]. split; [done|].
    intros [|j] Hj; [done|]. rewrite Nat.iter_succ_r. apply Hbefore. lia.
  - intros [= <-]. exists 0%nat. repeat split; [lia|done|]. intros j Hj. lia.
Qed.

(** X11. Started on a player number, with a retired set that holds player
    numbers only, the turn advancement comes to an end.  While somebody is
    still in, it stops on the first player who is not retired, going from
    the player it starts on through [c % num_players + 1] at most
    [num_players] times: every player it passes is retired.  From a player
    number this step is [c + 1], and 1 after the last player.  When all
    are retired it takes one step. *)
Theorem advance_first_active b (retired : gset Z) (c : Z) :
  1 ≤ c ≤ _num_players b →
  (∀ p, p ∈ retired → 1 ≤ p ≤ _num_players b) →
  ∃ c',
    advance b retired c = Ok c' ∧
    next_player b c = (if decide (c < _num_players b) then c + 1 else 1) ∧
    (Z.of_nat (size retired) = _num_players b → c' = next_player b c) ∧
    (Z.of_nat (size retired) ≠ _num_players b →
     ∃ k : nat,
       Z.of_nat k ≤ _num_players b ∧
       c' = Nat.iter k (next_player b) c ∧ (c' ∉ retired) ∧
       ∀ j : nat, (j < k)%nat → Nat.iter j (next_player b) c ∈ retired).
Proof.
  intros Hc Hretired.
  destruct (advance_total b retired c Hc) as [c' Hadv].
  { intros Hsize.
    set (b1 := mkBlokus (_num_players b) (_size b) (_start_positions b)
                 retired c (empty_grid (ShapeKind := ShapeKind) (_size b))
                 0 []).
    apply (some_active b1); [|done].
    constructor; simpl;
      [lia|apply empty_grid_rows|apply empty_grid_cols|done|done]. }
  exists c'. split; [done|]. split; [by apply next_player_eq|].
  revert Hadv. unfold advance. case_bool_decide as Hsize.
  - intros Hskip. split; [done|]. intros _.
    apply skip_retired_first in Hskip as (k & Hk & Hrest).
    exists k. split; [lia|done].
  - intros [= <-]. split; [done|]. intros Hne. by destruct Hsize.
Qed.

(** ** The turn order, with the retired players *)

Lemma turn_floor_fresh b :
  _grid b = empty_grid (_size b) → _curr_player b = 1 →
  turn_floor definitions b (_retired_players b) (_curr_player b).
Proof.
  intros Hg Hcurr. exists (Z.of_nat (length (shapes_keys definitions))).
  split; intros p Hp _; rewrite remaining_shapes_empty_grid by done; [|done].
  rewrite Hcurr, bool_decide_eq_false_2 by lia. lia.
Qed.

Lemma turn_floor_same_grid b b' (retired : gset Z) (c : Z) :
  _grid b' = _grid b → _num_players b' = _num_players b →
  turn_floor definitions b retired c → turn_floor definitions b' retired c.
Proof.
  intros Hg Hn (r & Hin & Hout). exists r.
  split; intros p Hp Hmem; rewrite (remaining_shapes_grid _ _ _ Hg);
    [apply Hin|apply Hout]; try done; by rewrite <- Hn.
Qed.

Lemma turn_floor_skip b (retired : gset Z) (c : Z) :
  c ∈ retired →
  turn_floor definitions b retired c → turn_floor definitions b retired (c + 1).
Proof.
  intros Hc (r & Hin & Hout). exists r. split; [|done].
  intros p Hp Hact. rewrite <- (Hin p Hp Hact).
  assert (p ≠ c) by (by intros ->). repeat case_bool_decide; lia.
Qed.

Lemma turn_floor_next b (retired : gset Z) (c : Z) :
  1 ≤ c ≤ _num_players b →
  turn_floor definitions b retired (c + 1) →
  turn_floor definitions b retired (next_player b c).
Proof.
  intros Hc (r & Hin & Hout). rewrite next_player_eq by done.
  destruct (decide _) as [|Hlast]; [by exists r|].
  exists (r - 1). split.
  - intros p Hp Hact. rewrite <- (Hin p Hp Hact).
    repeat case_bool_decide; lia.
  - intros q Hq Hret. pose proof (Hout q Hq Hret). lia.
Qed.

Lemma turn_floor_retire b (retired : gset Z) (c : Z) :
  1 ≤ c ≤ _num_players b →
  turn_floor definitions b retired c →
  turn_floor definitions b (retired ∪ {[ c ]}) c.
Proof.
  intros Hc (r & Hin & Hout). exists r. split.
  - intros p Hp Hact. apply Hin; [done|].
    intros ?. apply Hact, elem_of_union. by left.
  - intros q Hq [Hret| ->%elem_of_singleton]%elem_of_union; [by apply Hout|].
    destruct (decide (c ∈ retired)) as [Hret|Hact]; [by apply Hout|].
    pose proof (Hin c Hc Hact) as Hlen.
    rewrite bool_decide_eq_false_2 in Hlen by lia. lia.
Qed.

Lemma turn_floor_all_retired b (retired : gset Z) (c c' : Z) :
  (∀ p, 1 ≤ p ≤ _num_players b → p ∈ retired) →
  turn_floor definitions b retired c → turn_floor definitions b retired c'.
Proof.
  intros Hall (r & Hin & Hout). exists r. split; [|done].
  intros p Hp Hact. destruct Hact. auto.
Qed.

Lemma turn_floor_skip_retired (fuel : nat) b (retired : gset Z) (c c' : Z) :
  1 ≤ c ≤ _num_players b →
  skip_retired fuel b retired c = Ok c' →
  turn_floor definitions b retired c → turn_floor definitions b retired c'.
Proof.
  revert c. induction fuel as [|fuel IH]; intros c Hc; simpl; [done|].
  case_bool_decide as Hin; [|by intros [= <-]].
  intros Hskip Hturn. eapply IH; [|done|].
  - apply next_player_range. lia.
  - by apply turn_floor_next, turn_floor_skip.
Qed.

Lemma skip_retired_players (fuel : nat) b b0 (retired : gset Z) (c : Z) :
  _num_players b0 = _num_players b →
  skip_retired fuel b retired c = skip_retired fuel b0 retired c.
Proof.
  intros Hn. revert c. induction fuel as [|fuel IH]; intros c; simpl; [done|].
  case_bool_decide; [|done]. unfold next_player. rewrite Hn. apply IH.
Qed.

Lemma turn_floor_advance b b0 (retired : gset Z) (c c' : Z) :
  _num_players b0 = _num_players b →
  1 ≤ c ≤ _num_players b →
  (Z.of_nat (size retired) = _num_players b →
   ∀ p, 1 ≤ p ≤ _num_players b → p ∈ retired) →
  advance b retired c = Ok c' →
  turn_floor definitions b0 retired c → turn_floor definitions b0 retired c'.
Proof.
  intros Hn Hc Hall. unfold advance. case_bool_decide as Hsize.
  - rewrite (skip_retired_players _ b b0) by done.
    apply turn_floor_skip_retired. by rewrite Hn.
  - intros _. apply turn_floor_all_retired. rewrite Hn. apply Hall. lia.
Qed.

Lemma turn_floor_placed b piece b' :
  NoDup (shapes_keys definitions) → wf b →
  maybe_place definitions b piece = Ok (true, b') →
  turn_floor definitions b (_retired_players b) (_curr_player b) →
  turn_floor definitions b' (_retired_players b) (_curr_player b + 1).
Proof.
  intros Hkeys Hwf Hplace (r & Hin & Hout).
  pose proof (remaining_shapes_placed_length _ _ _ Hkeys Hwf Hplace) as Hlen.
  destruct (maybe_place_true _ _ _ Hplace) as (sqs & c & Hret & _).
  assert (Hn : _num_players b' = _num_players b).
  { by destruct (maybe_place_true _ _ _ Hplace) as (? & ? & _ & _ & _ & _ & _ & ->). }
  exists r. split.
  - intros p Hp Hact. rewrite Hn in Hp. rewrite <- (Hin p Hp Hact).
    destruct (decide (p = _curr_player b)) as [->|Hne].
    + repeat case_bool_decide; lia.
    + rewrite (remaining_shapes_placed _ _ _ p Hwf Hplace).
      rewrite decide_False by done. repeat case_bool_decide; lia.
  - intros q Hq Hqret. rewrite Hn in Hq.
    rewrite (remaining_shapes_placed _ _ _ q Hwf Hplace).
    rewrite decide_False by (by intros ->). by apply Hout.
Qed.

Lemma wf_with_retired b (q : Z) :
  wf b → 1 ≤ q ≤ _num_players b →
  wf (mkBlokus (_num_players b) (_size b) (_start_positions b)
               (_retired_players b ∪ {[ q ]}) (_curr_player b)
               (_grid b) (_num_moves b) (_played_pieces b)).
Proof.
  intros [? ? ? Hret Hcurr] Hq. constructor; simpl; try done.
  intros p [?| ->%elem_of_singleton]%elem_of_union; [by apply Hret|done].
Qed.

Lemma reachable_turn_floor b :
  NoDup (shapes_keys definitions) → reachable definitions b →
  turn_floor definitions b (_retired_players b) (_curr_player b).
Proof.
  intros Hkeys.
  induction 1 as [n sz starts b Hnew|b piece ok b' Hreach IH Hplace
                 |b b' Hreach IH Hrem Hretire|b _ IH].
  - destruct (new_game_fresh _ _ _ _ Hnew) as (Hg & Hret & Hcurr).
    by apply turn_floor_fresh.
  - destruct ok; [|by rewrite (maybe_place_false _ _ _ Hplace)].
    pose proof (inv_wf _ _ (reachable_inv _ Hreach)) as Hwf.
    pose proof (turn_floor_placed _ _ _ Hkeys Hwf Hplace IH) as Hturn.
    destruct (maybe_place_true _ _ _ Hplace)
      as (sqs & c & Hcurr & _ & _ & _ & Hadv & Hb').
    rewrite Hb' in Hturn |- *. simpl.
    apply (turn_floor_advance b _ (_retired_players b)
             (next_player b (_curr_player b)) c); [done| | |done|].
    + apply next_player_range, (wf_players _ Hwf).
    + by apply all_retired.
    + match goal with |- turn_floor _ ?b1 _ _ =>
        change (next_player b (_curr_player b))
          with (next_player b1 (_curr_player b))
      end.
      apply turn_floor_next; [apply (wf_curr _ Hwf)|done].
  - pose proof (inv_wf _ _ (reachable_inv _ Hreach)) as Hwf.
    revert Hretire. unfold retire.
    destruct (advance _ _ _) as [c| |] eqn:Hadv; simpl; [|done..].
    intros [= <-]. simpl.
    eapply (turn_floor_advance b _ _ (_curr_player b) c);
      [done|apply (wf_curr _ Hwf)| |exact Hadv|].
    + case_bool_decide as Hin; [|by apply all_retired].
      intros Hsize p Hp.
      apply (all_retired _ (wf_with_retired b (_curr_player b) Hwf
                              (wf_curr _ Hwf))); done.
    + eapply turn_floor_same_grid; [done..|].
      case_bool_decide; [|done].
      apply turn_floor_retire; [apply (wf_curr _ Hwf)|done].
  - by apply turn_floor_fresh.
Qed.

(** X12. In every reachable state the players still in have placed the
    same number of shapes up to one: any two of them differ by at most one
    shape in what they have left, and none has more left than the current
    player.  A retired player has at least as many shapes left as any
    player still in. *)
Theorem turns_are_fair b :
  NoDup (shapes_keys definitions) → reachable definitions b →
  ∀ p q, 1 ≤ p ≤ _num_players b → 1 ≤ q ≤ _num_players b →
    p ∉ _retired_players b →
    (q ∉ _retired_players b →
       (length (remaining_shapes definitions b p)
        ≤ length (remaining_shapes definitions b q) + 1)%nat) ∧
    (q ∈ _retired_players b →
       (length (remaining_shapes definitions b p)
        ≤ length (remaining_shapes definitions b q))%nat) ∧
    (q = _curr_player b →
       (length (remaining_shapes definitions b p)
        ≤ length (remaining_shapes definitions b q))%nat).
Proof.
  intros Hkeys Hreach p q Hp Hq Hpact.
  destruct (reachable_turn_floor b Hkeys Hreach) as (r & Hin & Hout).
  pose proof (Hin p Hp Hpact) as Hlp.
  split; [|split].
  - intros Hqact. pose proof (Hin q Hq Hqact) as Hlq.
    repeat case_bool_decide; lia.
  - intros Hqret. pose proof (Hout q Hq Hqret).
    repeat case_bool_decide; lia.
  - intros ->. destruct (decide (_curr_player b ∈ _retired_players b)) as [Hr|Ha].
    + pose proof (Hout _ Hq Hr). repeat case_bool_decide; lia.
    + pose proof (Hin _ Hq Ha) as Hlq.
      rewrite (bool_decide_eq_false_2 (_curr_player b < _curr_player b)) in Hlq
        by lia.
      repeat case_bool_decide; lia.
Qed.

(** ** The move counter *)

Lemma sum_map_ext (f g : Z → Z) (l : list Z) :
  (∀ x, x ∈ l → f x = g x) →
  foldr Z.add 0 (map f l) = foldr Z.add 0 (map g l).
Proof.
  induction l as [|x l IH]; intros Hfg; simpl; [done|].
  rewrite Hfg, IH; [done| |apply elem_of_cons; by left].
  intros y Hy. apply Hfg, elem_of_cons. by right.
Qed.

Lemma sum_map_bump (f g : Z → Z) (l : list Z) (x : Z) :
  NoDup l → x ∈ l → g x = f x + 1 →
  (∀ y, y ∈ l → y ≠ x → g y = f y) →
  foldr Z.add 0 (map g l) = foldr Z.add 0 (map f l) + 1.
Proof.
  induction l as [|y l IH]; intros Hnd Hx Hgx Hrest; simpl.
  - by apply elem_of_nil in Hx.
  - apply list.NoDup_cons in Hnd as [Hy Hnd].
    apply elem_of_cons in Hx as [->|Hx].
    + rewrite Hgx, (sum_map_ext g f); [lia|].
      intros z Hz. apply Hrest; [apply elem_of_cons; by right|].
      by intros ->.
    + rewrite IH; try done.
      * rewrite (Hrest y); [lia|apply elem_of_cons; by left|by intros ->].
      * intros z Hz. apply Hrest, elem_of_cons. by right.
Qed.

Lemma sum_map_indicator (f : Z → Z) (P : Z → Prop) `{!∀ x, Decision (P x)}
    (l : list Z) :
  (∀ x, x ∈ l → f x = if decide (P x) then 1 else 0) →
  foldr Z.add 0 (map f l) = Z.of_nat (length (filter P l)).
Proof.
  induction l as [|x l IH]; intros Hf; simpl; [done|].
  rewrite IH by (intros y Hy; apply Hf, elem_of_cons; by right).
  rewrite (Hf x) by (apply elem_of_cons; by left).
  destruct (decide (P x)).
  - rewrite filter_cons_True by done. simpl. lia.
  - rewrite filter_cons_False by done. lia.
Qed.

Lemma sum_map_ge_filter (f : Z → Z) (P : Z → Prop) `{!∀ x, Decision (P x)}
    (l : list Z) :
  (∀ x, x ∈ l → 0 ≤ f x) → (∀ x, x ∈ l → P x → 1 ≤ f x) →
  Z.of_nat (length (filter P l)) ≤ foldr Z.add 0 (map f l).
Proof.
  induction l as [|x l IH]; intros Hpos Hone; simpl; [done|].
  assert (Hx : x ∈ x :: l) by (apply elem_of_cons; by left).
  assert (Hl : Z.of_nat (length (filter P l)) ≤ foldr Z.add 0 (map f l)).
  { apply IH; intros y Hy; [apply Hpos|apply Hone]; apply elem_of_cons; by right. }
  destruct (decide (P x)) as [HP|HP].
  - rewrite filter_cons_True by done. simpl.
    pose proof (Hone x Hx HP). lia.
  - rewrite filter_cons_False by done. pose proof (Hpos x Hx). lia.
Qed.

Lemma length_filter_lt (P Q : Z → Prop)
    `{!∀ x, Decision (P x)} `{!∀ x, Decision (Q x)} (l : list Z) (x : Z) :
  (∀ y, P y → Q y) → x ∈ l → Q x → ¬ P x →
  (length (filter P l) < length (filter Q l))%nat.
Proof.
  intros HPQ. induction l as [|y l IH]; intros Hx HQ HP.
  - by apply elem_of_nil in Hx.
  - assert (Hle : (length (filter P l) ≤ length (filter Q l))%nat).
    { clear -HPQ. induction l as [|z l IH]; [done|].
      destruct (decide (P z)) as [HPz|HPz].
      - rewrite !filter_cons_True by auto. simpl. lia.
      - rewrite (filter_cons_False P) by done.
        destruct (decide (Q z)).
        + rewrite filter_cons_True by done. simpl. lia.
        + by rewrite filter_cons_False by done. }
    apply elem_of_cons in Hx as [<-|Hx].
    + rewrite filter_cons_False, filter_cons_True by done. simpl. lia.
    + specialize (IH Hx HQ HP).
      destruct (decide (P y)) as [HPy|HPy].
      * rewrite !filter_cons_True by auto. simpl. lia.
      * rewrite (filter_cons_False P) by done.
        destruct (decide (Q y)).
        -- rewrite filter_cons_True by done. simpl. lia.
        -- by rewrite filter_cons_False by done.
Qed.

Lemma filter_full {A} (P : A → Prop) `{!∀ x, Decision (P x)} (l : list A) :
  length (filter P l) = length l → filter P l = l.
Proof.
  induction l as [|x l IH]; [done|].
  pose proof (length_filter P l) as Hle.
  destruct (decide (P x)).
  - rewrite filter_cons_True by done. simpl. intros [=]. f_equal. auto.
  - rewrite filter_cons_False by done. simpl. lia.
Qed.

Lemma played_count_nonneg b (p : Z) : 0 ≤ played_count definitions b p.
Proof.
  unfold played_count, remaining_shapes.
  pose proof (length_filter (λ sk, sk ∉ played_shapes (_grid b) p)
                (shapes_keys definitions)). lia.
Qed.

Lemma total_played_fresh b :
  _grid b = empty_grid (_size b) → total_played definitions b = 0.
Proof.
  intros Hg. unfold total_played.
  rewrite (sum_map_ext _ (λ _, 0)).
  - induction (players b) as [|x l IH]; simpl; [done|]. by rewrite IH.
  - intros p _. unfold played_count.
    rewrite remaining_shapes_empty_grid by done. lia.
Qed.

Lemma total_played_same_grid b b' :
  _grid b' = _grid b → _num_players b' = _num_players b →
  total_played definitions b' = total_played definitions b.
Proof.
  intros Hg Hn. unfold total_played, players. rewrite Hn.
  apply sum_map_ext. intros p _. unfold played_count.
  by rewrite (remaining_shapes_grid _ _ _ Hg).
Qed.

Lemma total_played_placed b piece b' :
  NoDup (shapes_keys definitions) → wf b →
  maybe_place definitions b piece = Ok (true, b') →
  total_played definitions b' = total_played definitions b + 1.
Proof.
  intros Hkeys Hwf Hplace.
  pose proof (remaining_shapes_placed_length _ _ _ Hkeys Hwf Hplace) as Hlen.
  assert (Hn : _num_players b' = _num_players b).
  { by destruct (maybe_place_true _ _ _ Hplace) as (? & ? & _ & _ & _ & _ & _ & ->). }
  unfold total_played, players. rewrite Hn.
  apply (sum_map_bump _ _ _ (_curr_player b)).
  - apply NoDup_seqZ.
  - apply elem_of_players, (wf_curr _ Hwf).
  - unfold played_count. lia.
  - intros q _ Hq. unfold played_count.
    rewrite (remaining_shapes_placed _ _ _ q Hwf Hplace).
    by rewrite decide_False by done.
Qed.

Lemma reachable_num_moves b :
  NoDup (shapes_keys definitions) → reachable definitions b →
  _num_moves b = total_played definitions b.
Proof.
  intros Hkeys.
  induction 1 as [n sz starts b Hnew|b piece ok b' Hreach IH Hplace
                 |b b' Hreach IH Hrem Hretire|b _ IH].
  - destruct (new_game_fresh _ _ _ _ Hnew) as (Hg & _).
    rewrite total_played_fresh by done.
    revert Hnew. unfold new_game.
    repeat (case_bool_decide || destruct (existsb _ _)); try done.
    by intros [= <-].
  - pose proof (inv_wf _ _ (reachable_inv _ Hreach)) as Hwf.
    destruct ok; [|by rewrite (maybe_place_false _ _ _ Hplace)].
    rewrite (total_played_placed _ _ _ Hkeys Hwf Hplace), <- IH.
    by destruct (maybe_place_true _ _ _ Hplace)
      as (? & ? & _ & _ & _ & _ & _ & ->).
  - rewrite (total_played_same_grid b b').
    + rewrite <- IH. revert Hretire. unfold retire.
      destruct (advance _ _ _); simpl; [|done..]. by intros [= <-].
    + by apply retire_grid.
    + revert Hretire. unfold retire.
      destruct (advance _ _ _); simpl; [|done..]. by intros [= <-].
  - by rewrite total_played_fresh.
Qed.

Lemma length_filter_active b :
  wf b →
  Z.of_nat (length (filter (λ p, p ∉ _retired_players b) (players b)))
    = _num_players b - Z.of_nat (size (_retired_players b)).
Proof.
  intros Hwf.
  destruct (length_filter_split (λ p, p ∈ _retired_players b)
              (λ p, p ∉ _retired_players b) (players b)) as [_ Heq].
  { intros x _ [? ?]. done. }
  rewrite length_filter_retired in Heq by done.
  pose proof (length_players b) as Hlen.
  pose proof (wf_players _ Hwf).
  assert (size (_retired_players b)
          + length (filter (λ p, p ∉ _retired_players b) (players b))
          = length (players b))%nat as Hsum.
  { apply Heq. intros x _. destruct (decide (x ∈ _retired_players b)); auto. }
  lia.
Qed.

Lemma opening_iff_unplayed b :
  NoDup (shapes_keys definitions) → reachable definitions b →
  _curr_player b ∉ _retired_players b →
  _num_moves b < _num_players b - Z.of_nat (size (_retired_players b)) ↔
  remaining_shapes definitions b (_curr_player b) = shapes_keys definitions.
Proof.
  intros Hkeys Hreach Hact.
  pose proof (inv_wf _ _ (reachable_inv _ Hreach)) as Hwf.
  destruct (reachable_turn_floor b Hkeys Hreach) as (r & Hin & Hout).
  rewrite (reachable_num_moves b Hkeys Hreach), <- length_filter_active by done.
  pose proof (Hin _ (wf_curr _ Hwf) Hact) as Hcurr.
  rewrite bool_decide_eq_false_2 in Hcurr by lia.
  assert (Hle : ∀ p, (length (remaining_shapes definitions b p)
                      ≤ length (shapes_keys definitions))%nat).
  { intros p. apply length_filter. }
  unfold total_played. split.
  - intros Hlt.
    apply filter_full.
    destruct (decide (length (remaining_shapes definitions b (_curr_player b))
                      = length (shapes_keys definitions))) as [|Hne]; [done|].
    exfalso. pose proof (Hle (_curr_player b)).
    pose proof (sum_map_ge_filter (played_count definitions b)
                  (λ p, p ∉ _retired_players b) (players b)) as Hsum.
    cut (Z.of_nat (length (filter (λ p, p ∉ _retired_players b) (players b)))
         ≤ foldr Z.add 0 (map (played_count definitions b) (players b)));
      [lia|].
    apply Hsum.
    + intros p _. apply played_count_nonneg.
    + intros p Hp%elem_of_players Hpact. unfold played_count.
      pose proof (Hin p Hp Hpact). repeat case_bool_decide; lia.
  - intros Hfull. rewrite Hfull in Hcurr.
    rewrite (sum_map_indicator _
               (λ p, (p ∉ _retired_players b) ∧ p < _curr_player b)).
    + apply inj_lt.
      apply (length_filter_lt _ _ _ (_curr_player b)).
      * by intros y [? _].
      * apply elem_of_players, (wf_curr _ Hwf).
      * done.
      * intros [_ ?]. lia.
    + intros p Hp%elem_of_players. unfold played_count.
      pose proof (Hle p).
      destruct (decide (p ∈ _retired_players b)) as [Hret|Hpact].
      * pose proof (Hout p Hp Hret).
        rewrite decide_False by (by intros [? _]). lia.
      * pose proof (Hin p Hp Hpact) as Hp'.
        destruct (decide (p < _curr_player b)).
        -- rewrite decide_True by done.
           rewrite bool_decide_eq_true_2 in Hp' by done. lia.
        -- rewrite decide_False by (by intros [_ ?]).
           rewrite bool_decide_eq_false_2 in Hp' by done. lia.
Qed.

(** X13. In every reachable state the move counter is the number of
    shapes on the grid, counted per player: the sum over the players of
    the kinds they no longer have. *)
Theorem num_moves_counts_placements b :
  NoDup (shapes_keys definitions) → reachable definitions b →
  _num_moves b = total_played definitions b ∧
  (∀ p, 0 ≤ played_count definitions b p
        ≤ Z.of_nat (length (shapes_keys definitions))) ∧
  _num_moves b ≤ _num_players b * Z.of_nat (length (shapes_keys definitions)).
Proof.
  intros Hkeys Hreach.
  pose proof (inv_wf _ _ (reachable_inv _ Hreach)) as Hwf.
  assert (Hcount : ∀ p, 0 ≤ played_count definitions b p
                        ≤ Z.of_nat (length (shapes_keys definitions))).
  { intros p. split; [apply played_count_nonneg|]. unfold played_count. lia. }
  split; [by apply reachable_num_moves|]. split; [done|].
  rewrite (reachable_num_moves b Hkeys Hreach).
  rewrite <- (length_players b) by (pose proof (wf_players _ Hwf); lia).
  unfold total_played.
  induction (players b) as [|x l IH]; simpl; [lia|].
  pose proof (Hcount x). lia.
Qed.

(** X14. In every reachable state with the current player still in, the
    test [_num_moves < num_players - len(_retired_players)] that selects
    the opening rule in [legal_to_place] holds exactly when the current
    player has every shape left, that is, has not placed a piece yet. *)
Theorem opening_test_is_first_move b :
  NoDup (shapes_keys definitions) → reachable definitions b →
  _curr_player b ∉ _retired_players b →
  (_num_moves b < _num_players b - Z.of_nat (size (_retired_players b)) ↔
   remaining_shapes definitions b (_curr_player b) = shapes_keys definitions) ∧
  (_num_moves b < _num_players b - Z.of_nat (size (_retired_players b)) →
   ∀ r c k, 0 ≤ r → 0 ≤ c → k ∈ shapes_keys definitions →
     grid_get (_grid b) r c ≠ Ok (Some (_curr_player b, k))).
Proof.
  intros Hkeys Hreach Hact. split; [by apply opening_iff_unplayed|].
  intros Hopen r c k Hr Hc Hk Hcell.
  apply opening_iff_unplayed in Hopen; try done.
  rewrite <- Hopen in Hk. apply list_elem_of_filter in Hk as [Hk _].
  apply Hk, elem_of_played_shapes.
  exists (Z.to_nat r), (Z.to_nat c). by apply grid_get_cell_at.
Qed.

(** ** What the grid holds *)

Lemma cell_at_empty_grid (n : Z) (i j : nat) (cell : Cell ShapeKind) :
  cell_at (empty_grid n) i j = Some cell → cell = None.
Proof.
  unfold cell_at, empty_grid. intros Hcell.
  destruct (replicate _ _ !! i) as [line|] eqn:Hline; simpl in Hcell; [|done].
  apply lookup_replicate in Hline as [-> _].
  by apply lookup_replicate in Hcell as [-> _].
Qed.

Lemma grid_get_in_board b (r c : Z) (cell : Cell ShapeKind) :
  wf b → 0 ≤ r → 0 ≤ c → grid_get (_grid b) r c = Ok cell → in_board b (r, c).
Proof.
  intros Hwf Hr Hc Hcell. apply grid_get_cell_at in Hcell; [|done..].
  unfold cell_at in Hcell.
  destruct (_grid b !! Z.to_nat r) as [line|] eqn:Hline; simpl in Hcell; [|done].
  pose proof (lookup_lt_Some _ _ _ Hline) as Hi.
  pose proof (lookup_lt_Some _ _ _ Hcell) as Hj.
  rewrite (wf_rows _ Hwf) in Hi.
  pose proof (proj1 (list.Forall_forall _ _) (wf_cols _ Hwf) line
                (list_elem_of_lookup_2 _ _ _ Hline)) as Hlen.
  simpl in Hlen. rewrite Hlen in Hj.
  unfold in_board. simpl. lia.
Qed.

Lemma legal_true_clear b piece :
  wf b → legal_to_place definitions b piece = Ok true →
  ∃ a sqs card inter,
    kind (shape piece) ∈ remaining_shapes definitions b (_curr_player b) ∧
    anchor piece = Some a ∧ any_collisions b piece = Ok false ∧
    piece_squares piece = Ok sqs ∧ cardinal_neighbors piece = Ok card ∧
    intercardinal_neighbors piece = Ok inter ∧
    (if bool_decide (_num_moves b <
                     _num_players b - Z.of_nat (size (_retired_players b)))
     then existsb (λ square, bool_decide (square ∈ _start_positions b)) sqs
     else negb (existsb (own_cell b) (elements card))
          && existsb (own_cell b) (elements inter)) = true.
Proof.
  intros Hwf Hlegal.
  destruct (decide (kind (shape piece)
              ∈ remaining_shapes definitions b (_curr_player b))) as [Hk|Hk];
    [|by rewrite legal_to_place_played in Hlegal].
  destruct (anchor piece) as [a|] eqn:Ha;
    [|by rewrite legal_to_place_unanchored in Hlegal].
  destruct (legal_to_place_returns b piece Hwf Hk) as (v & Hv & Hfalse);
    [by rewrite Ha|].
  destruct (any_collisions_total b piece Hwf) as [coll Hcoll];
    [by rewrite Ha|].
  destruct coll; [rewrite Hfalse in Hv by done; congruence|].
  destruct (cardinal_neighbors_anchored _ _ Ha) as [card Hcard].
  destruct (intercardinal_neighbors_anchored _ _ Ha) as [inter Hinter].
  pose proof (piece_squares_anchored _ _ Ha) as Hsqs.
  eexists a, _, card, inter. repeat (split; [done|]).
  rewrite (legal_to_place_clear b piece a _ card inter) in Hlegal by done.
  congruence.
Qed.

Lemma edge_adjacent_cardinal (x y : Point) :
  edge_adjacent x y →
  ∃ d, d ∈ cardinal_positions ∧ y = (fst x + fst d, snd x + snd d).
Proof.
  destruct x as [xr xc], y as [yr yc]. unfold edge_adjacent. simpl.
  intros Hadj. exists (yr - xr, yc - xc). split.
  - unfold cardinal_positions. rewrite !elem_of_cons.
    assert ((yr - xr = -1 ∧ yc - xc = 0) ∨ (yr - xr = 0 ∧ yc - xc = 1) ∨
            (yr - xr = 1 ∧ yc - xc = 0) ∨ (yr - xr = 0 ∧ yc - xc = -1))
      as [[-> ->]|[[-> ->]|[[-> ->]|[-> ->]]]] by lia; auto.
  - simpl. f_equal; lia.
Qed.

Lemma reachable_cells b (i j : nat) (p : Z) (k : ShapeKind) :
  reachable definitions b → cell_at (_grid b) i j = Some (Some (p, k)) →
  1 ≤ p ≤ _num_players b ∧ k ∈ shapes_keys definitions ∧
  (p, k) ∈ _played_pieces b.
Proof.
  induction 1 as [n sz starts b Hnew|b piece ok b' Hreach IH Hplace
                 |b b' Hreach IH Hrem Hretire|b _ IH].
  - destruct (new_game_fresh _ _ _ _ Hnew) as (-> & _).
    by intros ?%cell_at_empty_grid.
  - destruct ok; [|by rewrite (maybe_place_false _ _ _ Hplace)].
    pose proof (inv_wf _ _ (reachable_inv _ Hreach)) as Hwf.
    destruct (maybe_place_true _ _ _ Hplace)
      as (sqs & c & _ & _ & Hk & _ & _ & ->). simpl.
    rewrite cell_at_commit. destruct (decide _).
    + destruct (cell_at (_grid b) i j); simpl; [|done].
      intros [= <- <-]. split; [apply (wf_curr _ Hwf)|].
      split; [by apply list_elem_of_filter in Hk as [_ ?]|].
      apply elem_of_app. right. apply elem_of_cons. by left.
    + intros Hcell. destruct (IH Hcell) as (Hp & Hkk & Hhist).
      split; [done|]. split; [done|]. apply elem_of_app. by left.
  - rewrite (retire_grid _ _ Hretire). intros Hcell.
    revert Hretire. unfold retire.
    destruct (advance _ _ _); simpl; [|done..]. intros [= <-]. simpl. auto.
  - simpl. by intros ?%cell_at_empty_grid.
Qed.

Lemma placed_touches_none b piece b' sqs (x y : Point) (k : ShapeKind) :
  NoDup (shapes_keys definitions) → reachable definitions b →
  maybe_place definitions b piece = Ok (true, b') →
  piece_squares piece = Ok sqs →
  x ∈ sqs → y ∉ sqs → edge_adjacent x y → 0 ≤ fst y → 0 ≤ snd y →
  grid_get (_grid b) (fst y) (snd y) = Ok (Some (_curr_player b, k)) → False.
Proof.
  intros Hkeys Hreach Hplace Hsqs Hx Hy Hadj Hyr Hyc Hcell.
  pose proof (inv_wf _ _ (reachable_inv _ Hreach)) as Hwf.
  destruct (maybe_place_true _ _ _ Hplace) as (? & ? & Hact & Hlegal & _).
  destruct (legal_true_clear b piece Hwf Hlegal)
    as (a & sqs' & card & inter & Hk & Ha & Hcoll & Hsqs' & Hcard & Hinter & Hrule).
  assert (sqs' = sqs) as -> by congruence.
  case_bool_decide as Hopen.
  - apply opening_iff_unplayed in Hopen; try done.
    pose proof Hcell as Hcell'. apply grid_get_cell_at in Hcell'; [|done..].
    destruct (reachable_cells b _ _ _ _ Hreach Hcell') as (_ & Hkk & _).
    rewrite <- Hopen in Hkk. apply list_elem_of_filter in Hkk as [Hkk _].
    apply Hkk, elem_of_played_shapes. eauto.
  - apply andb_true_iff in Hrule as [Hedge _].
    apply negb_true_iff, not_true_iff_false in Hedge. apply Hedge.
    apply existsb_elements. exists y. split.
    + apply (elem_of_cardinal_neighbors piece sqs card y Hsqs Hcard).
      split; [done|].
      destruct (edge_adjacent_cardinal x y Hadj) as (d & Hd & ->).
      by exists x, d.
    + apply own_cell_true. split; [|by exists k].
      pose proof (grid_get_in_board b _ _ _ Hwf Hyr Hyc Hcell) as Hin.
      by destruct y.
Qed.

Lemma edge_adjacent_sym (x y : Point) : edge_adjacent x y → edge_adjacent y x.
Proof. unfold edge_adjacent. lia. Qed.

(** X15. In every reachable state two cells that share an edge and belong
    to the same player belong to the same piece: pieces of one player
    never touch along an edge. *)
Theorem own_pieces_never_share_an_edge b :
  NoDup (shapes_keys definitions) → reachable definitions b →
  ∀ (x y : Point) (p : Z) (k k' : ShapeKind),
    0 ≤ fst x → 0 ≤ snd x → 0 ≤ fst y → 0 ≤ snd y → edge_adjacent x y →
    grid_get (_grid b) (fst x) (snd x) = Ok (Some (p, k)) →
    grid_get (_grid b) (fst y) (snd y) = Ok (Some (p, k')) →
    k = k'.
Proof.
  intros Hkeys.
  induction 1 as [n sz starts b Hnew|b piece ok b' Hreach IH Hplace
                 |b b' Hreach IH Hrem Hretire|b _ IH].
  - destruct (new_game_fresh _ _ _ _ Hnew) as (-> & _).
    intros x y p k k' Hxr Hxc _ _ _ Hx%grid_get_cell_at; [|done..].
    by apply cell_at_empty_grid in Hx.
  - destruct ok; [|by rewrite (maybe_place_false _ _ _ Hplace)].
    pose proof (inv_wf _ _ (reachable_inv _ Hreach)) as Hwf.
    destruct (maybe_place_true _ _ _ Hplace)
      as (sqs & c & _ & Hlegal & _ & Hsqs & _ & Hb').
    destruct (legal_true_squares b piece Hwf Hlegal)
      as (sqs' & Hsqs' & _ & Hin & _).
    assert (sqs' = sqs) as -> by congruence.
    intros [xr xc] [yr yc] p k k'. rewrite Hb'. simpl.
    intros Hxr Hxc Hyr Hyc Hadj. rewrite !commit_grid_get by done.
    destruct (decide ((xr, xc) ∈ sqs)) as [Hx|Hx],
             (decide ((yr, yc) ∈ sqs)) as [Hy|Hy].
    + intros Hk Hk'. congruence.
    + intros [= <-] Hcell. exfalso.
      by apply (placed_touches_none b piece b' sqs (xr, xc) (yr, yc) k').
    + intros Hcell [= <-]. exfalso.
      apply (placed_touches_none b piece b' sqs (yr, yc) (xr, xc) k);
        try done. by apply edge_adjacent_sym.
    + by apply (IH (xr, xc) (yr, yc)).
  - by rewrite (retire_grid _ _ Hretire).
  - simpl. intros x y p k k' Hxr Hxc _ _ _ Hx%grid_get_cell_at; [|done..].
    by apply cell_at_empty_grid in Hx.
Qed.

(** X16. In every reachable state an occupied cell lies on the board and
    holds a player number of the game and a shape kind of the catalog; that
    placement is in the history, and the player no longer has the kind. *)
Theorem cells_come_from_placements b (r c p : Z) (k : ShapeKind) :
  reachable definitions b → 0 ≤ r → 0 ≤ c →
  grid_get (_grid b) r c = Ok (Some (p, k)) →
  in_board b (r, c) ∧ 1 ≤ p ≤ _num_players b ∧
  k ∈ shapes_keys definitions ∧ (p, k) ∈ _played_pieces b ∧
  k ∉ remaining_shapes definitions b p.
Proof.
  intros Hreach Hr Hc Hcell.
  pose proof (inv_wf _ _ (reachable_inv _ Hreach)) as Hwf.
  split; [by apply (grid_get_in_board b r c (Some (p, k)))|].
  pose proof Hcell as Hcell'. apply grid_get_cell_at in Hcell'; [|done..].
  destruct (reachable_cells b _ _ _ _ Hreach Hcell') as (Hp & Hk & Hhist).
  split; [done|]. split; [done|]. split; [done|].
  intros [Hnot _]%list_elem_of_filter. apply Hnot, elem_of_played_shapes. eauto.
Qed.

(** ** Scores and winners *)

Lemma get_score_total b (player : Z) :
  get_score ONE definitions b player
    = Ok (score_value ONE definitions b player).
Proof.
  unfold score_value.
  destruct (decide (remaining_shapes definitions b player = [])) as [Hrem|Hrem].
  - by rewrite get_score_exhausted.
  - by rewrite get_score_unplayed.
Qed.

Lemma sum_lengths_nonneg (l : list ShapeKind) :
  0 ≤ foldr Z.add 0
        (map (λ k, default 0 (definition_length
                                <$> definitions_get definitions k)) l).
Proof.
  induction l as [|k l IH]; simpl; [done|].
  destruct (definitions_get definitions k) as [text|]; simpl; [|lia].
  assert (0 ≤ definition_length text) by (unfold definition_length; lia).
  lia.
Qed.

(** X17. [get_score] returns for every state and every player number, and
    never raises.  For a player with shapes left the score is minus the
    summed stripped lengths of their definitions, hence at most 0; for a
    player without shapes left it is 20 when an entry of the history other
    than the oldest is the single square of this player, and 15
    otherwise. *)
Theorem get_score_spec b (player : Z) :
  ∃ v, get_score ONE definitions b player = Ok v ∧
    (remaining_shapes definitions b player ≠ [] →
       v = - foldr Z.add 0
               (map (λ k, default 0 (definition_length
                                       <$> definitions_get definitions k))
                    (remaining_shapes definitions b player)) ∧ v ≤ 0) ∧
    (remaining_shapes definitions b player = [] →
       (v = 15 ∨ v = 20) ∧
       (v = 20 ↔ (player, ONE) ∈ drop 1 (_played_pieces b))).
Proof.
  destruct (decide (remaining_shapes definitions b player = [])) as [Hrem|Hrem].
  - rewrite get_score_exhausted by done. eexists. split; [done|].
    split; [done|]. intros _. rewrite <- has_bonus_true.
    destruct (has_bonus _ _ _); split; auto; split; done.
  - rewrite get_score_unplayed by done. eexists. split; [done|].
    split; [|done]. intros _. split; [done|].
    pose proof (sum_lengths_nonneg (remaining_shapes definitions b player)).
    lia.
Qed.

Lemma winners_high_score b (l : list Z) (h : Z) :
  foldl (λ acc player,
           acc ≫= λ high : Z,
           get_score ONE definitions b player ≫= λ curr_score : Z,
           Ok (Z.max high curr_score)) (Ok h) l
  = Ok (foldl (λ high player, Z.max high (score_value ONE definitions b player))
              h l).
Proof.
  revert h. induction l as [|p l IH]; intros h; simpl; [done|].
  rewrite get_score_total. simpl. apply IH.
Qed.

Lemma winners_list b (l acc : list Z) (h : Z) :
  foldl (λ acc player,
           acc ≫= λ lst : list Z,
           get_score ONE definitions b player ≫= λ curr_score : Z,
           Ok (if bool_decide (curr_score = h)
               then lst ++ [player] else lst)) (Ok acc) l
  = Ok (acc ++ filter (λ p, score_value ONE definitions b p = h) l).
Proof.
  revert acc. induction l as [|p l IH]; intros acc; simpl.
  - by rewrite app_nil_r.
  - rewrite get_score_total. simpl. rewrite IH. case_bool_decide.
    + rewrite filter_cons_True by done. by rewrite <- app_assoc.
    + by rewrite filter_cons_False by done.
Qed.

Lemma foldl_max_ge (f : Z → Z) (l : list Z) (h : Z) :
  h ≤ foldl (λ high p, Z.max high (f p)) h l ∧
  (∀ p, p ∈ l → f p ≤ foldl (λ high p, Z.max high (f p)) h l) ∧
  (foldl (λ high p, Z.max high (f p)) h l = h ∨
   ∃ p, p ∈ l ∧ foldl (λ high p, Z.max high (f p)) h l = f p).
Proof.
  revert h. induction l as [|x l IH]; intros h; simpl.
  - split; [done|]. split; [|by left]. by intros p ?%elem_of_nil.
  - destruct (IH (Z.max h (f x))) as (Hge & Hall & Hattained).
    split; [lia|]. split.
    + intros p [->|Hp]%elem_of_cons; [lia|by apply Hall].
    + destruct Hattained as [Heq|(p & Hp & Heq)].
      * destruct (Z.max_spec h (f x)) as [[_ Hmax]|[_ Hmax]].
        -- right. exists x. split; [apply elem_of_cons; by left|].
           by rewrite Heq.
        -- left. by rewrite Heq.
      * right. exists p. split; [apply elem_of_cons; by right|done].
Qed.

Lemma StronglySorted_filter_lt (P : Z → Prop) `{!∀ x, Decision (P x)}
    (l : list Z) :
  StronglySorted Z.lt l → StronglySorted Z.lt (filter P l).
Proof.
  induction 1 as [|x l Hsorted IH Hall]; [constructor|].
  destruct (decide (P x)).
  - rewrite filter_cons_True by done. constructor; [done|].
    apply list.Forall_forall. intros y [_ Hy]%list_elem_of_filter.
    by apply (proj1 (list.Forall_forall _ _) Hall).
  - by rewrite filter_cons_False by done.
Qed.

Lemma StronglySorted_players b : StronglySorted Z.lt (players b).
Proof.
  unfold players, seqZ. generalize (Z.to_nat (_num_players b)) as n.
  generalize 0%nat as k. intros k n. revert k.
  induction n as [|n IH]; intros k; simpl; constructor; [apply IH|].
  apply list.Forall_forall. intros x (j & -> & Hj)%list_elem_of_fmap.
  apply elem_of_seq in Hj. lia.
Qed.

(** X18. [winners] returns [None] exactly when the game is not over.  When
    it is over, the list holds the player numbers whose score is the
    highest and at least -999, in increasing order and once each; it is
    empty only when every score is below -999. *)
Theorem winners_spec b :
  (game_over definitions b = false → winners ONE definitions b = Ok None) ∧
  (game_over definitions b = true →
   ∃ l, winners ONE definitions b = Ok (Some l) ∧
     (∀ p, p ∈ l ↔
        1 ≤ p ≤ _num_players b ∧
        -999 ≤ score_value ONE definitions b p ∧
        ∀ q, 1 ≤ q ≤ _num_players b →
             score_value ONE definitions b q
               ≤ score_value ONE definitions b p) ∧
     StronglySorted Z.lt l ∧
     (l = [] ↔ ∀ q, 1 ≤ q ≤ _num_players b →
                    score_value ONE definitions b q < -999)) ∧
  (∀ p, get_score ONE definitions b p
        = Ok (score_value ONE definitions b p)).
Proof.
  split; [|split]; [| |apply get_score_total].
  { unfold winners. by intros ->. }
  intros Hover. unfold winners. rewrite Hover.
  rewrite winners_high_score. simpl. rewrite winners_list. simpl.
  eexists. split; [done|].
  set (f := score_value ONE definitions b).
  set (high := foldl (λ high p, Z.max high (f p)) (-999) (players b)).
  destruct (foldl_max_ge f (players b) (-999)) as (Hge & Hall & Hattained).
  fold high in Hge, Hall, Hattained.
  assert (Hmem : ∀ p, p ∈ filter (λ p, f p = high) (players b) ↔
                      1 ≤ p ≤ _num_players b ∧ -999 ≤ f p ∧
                      ∀ q, 1 ≤ q ≤ _num_players b → f q ≤ f p).
  { intros p. rewrite list_elem_of_filter, elem_of_players. split.
    - intros [Heq Hp]. split; [done|]. split; [lia|].
      intros q Hq%elem_of_players. rewrite Heq. by apply Hall.
    - intros (Hp & Hlow & Hmax). split; [|done].
      destruct Hattained as [Heq|(q & Hq & Heq)].
      + pose proof (Hall p (proj2 (elem_of_players b p) Hp)). lia.
      + pose proof (Hall p (proj2 (elem_of_players b p) Hp)).
        pose proof (Hmax q (proj1 (elem_of_players b q) Hq)). lia. }
  split; [exact Hmem|]. split.
  - apply StronglySorted_filter_lt, StronglySorted_players.
  - split.
    + intros Hnil q Hq.
      destruct (decide (f q < -999)) as [|Hlow]; [done|].
      destruct Hattained as [Heq|(p & Hp & Heq)].
      * assert (q ∈ filter (λ p, f p = high) (players b)) as Hin.
        { apply list_elem_of_filter. split; [|by apply elem_of_players].
          pose proof (Hall q (proj2 (elem_of_players b q) Hq)). lia. }
        rewrite Hnil in Hin. by apply elem_of_nil in Hin.
      * assert (p ∈ filter (λ p, f p = high) (players b)) as Hin.
        { apply list_elem_of_filter. split; [done|done]. }
        rewrite Hnil in Hin. by apply elem_of_nil in Hin.
    + intros Hlow.
      destruct (filter (λ p, f p = high) (players b)) as [|p l]; [done|].
      assert (Hp : p ∈ p :: l) by (apply elem_of_cons; by left).
      apply Hmem in Hp as (Hp & Hge' & _). specialize (Hlow p Hp). lia.
Qed.

(** ** Reset *)

Lemma new_game_record (num_players board_size : Z) (starts : gset Point) b :
  new_game num_players board_size starts = Ok b →
  b = mkBlokus num_players board_size starts ∅ 1 (empty_grid board_size) 0 [].
Proof.
  unfold new_game.
  repeat (case_bool_decide || destruct (existsb _ _)); try done.
  by intros [= <-].
Qed.

Lemma reachable_parameters b :
  reachable definitions b →
  new_game (ShapeKind := ShapeKind)
           (_num_players b) (_size b) (_start_positions b)
    = Ok (mkBlokus (_num_players b) (_size b) (_start_positions b) ∅ 1
                   (empty_grid (_size b)) 0 []).
Proof.
  induction 1 as [n sz starts b Hnew|b piece ok b' Hreach IH Hplace
                 |b b' Hreach IH Hrem Hretire|b _ IH].
  - pose proof (new_game_record _ _ _ _ Hnew) as ->. simpl.
    by rewrite Hnew.
  - destruct ok; [|by rewrite (maybe_place_false _ _ _ Hplace)].
    by destruct (maybe_place_true _ _ _ Hplace)
      as (? & ? & _ & _ & _ & _ & _ & ->).
  - revert Hretire. unfold retire.
    destruct (advance _ _ _); simpl; [|done..]. by intros [= <-].
  - done.
Qed.

(** X19. In every reachable state the constructor arguments the game was
    built from are still in place, and [reset] gives the state the
    constructor builds from them, with the history of placements kept:
    nobody retired, player 1 to move, no move counted, every player with
    all shapes, and the game not over when there is a shape at all.
    Resetting twice is resetting once. *)
Theorem reset_spec b :
  reachable definitions b →
  (∃ fresh,
     new_game (_num_players b) (_size b) (_start_positions b) = Ok fresh ∧
     reset b = mkBlokus (_num_players fresh) (_size fresh)
                 (_start_positions fresh) (_retired_players fresh)
                 (_curr_player fresh) (_grid fresh) (_num_moves fresh)
                 (_played_pieces b)) ∧
  reset (reset b) = reset b ∧
  _retired_players (reset b) = ∅ ∧ _curr_player (reset b) = 1 ∧
  _num_moves (reset b) = 0 ∧
  (∀ p, remaining_shapes definitions (reset b) p = shapes_keys definitions) ∧
  (definitions ≠ [] → game_over definitions (reset b) = false) ∧
  reachable definitions (reset b).
Proof.
  intros Hreach. split; [|split; [done|]].
  { eexists. split; [by apply reachable_parameters|done]. }
  split; [done|]. split; [done|]. split; [done|].
  pose proof (inv_wf _ _ (reachable_inv _ Hreach)) as Hwf.
  split; [|split].
  - intros p. by apply remaining_shapes_empty_grid.
  - intros Hdefs. apply game_over_fresh; try done. by apply wf_reset.
  - by apply reach_reset.
Qed.

(** ** Shapes from their definitions *)

Lemma scan_line_spec (line : list ascii) (r c : Z) (sqs : list Point)
    (o : Point) (t : bool) :
  ∃ o', scan_line r c line (sqs, o, t)
        = (sqs ++ line_squares r c line, o', t || existsb origin_marker line) ∧
        (existsb origin_marker line = false → o' = o).
Proof.
  revert c sqs o t. induction line as [|ch rest IH]; intros c sqs o t; simpl.
  - exists o. by rewrite app_nil_r, orb_false_r.
  - unfold origin_marker at 1 3.
    destruct (Ascii.eqb ch "X") eqn:HX; simpl.
    + apply Ascii.eqb_eq in HX as ->. simpl.
      destruct (IH (c + 1) (sqs ++ [(r, c)]) o t) as (o' & -> & Ho).
      exists o'. by rewrite <- app_assoc.
    + destruct (Ascii.eqb ch "O") eqn:HO; simpl.
      * destruct (IH (c + 1) (sqs ++ [(r, c)]) (r, c) true) as (o' & -> & Ho).
        exists o'. rewrite <- app_assoc, orb_true_r. by simpl.
      * destruct (Ascii.eqb ch "@") eqn:HA; simpl.
        -- destruct (IH (c + 1) sqs (r, c) true) as (o' & -> & Ho).
           exists o'. rewrite orb_true_r. by simpl.
        -- apply IH.
Qed.

Lemma scan_lines_spec (lines : list (list ascii)) (r : Z) (sqs : list Point)
    (o : Point) (t : bool) :
  ∃ o', scan_lines r lines (sqs, o, t)
        = (sqs ++ lines_squares r lines, o',
           t || existsb origin_marker (concat lines)) ∧
        (existsb origin_marker (concat lines) = false → o' = o).
Proof.
  revert r sqs o t. induction lines as [|line rest IH]; intros r sqs o t; simpl.
  - exists o. by rewrite app_nil_r, orb_false_r.
  - destruct (scan_line_spec line r 0 sqs o t) as (o1 & -> & Ho1).
    destruct (IH (r + 1) (sqs ++ line_squares r 0 line) o1
                 (t || existsb origin_marker line)) as (o2 & -> & Ho2).
    exists o2. rewrite <- app_assoc, existsb_app, orb_assoc. split; [done|].
    intros [Hline Hrest]%orb_false_iff. rewrite Ho2, Ho1; done.
Qed.

Lemma elem_of_line_squares (r c : Z) (line : list ascii) (q : Point) :
  q ∈ line_squares r c line → fst q = r ∧ c ≤ snd q.
Proof.
  revert c. induction line as [|ch rest IH]; intros c; simpl.
  - by intros ?%elem_of_nil.
  - intros [Hq|Hq]%elem_of_app.
    + destruct (_ || _); [|by apply elem_of_nil in Hq].
      apply list_elem_of_singleton in Hq as ->. simpl. lia.
    + apply IH in Hq. lia.
Qed.

Lemma NoDup_line_squares (r c : Z) (line : list ascii) :
  NoDup (line_squares r c line).
Proof.
  revert c. induction line as [|ch rest IH]; intros c; simpl; [constructor|].
  destruct (_ || _); simpl; [|apply IH].
  apply list.NoDup_cons. split; [|apply IH].
  intros Hq%elem_of_line_squares. simpl in Hq. lia.
Qed.

Lemma elem_of_lines_squares (r : Z) (lines : list (list ascii)) (q : Point) :
  q ∈ lines_squares r lines → r ≤ fst q ∧ 0 ≤ snd q.
Proof.
  revert r. induction lines as [|line rest IH]; intros r; simpl.
  - by intros ?%elem_of_nil.
  - intros [Hq%elem_of_line_squares|Hq%IH]%elem_of_app; lia.
Qed.

Lemma NoDup_lines_squares (r : Z) (lines : list (list ascii)) :
  NoDup (lines_squares r lines).
Proof.
  revert r. induction lines as [|line rest IH]; intros r; simpl; [constructor|].
  apply NoDup_app. split; [apply NoDup_line_squares|]. split; [|apply IH].
  intros q Hq%elem_of_line_squares Hq'%elem_of_lines_squares. lia.
Qed.

Lemma length_line_squares (r c : Z) (line : list ascii) :
  length (line_squares r c line)
    = length (filter (λ ch, ch = "X"%char ∨ ch = "O"%char) line).
Proof.
  revert c. induction line as [|ch rest IH]; intros c; simpl; [done|].
  rewrite length_app, IH.
  destruct (Ascii.eqb ch "X") eqn:HX; simpl.
  - apply Ascii.eqb_eq in HX. by rewrite filter_cons_True by auto.
  - destruct (Ascii.eqb ch "O") eqn:HO; simpl.
    + apply Ascii.eqb_eq in HO. by rewrite filter_cons_True by auto.
    + apply Ascii.eqb_neq in HX, HO.
      by rewrite filter_cons_False by (by intros [?|?]).
Qed.

Lemma length_lines_squares (r : Z) (lines : list (list ascii)) :
  length (lines_squares r lines)
    = length (filter (λ ch, ch = "X"%char ∨ ch = "O"%char) (concat lines)).
Proof.
  revert r. induction lines as [|line rest IH]; intros r; simpl; [done|].
  by rewrite length_app, filter_app, length_app, IH, length_line_squares.
Qed.

(** What [split] and [dedent] leave of the text: every character that is
    neither a blank nor a line feed, in the same order. *)
Section Kept.

Variable P : ascii → Prop.
Context `{!∀ ch, Decision (P ch)}.
Hypothesis not_blank : ∀ ch, is_blank ch = true → ¬ P ch.
Hypothesis not_break : ¬ P "010"%char.

Lemma split_lines_cons (l : list ascii) :
  ∃ line lines, split_lines l = line :: lines.
Proof.
  induction l as [|ch rest (line & lines & IH)]; simpl; [by eexists _, _|].
  destruct (Ascii.eqb ch "010"); [by eexists _, _|].
  rewrite IH. by eexists _, _.
Qed.

Lemma filter_split_lines (l : list ascii) :
  filter P (concat (split_lines l)) = filter P l.
Proof.
  induction l as [|ch rest IH]; simpl; [done|].
  destruct (Ascii.eqb ch "010") eqn:Hbreak; simpl.
  - apply Ascii.eqb_eq in Hbreak as ->.
    by rewrite filter_cons_False, IH by done.
  - destruct (split_lines_cons rest) as (line & lines & Hsplit).
    rewrite Hsplit in IH |- *. simpl in IH |- *.
    destruct (decide (P ch)).
    + by rewrite !filter_cons_True, IH by done.
    + by rewrite !filter_cons_False, IH by done.
Qed.

Lemma filter_concat_map (g : list ascii → list ascii) (lines : list (list ascii)) :
  (∀ line, line ∈ lines → filter P (g line) = filter P line) →
  filter P (concat (map g lines)) = filter P (concat lines).
Proof.
  induction lines as [|line rest IH]; intros Hg; simpl; [done|].
  rewrite !filter_app, Hg, IH; [done| |apply elem_of_cons; by left].
  intros x Hx. apply Hg, elem_of_cons. by right.
Qed.

Lemma filter_blank_line (line : list ascii) :
  forallb is_blank line = true → filter P line = [].
Proof.
  induction line as [|ch rest IH]; simpl; [done|].
  intros [Hch Hrest]%andb_true_iff.
  rewrite filter_cons_False by (by apply not_blank). auto.
Qed.

Lemma indent_of_prefix (line : list ascii) :
  ∃ rest, line = indent_of line ++ rest ∧
          forallb is_blank (indent_of line) = true.
Proof.
  induction line as [|ch line (rest & IH & Hblank)]; simpl; [by exists []|].
  destruct (is_blank ch) eqn:Hch; simpl.
  - exists rest. rewrite Hch, Hblank. by rewrite <- IH.
  - by eexists.
Qed.

Lemma filter_drop_indent (line : list ascii) (m : nat) :
  (m ≤ length (indent_of line))%nat → filter P (drop m line) = filter P line.
Proof.
  intros Hm. destruct (indent_of_prefix line) as (rest & Hline & Hblank).
  rewrite Hline at 1 2. rewrite drop_app_le by done.
  rewrite !filter_app. f_equal.
  rewrite (filter_blank_line (indent_of line)) by done.
  apply filter_blank_line.
  rewrite <- (take_drop m (indent_of line)), forallb_app in Hblank.
  by apply andb_true_iff in Hblank as [_ ?].
Qed.

Lemma length_common_prefix (x y : list ascii) :
  (length (common_prefix x y) ≤ length x)%nat ∧
  (length (common_prefix x y) ≤ length y)%nat.
Proof.
  revert y. induction x as [|a x IH]; intros [|b y]; simpl; try lia.
  destruct (Ascii.eqb a b); simpl; [|lia]. destruct (IH y). lia.
Qed.

Lemma length_foldl_common_prefix (rest : list (list ascii)) (i : list ascii) :
  (length (foldl common_prefix i rest) ≤ length i)%nat.
Proof.
  revert i. induction rest as [|y rest IH]; intros i; simpl; [done|].
  specialize (IH (common_prefix i y)).
  destruct (length_common_prefix i y). lia.
Qed.

Lemma length_margin (i : list ascii) (rest : list (list ascii)) (x : list ascii) :
  x ∈ i :: rest →
  (length (foldl common_prefix i rest) ≤ length x)%nat.
Proof.
  revert i. induction rest as [|y rest IH]; intros i.
  - by intros ->%list_elem_of_singleton.
  - simpl. pose proof (length_foldl_common_prefix rest (common_prefix i y)).
    destruct (length_common_prefix i y).
    intros [->|[->|Hx]%elem_of_cons]%elem_of_cons; [lia|lia|].
    apply IH. apply elem_of_cons. by right.
Qed.

Lemma filter_dedent_lines (lines : list (list ascii)) :
  filter P (concat (dedent_lines lines)) = filter P (concat lines).
Proof.
  unfold dedent_lines.
  set (lines' := map (λ line, if forallb is_blank line then [] else line) lines).
  set (indents := map indent_of (filter (λ line, line ≠ []) lines')).
  transitivity (filter P (concat lines')).
  - apply filter_concat_map. intros line Hline.
    case_bool_decide as Hnil; [by subst|].
    apply filter_drop_indent.
    assert (Hin : indent_of line ∈ indents).
    { apply list_elem_of_fmap. exists line. split; [done|].
      by apply list_elem_of_filter. }
    destruct indents as [|i rest]; [by apply elem_of_nil in Hin|].
    by apply length_margin.
  - apply filter_concat_map. intros line _.
    destruct (forallb is_blank line) eqn:Hblank; [|done].
    by rewrite (filter_blank_line line).
Qed.

Lemma concat_filter_nonempty (lines : list (list ascii)) :
  concat (filter (λ line, line ≠ []) lines) = concat lines.
Proof.
  induction lines as [|line rest IH]; simpl; [done|].
  destruct (decide (line ≠ [])) as [Hne|Hnil].
  - rewrite filter_cons_True by done. simpl. by rewrite IH.
  - rewrite filter_cons_False by done.
    apply dec_stable in Hnil as ->. by rewrite IH.
Qed.

Lemma filter_scanned_lines (l : list ascii) :
  filter P (concat (filter (λ line, line ≠ [])
                           (dedent_lines (split_lines l))))
  = filter P l.
Proof.
  by rewrite concat_filter_nonempty, filter_dedent_lines, filter_split_lines.
Qed.

End Kept.

Lemma from_string_scanned (k : ShapeKind) (text : string) :
  let lines := filter (λ line, line ≠ [])
                 (dedent_lines (split_lines (list_ascii_of_string text))) in
  ∃ o, from_string k text
       = mkShape k o (existsb origin_marker (concat lines))
           (map (λ point, (fst point - fst o, snd point - snd o))
                (lines_squares 0 lines)) ∧
       (existsb origin_marker (concat lines) = false → o = (0, 0)).
Proof.
  intros lines. unfold from_string. fold lines.
  destruct (scan_lines_spec lines 0 [] (0, 0) false) as (o & -> & Ho).
  by exists o.
Qed.

Lemma existsb_origin_marker (l : list ascii) :
  existsb origin_marker l = true ↔
  ∃ ch, ch ∈ filter (λ ch, ch = "O"%char ∨ ch = "@"%char) l.
Proof.
  rewrite existsb_exists. unfold origin_marker. split.
  - intros (ch & Hch%list_elem_of_In & Hom). exists ch.
    apply list_elem_of_filter. split; [|done].
    apply orb_true_iff in Hom as [?%Ascii.eqb_eq|?%Ascii.eqb_eq]; auto.
  - intros (ch & [Hom Hch]%list_elem_of_filter). exists ch.
    split; [by apply list_elem_of_In|].
    apply orb_true_iff. destruct Hom as [->| ->]; [left|right];
      apply Ascii.eqb_refl.
Qed.

Lemma blank_not_square (ch : ascii) :
  is_blank ch = true → ¬ (ch = "X"%char ∨ ch = "O"%char).
Proof. by intros Hblank [->| ->]. Qed.

Lemma blank_not_origin (ch : ascii) :
  is_blank ch = true → ¬ (ch = "O"%char ∨ ch = "@"%char).
Proof. by intros Hblank [->| ->]. Qed.

Lemma length_squares_from_string (k : ShapeKind) (text : string) :
  Z.of_nat (length (squares (from_string k text))) = count_squares text.
Proof.
  destruct (from_string_scanned k text) as (o & -> & Ho). simpl.
  rewrite length_map, length_lines_squares. unfold count_squares.
  by rewrite (filter_scanned_lines _ blank_not_square) by (by intros [?|?]).
Qed.

(** X20. The shape [Shape.from_string] builds has the given kind and one
    square for every ["X"] and ["O"] of the text, all different.  It can be
    transformed exactly when the text holds an ["O"] or an ["@"]; when it
    holds neither, the origin stays [(0, 0)] and no square has a negative
    coordinate. *)
Theorem from_string_spec (k : ShapeKind) (text : string) :
  kind (from_string k text) = k ∧
  NoDup (squares (from_string k text)) ∧
  Z.of_nat (length (squares (from_string k text))) = count_squares text ∧
  (can_be_transformed (from_string k text) = true ↔
   ∃ ch, ch ∈ list_ascii_of_string text ∧ (ch = "O"%char ∨ ch = "@"%char)) ∧
  (can_be_transformed (from_string k text) = false →
   origin (from_string k text) = (0, 0) ∧
   ∀ sq, sq ∈ squares (from_string k text) → 0 ≤ fst sq ∧ 0 ≤ snd sq).
Proof.
  pose proof (length_squares_from_string k text) as Hlen.
  destruct (from_string_scanned k text) as (o & Heq & Ho).
  rewrite Heq in Hlen |- *. simpl in Hlen |- *.
  split; [done|]. split; [|split; [|split]].
  - apply NoDup_fmap_2; [|apply NoDup_lines_squares].
    intros [r c] [r' c'] [=]. f_equal; lia.
  - done.
  - rewrite existsb_origin_marker.
    rewrite (filter_scanned_lines _ blank_not_origin) by (by intros [?|?]).
    split.
    + intros (ch & [? ?]%list_elem_of_filter). by exists ch.
    + intros (ch & ? & ?). exists ch. by apply list_elem_of_filter.
  - intros Hom. rewrite (Ho Hom). split; [done|].
    intros sq (q & -> & Hq%elem_of_lines_squares)%list_elem_of_fmap.
    simpl. lia.
Qed.

Lemma length_squares_iter_rotate (n : nat) (sh : Shape ShapeKind) :
  length (squares (Nat.iter n rotate_right sh)) = length (squares sh) ∧
  (NoDup (squares sh) → NoDup (squares (Nat.iter n rotate_right sh))).
Proof.
  induction n as [|n [IHlen IHnd]]; simpl; [done|].
  unfold rotate_right at 1 3.
  destruct (can_be_transformed _); simpl; [|done].
  rewrite length_map. split; [done|]. intros Hnd.
  apply NoDup_fmap_2; [|auto].
  intros [r c] [r' c'] [=]. f_equal; lia.
Qed.

(** X21. A piece built by [Piece(shape, face_up, rotation)] and anchored
    anywhere covers as many squares as the shape has, and covers different
    squares when those of the shape are different. *)
Theorem piece_covers_shape (sh : Shape ShapeKind) (face_up : bool)
    (rotation : Z) (a : Point) :
  ∃ sqs,
    piece_squares (set_anchor (new_piece sh face_up rotation) a) = Ok sqs ∧
    length sqs = length (squares sh) ∧
    (NoDup (squares sh) → NoDup sqs) ∧
    kind (shape (new_piece sh face_up rotation)) = kind sh.
Proof.
  eexists. split; [by apply piece_squares_anchored|]. simpl.
  set (sh1 := if face_up then sh else flip_horizontally sh).
  assert (Hflip : length (squares sh1) = length (squares sh) ∧
                  (NoDup (squares sh) → NoDup (squares sh1)) ∧
                  kind sh1 = kind sh).
  { unfold sh1, flip_horizontally. destruct face_up; [done|].
    destruct (can_be_transformed sh); simpl; [|done].
    rewrite length_map. split; [done|]. split; [|done]. intros Hnd.
    apply NoDup_fmap_2; [|done].
    intros [r c] [r' c'] [=]. f_equal; lia. }
  destruct Hflip as (Hlen & Hnd & Hkind).
  destruct (length_squares_iter_rotate (Z.to_nat (rotation `mod` 4)) sh1)
    as [Hlen' Hnd'].
  rewrite length_map, Hlen', Hlen. split; [done|]. split.
  - intros Hsh. apply NoDup_fmap_2; [|auto].
    intros [r c] [r' c'] [=]. f_equal; lia.
  - rewrite <- Hkind. clear.
    induction (Z.to_nat (rotation `mod` 4)) as [|n IH]; simpl; [done|].
    unfold rotate_right at 1. by destruct (can_be_transformed _).
Qed.

Lemma shapes_get_definitions (k : ShapeKind) :
  shapes_get definitions k
    = from_string k <$> definitions_get definitions k.
Proof.
  unfold shapes_get, definitions_get, shapes.
  rewrite list_find_fmap.
  destruct (list_find _ definitions) as [[i [k' text]]|] eqn:Hfind; simpl;
    [|done].
  apply list_find_Some in Hfind as (_ & Hk & _). simpl in Hk. by subst.
Qed.

Lemma score_counts_squares (l : list ShapeKind) :
  Forall (λ kv, Forall marker_char (list_ascii_of_string (snd kv)))
         definitions →
  foldr Z.add 0
    (map (λ k, default 0 (definition_length
                            <$> definitions_get definitions k)) l)
  = foldr Z.add 0
      (map (λ k, default 0 ((λ sh, Z.of_nat (length (squares sh)))
                              <$> shapes_get definitions k)) l).
Proof.
  intros Htexts. induction l as [|k l IH]; simpl; [done|].
  rewrite IH, shapes_get_definitions. f_equal.
  unfold definitions_get.
  destruct (list_find _ definitions) as [[i [k' text]]|] eqn:Hfind; simpl;
    [|done].
  apply list_find_Some in Hfind as (Hi & _ & _).
  pose proof (proj1 (list.Forall_forall _ _) Htexts _
                (list_elem_of_lookup_2 _ _ _ Hi)) as Htext. simpl in Htext.
  rewrite definition_length_squares by done.
  by rewrite length_squares_from_string.
Qed.

Lemma definitions_get_key (k : ShapeKind) :
  k ∈ shapes_keys definitions ↔ is_Some (definitions_get definitions k).
Proof.
  unfold definitions_get, shapes_keys. rewrite fmap_is_Some. split.
  - intros ([k' text] & -> & Hkv)%list_elem_of_fmap.
    by apply (list_find_elem_of _ definitions (k', text)).
  - intros [[i [k' text]] (Hi & Hk & _)%list_find_Some]. simpl in Hk. subst.
    apply list_elem_of_fmap. exists (k, text). split; [done|].
    by apply list_elem_of_lookup_2 in Hi.
Qed.

(** X22. When the definition texts hold nothing but the three markers,
    blanks and line feeds, the score of a player with shapes left is minus
    the number of squares of those shapes, as [self.shapes] has them; each
    such shape is in [self.shapes] and has the squares its text shows. *)
Theorem score_is_minus_squares b (player : Z) :
  Forall (λ kv, Forall marker_char (list_ascii_of_string (snd kv)))
         definitions →
  remaining_shapes definitions b player ≠ [] →
  get_score ONE definitions b player
    = Ok (- foldr Z.add 0
              (map (λ k, default 0 ((λ sh, Z.of_nat (length (squares sh)))
                                      <$> shapes_get definitions k))
                   (remaining_shapes definitions b player))) ∧
  ∀ k, k ∈ remaining_shapes definitions b player →
    ∃ text, definitions_get definitions k = Some text ∧
            shapes_get definitions k = Some (from_string k text) ∧
            Z.of_nat (length (squares (from_string k text)))
              = definition_length text.
Proof.
  intros Htexts Hrem. split.
  - rewrite get_score_unplayed by done. by rewrite score_counts_squares.
  - intros k [_ Hk]%list_elem_of_filter.
    apply definitions_get_key in Hk as [text Hget]. exists text.
    split; [done|]. rewrite shapes_get_definitions, Hget. split; [done|].
    rewrite length_squares_from_string. symmetry.
    apply definition_length_squares.
    unfold definitions_get in Hget.
    destruct (list_find _ definitions) as [[i [k' text']]|] eqn:Hfind;
      simpl in Hget; [|done].
    injection Hget as ->.
    apply list_find_Some in Hfind as (Hi & _ & _).
    exact (proj1 (list.Forall_forall _ _) Htexts _
             (list_elem_of_lookup_2 _ _ _ Hi)).
Qed.

(** ** Available moves *)

Lemma elem_of_flat_map {A B} (f : A → list B) (l : list A) (y : B) :
  y ∈ flat_map f l ↔ ∃ x, x ∈ l ∧ y ∈ f x.
Proof.
  split.
  - intros (x & Hx & Hy)%list_elem_of_In%in_flat_map.
    exists x. split; by apply list_elem_of_In.
  - intros (x & Hx & Hy). apply list_elem_of_In, in_flat_map.
    exists x. split; by apply list_elem_of_In.
Qed.

Lemma elem_of_board_points b (rc : Point) :
  rc ∈ board_points b ↔ 0 ≤ fst rc < _size b ∧ 0 ≤ snd rc < _size b.
Proof.
  unfold board_points. rewrite elem_of_flat_map. split.
  - intros (r & Hr%elem_of_seqZ & (c & -> & Hc%elem_of_seqZ)%list_elem_of_fmap).
    simpl. lia.
  - intros [Hr Hc]. exists (fst rc). split; [apply elem_of_seqZ; lia|].
    apply list_elem_of_fmap. exists (snd rc).
    split; [by destruct rc|apply elem_of_seqZ; lia].
Qed.

Lemma shapes_get_remaining b (p : Z) (k : ShapeKind) :
  k ∈ remaining_shapes definitions b p →
  ∃ sh, shapes_get definitions k = Some sh ∧ kind sh = k.
Proof.
  intros [_ Hk]%list_elem_of_filter.
  apply definitions_get_key in Hk as [text Hget].
  exists (from_string k text). rewrite shapes_get_definitions, Hget.
  split; [done|]. unfold from_string. by destruct (scan_lines _ _ _) as [[? ?] ?].
Qed.

Lemma available_moves_inner b (rc : Point) (ks : list ShapeKind)
    (acc : list (Piece ShapeKind)) :
  wf b →
  (∀ k, k ∈ ks → k ∈ remaining_shapes definitions b (_curr_player b)) →
  foldl (λ acc shape_kind,
           possible_moves ← acc;
           sh ← shapes_get definitions shape_kind;
           let piece := set_anchor (new_piece sh true 0) rc in
           match legal_to_place definitions b piece with
           | Ok true => Some (possible_moves ++ [piece])
           | Ok false => Some possible_moves
           | _ => None
           end) (Some acc) ks
  = Some (acc ++ flat_map (λ k,
            match shapes_get definitions k with
            | Some sh =>
                match legal_to_place definitions b
                        (set_anchor (new_piece sh true 0) rc) with
                | Ok true => [set_anchor (new_piece sh true 0) rc]
                | _ => []
                end
            | None => []
            end) ks).
Proof.
  intros Hwf. revert acc. induction ks as [|k ks IH]; intros acc Hks; simpl.
  - by rewrite app_nil_r.
  - destruct (shapes_get_remaining b (_curr_player b) k) as (sh & -> & Hkind).
    { apply Hks, elem_of_cons. by left. }
    simpl.
    destruct (legal_to_place_returns b (set_anchor (new_piece sh true 0) rc))
      as (v & -> & _); [done| |done|].
    { simpl. rewrite Hkind. apply Hks, elem_of_cons. by left. }
    destruct v; rewrite IH.
    + by rewrite <- app_assoc.
    + intros k' Hk'. apply Hks, elem_of_cons. by right.
    + done.
    + intros k' Hk'. apply Hks, elem_of_cons. by right.
Qed.

Lemma available_moves_outer b (pts : list Point) (acc : list (Piece ShapeKind)) :
  wf b →
  foldl (λ acc rc,
    foldl (λ acc shape_kind,
             possible_moves ← acc;
             sh ← shapes_get definitions shape_kind;
             let piece := set_anchor (new_piece sh true 0) rc in
             match legal_to_place definitions b piece with
             | Ok true => Some (possible_moves ++ [piece])
             | Ok false => Some possible_moves
             | _ => None
             end) acc (remaining_shapes definitions b (_curr_player b)))
    (Some acc) pts
  = Some (acc ++ flat_map (λ rc, flat_map (λ k,
            match shapes_get definitions k with
            | Some sh =>
                match legal_to_place definitions b
                        (set_anchor (new_piece sh true 0) rc) with
                | Ok true => [set_anchor (new_piece sh true 0) rc]
                | _ => []
                end
            | None => []
            end) (remaining_shapes definitions b (_curr_player b))) pts).
Proof.
  intros Hwf. revert acc. induction pts as [|rc pts IH]; intros acc; simpl.
  - by rewrite app_nil_r.
  - rewrite available_moves_inner by done. rewrite IH.
    by rewrite <- app_assoc.
Qed.

(** X23. On a well-formed game [available_moves] returns without an
    exception.  Its pieces are exactly the shapes the current player has
    left, as [self.shapes] holds them, anchored at a cell of the board where
    [legal_to_place] accepts them; no piece is flipped or rotated.  While
    the current player is not retired, [maybe_place] accepts every one of
    them. *)
Theorem available_moves_spec b :
  wf b →
  ∃ moves, available_moves definitions b = Some moves ∧
    (∀ piece, piece ∈ moves ↔
       ∃ (rc : Point) (k : ShapeKind) (sh : Shape ShapeKind),
         in_board b rc ∧
         k ∈ remaining_shapes definitions b (_curr_player b) ∧
         shapes_get definitions k = Some sh ∧
         piece = mkPiece sh (Some rc) ∧
         legal_to_place definitions b piece = Ok true) ∧
    (_curr_player b ∉ _retired_players b →
     ∀ piece, piece ∈ moves →
       ∃ b', maybe_place definitions b piece = Ok (true, b')).
Proof.
  intros Hwf. unfold available_moves.
  rewrite available_moves_outer by done. simpl.
  eexists. split; [done|].
  match goal with |- ?A ∧ _ => assert (Hmem : A) end.
  { intros piece. rewrite elem_of_flat_map. split.
    - intros (rc & Hrc%elem_of_board_points & Hpiece).
      apply elem_of_flat_map in Hpiece as (k & Hk & Hpiece).
      destruct (shapes_get definitions k) as [sh|] eqn:Hsh;
        [|by apply elem_of_nil in Hpiece].
      destruct (legal_to_place _ _ _) as [[|]| |] eqn:Hlegal;
        try (by apply elem_of_nil in Hpiece).
      apply list_elem_of_singleton in Hpiece as ->.
      by exists rc, k, sh.
    - intros (rc & k & sh & Hrc & Hk & Hsh & -> & Hlegal).
      exists rc. split; [by apply elem_of_board_points|].
      apply elem_of_flat_map. exists k. split; [done|].
      rewrite Hsh.
      change (set_anchor (new_piece sh true 0) rc) with (mkPiece sh (Some rc)).
      rewrite Hlegal. by apply list_elem_of_singleton. }
  split; [exact Hmem|].
  intros Hact piece (rc & k & sh & _ & _ & _ & _ & Hlegal)%Hmem.
  by apply maybe_place_legal.
Qed.

(** ** After the end, and the score along the game *)

(** X24. In a reachable state where the game is over, [maybe_place]
    places nothing: whenever it returns, it returns false and leaves the
    state as it is.  A [retire] that is called as its docstring says, for
    a current player with shapes left, changes neither the retired set nor
    the grid, and the game stays over. *)
Theorem game_over_is_final b :
  reachable definitions b → game_over definitions b = true →
  (∀ piece (ok : bool) b',
     maybe_place definitions b piece = Ok (ok, b') → ok = false ∧ b' = b) ∧
  (∀ b', remaining_shapes definitions b (_curr_player b) ≠ [] →
         retire b = Ok b' →
         game_over definitions b' = true ∧
         _retired_players b' = _retired_players b ∧ _grid b' = _grid b).
Proof.
  intros Hreach Hover.
  pose proof (reachable_inv _ Hreach) as Hinv.
  pose proof (inv_wf _ _ Hinv) as Hwf.
  pose proof (proj1 (game_over_iff b Hinv) Hover) as Hdone.
  split.
  - intros piece ok b' Hplace. destruct ok.
    + destruct (maybe_place_true _ _ _ Hplace) as (_ & _ & Hact & _ & Hk & _).
      destruct (Hdone _ (wf_curr _ Hwf)) as [Hret|Hnil]; [done|].
      rewrite Hnil in Hk. by apply elem_of_nil in Hk.
    + split; [done|]. by apply (maybe_place_false b piece).
  - intros b' Hrem Hretire.
    assert (Hin : _curr_player b ∈ _retired_players b).
    { by destruct (Hdone _ (wf_curr _ Hwf)) as [Hret|Hnil]. }
    assert (Hreach' : reachable definitions b') by (by eapply reach_retire).
    pose proof (retire_grid _ _ Hretire) as Hgrid.
    assert (Hsame : _retired_players b' = _retired_players b ∧
                    _num_players b' = _num_players b).
    { revert Hretire. unfold retire.
      rewrite bool_decide_eq_false_2 by (by intros ?).
      destruct (advance _ _ _); simpl; [|done..]. by intros [= <-]. }
    destruct Hsame as [Hretired Hn].
    split; [|done].
    apply (game_over_iff b' (reachable_inv _ Hreach')).
    intros p Hp. rewrite Hn in Hp.
    destruct (Hdone p Hp) as [Hret|Hnil].
    + left. by rewrite Hretired.
    + right. by rewrite (remaining_shapes_grid _ _ _ Hgrid).
Qed.

Lemma sum_filter_ne (f : ShapeKind → Z) (l : list ShapeKind) (k : ShapeKind) :
  NoDup l → k ∈ l →
  foldr Z.add 0 (map f (filter (λ sk, sk ≠ k) l))
    = foldr Z.add 0 (map f l) - f k.
Proof.
  induction l as [|x l IH]; intros Hnd Hk; [by apply elem_of_nil in Hk|].
  apply list.NoDup_cons in Hnd as [Hx Hnd].
  apply elem_of_cons in Hk as [->|Hk].
  - rewrite filter_cons_False by (by intros ?). simpl.
    assert (Hfilter : filter (λ sk, sk ≠ x) l = l).
    { clear -Hx. induction l as [|y l IH]; [done|].
      rewrite filter_cons_True.
      - f_equal. apply IH. intros ?. apply Hx, elem_of_cons. by right.
      - intros ->. apply Hx, elem_of_cons. by left. }
    rewrite Hfilter. lia.
  - rewrite filter_cons_True by (by intros ->). simpl.
    rewrite IH by done. lia.
Qed.

Lemma has_bonus_snoc (hist : list (Z * ShapeKind)) (entry : Z * ShapeKind)
    (player : Z) :
  fst entry ≠ player →
  has_bonus ONE (hist ++ [entry]) player = has_bonus ONE hist player.
Proof.
  intros Hentry. apply eq_true_iff_eq. rewrite !has_bonus_true.
  destruct hist as [|h hist]; simpl.
  - split; by intros ?%elem_of_nil.
  - rewrite drop_0, elem_of_app, list_elem_of_singleton. split; [|by left].
    intros [?|Heq]; [done|]. destruct Hentry. by rewrite <- Heq.
Qed.

(** X25. A successful [maybe_place] that leaves the player with shapes
    raises that player's score by the stripped length of the definition of
    the kind placed, and leaves every other player's score as it was. *)
Theorem placement_raises_score b piece b' :
  NoDup (shapes_keys definitions) → wf b →
  maybe_place definitions b piece = Ok (true, b') →
  (remaining_shapes definitions b' (_curr_player b) ≠ [] →
   ∃ text,
     definitions_get definitions (kind (shape piece)) = Some text ∧
     score_value ONE definitions b' (_curr_player b)
       = score_value ONE definitions b (_curr_player b)
         + definition_length text) ∧
  (∀ q, q ≠ _curr_player b →
        get_score ONE definitions b' q = get_score ONE definitions b q).
Proof.
  intros Hkeys Hwf Hplace.
  pose proof (remaining_shapes_placed b piece b') as Hrem.
  destruct (maybe_place_true _ _ _ Hplace)
    as (sqs & c & _ & _ & Hk & _ & _ & Hb').
  split.
  - intros Hleft.
    assert (Hold : remaining_shapes definitions b (_curr_player b) ≠ []).
    { intros Hnil. rewrite Hnil in Hk. by apply elem_of_nil in Hk. }
    pose proof Hk as [_ Hkey]%list_elem_of_filter.
    apply definitions_get_key in Hkey as [text Htext]. exists text.
    split; [done|]. unfold score_value.
    rewrite !get_score_unplayed by done.
    rewrite (Hrem (_curr_player b) Hwf Hplace), decide_True by done.
    rewrite (sum_filter_ne _ _ (kind (shape piece)));
      [|by apply NoDup_remaining_shapes|done].
    rewrite Htext. simpl. lia.
  - intros q Hq.
    pose proof (Hrem q Hwf Hplace) as Hremq.
    rewrite decide_False in Hremq by done.
    destruct (decide (remaining_shapes definitions b q = [])) as [Hnil|Hsome].
    + rewrite !get_score_exhausted by congruence.
      rewrite Hb'. simpl. rewrite has_bonus_snoc; [done|]. simpl. congruence.
    + rewrite !get_score_unplayed by congruence. by rewrite Hremq.
Qed.

(** ** Moving the pending piece *)

Lemma unless_wall_anchored b (prev_state piece : Piece ShapeKind) (a : Point) :
  anchor piece = Some a →
  ∃ wall : bool,
    any_wall_collisions b piece = Ok wall ∧
    unless_wall b prev_state piece
      = Ok (piece, if wall then prev_state else piece).
Proof.
  intros Ha. unfold unless_wall, any_wall_collisions.
  rewrite (piece_squares_anchored _ _ Ha). simpl. by eexists.
Qed.

Lemma unless_wall_unanchored b (prev_state piece : Piece ShapeKind) :
  anchor piece = None → unless_wall b prev_state piece = Raise NoAnchorSet.
Proof.
  intros Ha. unfold unless_wall, any_wall_collisions, piece_squares.
  by rewrite Ha.
Qed.

Lemma unless_wall_keeps b (prev_state piece ret moved : Piece ShapeKind) :
  unless_wall b prev_state piece = Ok (moved, ret) →
  moved = piece ∧
  (any_wall_collisions b piece = Ok false → ret = piece) ∧
  (any_wall_collisions b piece = Ok true → ret = prev_state) ∧
  (any_wall_collisions b prev_state = Ok false →
   any_wall_collisions b ret = Ok false).
Proof.
  unfold unless_wall.
  destruct (any_wall_collisions b piece) as [[|]| |] eqn:Hwall; simpl;
    [| |done..]; intros [= <- <-]; by repeat split.
Qed.

Lemma foldl_target_fixed (t : Point) (sqs : list Point) :
  foldl (λ o' sq, if bool_decide (sq = o') then t else o') t sqs = t.
Proof.
  induction sqs as [|sq sqs IH]; simpl; [done|]. by case_bool_decide.
Qed.

Lemma foldl_target (o t : Point) (sqs : list Point) :
  foldl (λ o' sq, if bool_decide (sq = o') then t else o') o sqs
    = if decide (o ∈ sqs) then t else o.
Proof.
  induction sqs as [|sq sqs IH]; simpl.
  - destruct (decide (o ∈ [])) as [Hin|]; [|done]. by apply elem_of_nil in Hin.
  - case_bool_decide as Hsq.
    + subst. rewrite foldl_target_fixed.
      destruct (decide (o ∈ o :: sqs)) as [|Hnot]; [done|].
      destruct Hnot. apply elem_of_cons. by left.
    + rewrite IH. destruct (decide (o ∈ sqs)) as [Hin|Hin],
        (decide (o ∈ sq :: sqs)) as [Hin'|Hin']; try done.
      * destruct Hin'. apply elem_of_cons. by right.
      * apply elem_of_cons in Hin' as [->|?]; done.
Qed.

(** X26. [TuiBoard.shift] raises the anchor error for a piece without
    anchor.  Otherwise it moves every square of the shape by
    [(new_x, new_y)], the origin too when it is one of the squares, and
    returns the moved piece unless that collides with a wall, in which case
    it returns the piece as it was.  Kind, anchor and transformability are
    kept, and a piece that is on the board is answered by a piece that is
    on the board.  Shifting back moves the squares back. *)
Theorem tui_shift_spec b piece (new_y new_x : Z) :
  (anchor piece = None →
   tui_shift b piece new_y new_x = Raise NoAnchorSet) ∧
  (∀ a : Point, anchor piece = Some a →
   ∃ moved ret,
     tui_shift b piece new_y new_x = Ok (moved, ret) ∧
     squares (shape moved)
       = map (λ sq, (fst sq + new_x, snd sq + new_y)) (squares (shape piece)) ∧
     origin (shape moved)
       = (if decide (origin (shape piece) ∈ squares (shape piece))
          then (fst (origin (shape piece)) + new_x,
                snd (origin (shape piece)) + new_y)
          else origin (shape piece)) ∧
     kind (shape moved) = kind (shape piece) ∧
     can_be_transformed (shape moved) = can_be_transformed (shape piece) ∧
     anchor moved = Some a ∧
     (any_wall_collisions b moved = Ok false → ret = moved) ∧
     (any_wall_collisions b moved = Ok true → ret = piece) ∧
     (any_wall_collisions b piece = Ok false →
      any_wall_collisions b ret = Ok false) ∧
     ∃ back ret',
       tui_shift b moved (- new_y) (- new_x) = Ok (back, ret') ∧
       squares (shape back) = squares (shape piece)).
Proof.
  split.
  - intros Ha. unfold tui_shift. by apply unless_wall_unanchored.
  - intros a Ha. unfold tui_shift.
    match goal with |- context [unless_wall b piece ?m] => set (moved := m) end.
    destruct (unless_wall_anchored b piece moved a Ha) as (wall & Hwall & Hret).
    exists moved, (if wall then piece else moved). split; [done|].
    split; [done|]. split; [apply foldl_target|].
    split; [done|]. split; [done|]. split; [done|].
    split; [by intros; destruct wall; [congruence|]|].
    split; [by intros; destruct wall; [|congruence]|].
    split; [by destruct wall|].
    match goal with |- context [unless_wall b moved ?m] => set (back := m) end.
    destruct (unless_wall_anchored b moved back a Ha) as (wall' & _ & Hret').
    exists back, (if wall' then moved else back). split; [done|].
    simpl. unfold moved_by. rewrite <- list_fmap_compose.
    rewrite <- (list_fmap_id (squares (shape piece))) at 2.
    apply list_fmap_ext. intros _ [r c] _. simpl. f_equal; lia.
Qed.

Lemma recentre_anchored b (prev_state : Piece ShapeKind)
    (turned : Shape ShapeKind) (a d : Point) :
  anchor prev_state = Some a →
  ∃ moved ret,
    recentre b prev_state turned (Some a) d = Ok (moved, ret) ∧
    squares (shape moved) = moved_by d (squares turned) ∧
    kind (shape moved) = kind turned ∧
    can_be_transformed (shape moved) = can_be_transformed turned ∧
    anchor moved = Some a ∧
    (any_wall_collisions b moved = Ok false → ret = moved) ∧
    (any_wall_collisions b moved = Ok true → ret = prev_state) ∧
    (any_wall_collisions b prev_state = Ok false →
     any_wall_collisions b ret = Ok false).
Proof.
  intros Ha. unfold recentre.
  match goal with |- context [unless_wall b prev_state ?m] => set (moved := m) end.
  destruct (unless_wall_anchored b prev_state moved a eq_refl)
    as (wall & Hwall & Hret).
  exists moved, (if wall then prev_state else moved). split; [done|].
  split; [done|]. split; [done|]. split; [done|]. split; [done|].
  split; [by intros; destruct wall; [congruence|]|].
  split; [by intros; destruct wall; [|congruence]|].
  by destruct wall.
Qed.

(** X27. [TuiBoard.rotate] raises the anchor error for a piece without
    anchor.  Otherwise it returns: the squares of a shape that can be
    transformed are turned by a quarter about the origin of the shape, to
    the right for ["R"] and to the left for ["L"], and stay for any other
    direction; the squares of a shape that cannot be transformed are not
    turned but moved by the difference of the origin and the turned origin.
    The changed piece is returned unless it collides with a wall, in which
    case the piece as it was is returned; kind, anchor and the number of
    squares are kept, and a piece on the board is answered by a piece on
    the board. *)
Theorem tui_rotate_spec b piece (direction : string) :
  (anchor piece = None → tui_rotate b piece direction = Raise NoAnchorSet) ∧
  (∀ a : Point, anchor piece = Some a →
   ∃ moved ret,
     tui_rotate b piece direction = Ok (moved, ret) ∧
     (can_be_transformed (shape piece) = true →
      squares (shape moved)
        = map (λ sq,
            let o := origin (shape piece) in
            if String.eqb direction "R"
            then (fst o + (snd sq - snd o), snd o - (fst sq - fst o))
            else if String.eqb direction "L"
            then (fst o - (snd sq - snd o), snd o + (fst sq - fst o))
            else sq) (squares (shape piece))) ∧
     (can_be_transformed (shape piece) = false →
      squares (shape moved)
        = map (λ sq,
            let o := origin (shape piece) in
            if String.eqb direction "R"
            then (fst sq + (fst o - snd o), snd sq + (snd o + fst o))
            else if String.eqb direction "L"
            then (fst sq + (fst o + snd o), snd sq + (snd o - fst o))
            else sq) (squares (shape piece))) ∧
     kind (shape moved) = kind (shape piece) ∧
     can_be_transformed (shape moved) = can_be_transformed (shape piece) ∧
     anchor moved = Some a ∧
     (any_wall_collisions b moved = Ok false → ret = moved) ∧
     (any_wall_collisions b moved = Ok true → ret = piece) ∧
     (any_wall_collisions b piece = Ok false →
      any_wall_collisions b ret = Ok false)).
Proof.
  split.
  - intros Ha. unfold tui_rotate, piece_rotate_right, piece_rotate_left,
      _check_anchor. rewrite Ha.
    destruct (String.eqb direction "R"); [done|].
    destruct (String.eqb direction "L"); [done|]. simpl.
    unfold recentre. by apply unless_wall_unanchored.
  - intros a Ha. unfold tui_rotate, piece_rotate_right, piece_rotate_left,
      _check_anchor. rewrite Ha.
    destruct (origin (shape piece)) as [o_r o_c] eqn:Ho.
    destruct (String.eqb direction "R") eqn:HR; simpl;
      [|destruct (String.eqb direction "L") eqn:HL; simpl].
    + match goal with |- context [recentre b piece ?t (Some a) ?d] =>
        destruct (recentre_anchored b piece t a d Ha)
          as (moved & ret & -> & Hsqs & Hkind & Hcbt & Hanchor & Hrest)
      end.
      exists moved, ret. split; [done|]. rewrite Hsqs. simpl.
      unfold rotate_right, moved_by.
      split; [|split].
      * intros ->. simpl. rewrite <- list_fmap_compose.
        apply list_fmap_ext. intros _ [r c] _. simpl. f_equal; lia.
      * intros ->. simpl.
        apply list_fmap_ext. intros _ [r c] _. simpl. f_equal; lia.
      * rewrite Hkind, Hcbt. simpl. unfold rotate_right.
        destruct (can_be_transformed (shape piece)) eqn:Hc; simpl;
          rewrite ?Hc; (split; [done|]); (split; [done|]); by split.
    + match goal with |- context [recentre b piece ?t (Some a) ?d] =>
        destruct (recentre_anchored b piece t a d Ha)
          as (moved & ret & -> & Hsqs & Hkind & Hcbt & Hanchor & Hrest)
      end.
      exists moved, ret. split; [done|]. rewrite Hsqs. simpl.
      unfold rotate_left, moved_by.
      split; [|split].
      * intros ->. simpl. rewrite <- list_fmap_compose.
        apply list_fmap_ext. intros _ [r c] _. simpl. f_equal; lia.
      * intros ->. simpl.
        apply list_fmap_ext. intros _ [r c] _. simpl. f_equal; lia.
      * rewrite Hkind, Hcbt. simpl. unfold rotate_left.
        destruct (can_be_transformed (shape piece)) eqn:Hc; simpl;
          rewrite ?Hc; (split; [done|]); (split; [done|]); by split.
    + match goal with |- context [recentre b piece ?t (Some a) ?d] =>
        destruct (recentre_anchored b piece t a d Ha)
          as (moved & ret & -> & Hsqs & Hkind & Hcbt & Hanchor & Hrest)
      end.
      exists moved, ret. split; [done|]. rewrite Hsqs, Ho. simpl.
      unfold moved_by.
      assert (Hid : map (λ sq : Point,
                      (fst sq + fst (o_r - o_r, o_c - o_c),
                       snd sq + snd (o_r - o_r, o_c - o_c)))
                        (squares (shape piece))
                    = map (λ sq : Point, sq) (squares (shape piece))).
      { apply list_fmap_ext. intros _ [r c] _. simpl. f_equal; lia. }
      split; [done|]. split; [done|]. by rewrite Hkind, Hcbt.
Qed.

(** X28. [TuiBoard.flip] raises the anchor error for a piece without
    anchor.  Otherwise the squares of a shape that can be transformed are
    mirrored in the column of the origin; those of a shape that cannot are
    moved by twice the column of the origin.  The changed piece is returned
    unless it collides with a wall, in which case the piece as it was is
    returned; kind and anchor are kept, and a piece on the board is
    answered by a piece on the board. *)
Theorem tui_flip_spec b piece :
  (anchor piece = None → tui_flip b piece = Raise NoAnchorSet) ∧
  (∀ a : Point, anchor piece = Some a →
   ∃ moved ret,
     tui_flip b piece = Ok (moved, ret) ∧
     squares (shape moved)
       = map (λ sq,
           if can_be_transformed (shape piece)
           then (fst sq, 2 * snd (origin (shape piece)) - snd sq)
           else (fst sq, snd sq + 2 * snd (origin (shape piece))))
             (squares (shape piece)) ∧
     kind (shape moved) = kind (shape piece) ∧
     can_be_transformed (shape moved) = can_be_transformed (shape piece) ∧
     anchor moved = Some a ∧
     (any_wall_collisions b moved = Ok false → ret = moved) ∧
     (any_wall_collisions b moved = Ok true → ret = piece) ∧
     (any_wall_collisions b piece = Ok false →
      any_wall_collisions b ret = Ok false)).
Proof.
  split.
  - intros Ha. unfold tui_flip, piece_flip_horizontally, _check_anchor.
    by rewrite Ha.
  - intros a Ha. unfold tui_flip, piece_flip_horizontally, _check_anchor.
    rewrite Ha. simpl.
    match goal with |- context [recentre b piece ?t (Some a) ?d] =>
      destruct (recentre_anchored b piece t a d Ha)
        as (moved & ret & -> & Hsqs & Hkind & Hcbt & Hanchor & Hrest)
    end.
    exists moved, ret. split; [done|]. rewrite Hsqs, Hkind, Hcbt. simpl.
    unfold flip_horizontally, moved_by.
    destruct (can_be_transformed (shape piece)) eqn:Hc; simpl; rewrite ?Hc.
    + split; [|by repeat (split; [done|])]. rewrite <- list_fmap_compose.
      apply list_fmap_ext. intros _ [r c] _. simpl. f_equal; lia.
    + split; [|by repeat (split; [done|])].
      apply list_fmap_ext. intros _ [r c] _. simpl. f_equal; lia.
Qed.

(** ** A grid as text and back *)

Section GridTextProperties.

Variable value : ShapeKind → list ascii.
Variable members : list ShapeKind.

Lemma foldl_app_concat {A B} (f : A → list B) (init : list B) (l : list A) :
  foldl (λ acc x, acc ++ f x) init l = init ++ concat (map f l).
Proof.
  revert init. induction l as [|x l IH]; intros init; simpl.
  - by rewrite app_nil_r.
  - by rewrite IH, app_assoc.
Qed.

Lemma grid_to_string_lines (grid : Grid ShapeKind) :
  grid_to_string value grid
  = ("+"%char :: replicate (length grid * 2) "-"%char ++ ["+"; "010"]%char)
    ++ concat (map (λ line, ("|"%char :: concat (map (cell_text value) line))
                            ++ ["|"; "010"]%char) grid)
    ++ "+"%char :: replicate (length grid * 2) "-"%char ++ ["+"; "010"]%char.
Proof.
  unfold grid_to_string.
  rewrite (foldl_app_concat
             (λ line, foldl (λ row_str cell, row_str ++ cell_text value cell)
                            ["|"%char] line ++ ["|"; "010"]%char)).
  rewrite <- app_assoc. do 2 f_equal.
  induction grid as [|line grid IH]; simpl; [done|].
  by rewrite IH, foldl_app_concat.
Qed.

Lemma lstrip_no_space (c : ascii) (l : list ascii) :
  is_space c = false → lstrip (c :: l) = c :: l.
Proof. intros Hc. simpl. by rewrite Hc. Qed.

Lemma py_strip_newline (c d : ascii) (l : list ascii) :
  is_space c = false → is_space d = false →
  py_strip (c :: l ++ [d; "010"%char]) = c :: l ++ [d].
Proof.
  intros Hc Hd. unfold py_strip. rewrite lstrip_no_space by done.
  rewrite app_comm_cons, reverse_app. simpl.
  change (reverse [d; "010"%char]) with ["010"%char; d]. simpl.
  rewrite Hd. change (d :: reverse (c :: l)) with ([d] ++ reverse (c :: l)).
  by rewrite reverse_app, reverse_involutive.
Qed.

Lemma split_lines_no_break (l : list ascii) :
  "010"%char ∉ l → split_lines l = [l].
Proof.
  induction l as [|c l IH]; intros Hl; simpl; [done|].
  destruct (Ascii.eqb c "010") eqn:Hc.
  - apply Ascii.eqb_eq in Hc as ->. destruct Hl. apply elem_of_cons. by left.
  - rewrite IH; [done|]. intros ?. apply Hl, elem_of_cons. by right.
Qed.

Lemma split_lines_break (l rest : list ascii) :
  "010"%char ∉ l →
  split_lines (l ++ "010"%char :: rest) = l :: split_lines rest.
Proof.
  induction l as [|c l IH]; intros Hl; simpl; [done|].
  destruct (Ascii.eqb c "010") eqn:Hc.
  - apply Ascii.eqb_eq in Hc as ->. destruct Hl. apply elem_of_cons. by left.
  - rewrite IH; [done|]. intros ?. apply Hl, elem_of_cons. by right.
Qed.

Lemma split_lines_joined (ls : list (list ascii)) (last : list ascii) :
  Forall (λ l, "010"%char ∉ l) ls → "010"%char ∉ last →
  split_lines (concat (map (λ l, l ++ ["010"%char]) ls) ++ last) = ls ++ [last].
Proof.
  intros Hls Hlast. induction Hls as [|l ls Hl Hls IH]; simpl.
  - by apply split_lines_no_break.
  - rewrite <- !app_assoc. simpl. rewrite split_lines_break by done.
    by rewrite IH.
Qed.

Lemma inner_middle {A} (x z : A) (ys : list A) : inner (x :: ys ++ [z]) = ys.
Proof.
  unfold inner. simpl. rewrite length_app. simpl.
  replace (length ys + 1 - 0)%nat with (S (length ys)) by lia. simpl.
  by rewrite take_app_length.
Qed.

Lemma length_cell_text (cell : Cell ShapeKind) :
  readable value members cell → length (cell_text value cell) = 2%nat.
Proof.
  destruct cell as [[player sk]|]; simpl; [|done].
  intros ([-> | ->] & ch & -> & _); by simpl.
Qed.

Lemma no_break_cell_text (cell : Cell ShapeKind) :
  readable value members cell → "010"%char ∉ cell_text value cell.
Proof.
  destruct cell as [[player sk]|]; simpl.
  - intros ([-> | ->] & ch & -> & Hch & _); simpl;
      rewrite !elem_of_cons, elem_of_nil;
      intros [Heq|[Heq|[]]]; try done; by subst.
  - intros _. rewrite !elem_of_cons, elem_of_nil. by intros [|[|[]]].
Qed.

Lemma parse_cell_text (cell : Cell ShapeKind) :
  readable value members cell →
  parse_cell value members (cell_text value cell) = Ok cell.
Proof.
  destruct cell as [[player sk]|]; simpl; [|done].
  intros ([-> | ->] & ch & Hvalue & Hch & Hof); unfold parse_cell; simpl;
    rewrite Hvalue; simpl.
  - assert (Hstrip : py_strip [ch; " "%char] = [ch]).
    { unfold py_strip. rewrite lstrip_no_space by done.
      change (reverse [ch; " "%char]) with [" "%char; ch].
      change (lstrip [" "%char; ch]) with (lstrip [ch]).
      by rewrite lstrip_no_space by done. }
    rewrite Hstrip. simpl.
    assert (Ascii.eqb ch " " = false) as ->.
    { apply Ascii.eqb_neq. by intros ->. }
    simpl. by rewrite Hof.
  - assert (Hstrip : py_strip [" "%char; ch] = [ch]).
    { unfold py_strip. change (lstrip [" "%char; ch]) with (lstrip [ch]).
      rewrite lstrip_no_space by done. change (reverse [ch]) with [ch].
      by rewrite lstrip_no_space by done. }
    rewrite Hstrip. simpl. by rewrite Hof.
Qed.

Lemma collect_cells (line : list (Cell ShapeKind)) (pre : list ascii) (m : Z) :
  Forall (readable value members) line → 0 ≤ m → length pre = Z.to_nat (m * 2) →
  collect (λ j, parse_cell value members
                  (take 2 (drop (Z.to_nat (j * 2))
                                (pre ++ concat (map (cell_text value) line)))))
          (seqZ m (Z.of_nat (length line)))
  = Ok line.
Proof.
  intros Hline. revert pre m.
  induction Hline as [|cell line Hcell Hline IH]; intros pre m Hm Hpre; [done|].
  rewrite length_cons, Nat2Z.inj_succ, seqZ_cons by lia. simpl.
  rewrite drop_app_length' by done.
  rewrite take_app_length' by (symmetry; by apply length_cell_text).
  rewrite parse_cell_text by done. simpl.
  replace (Z.pred (Z.succ (Z.of_nat (length line))))
    with (Z.of_nat (length line)) by lia.
  rewrite app_assoc. rewrite IH; [done|lia|].
  rewrite length_app, length_cell_text, Hpre by done. lia.
Qed.

Lemma collect_lines (grid lines : Grid ShapeKind) (n : nat) :
  Forall (λ line, length line = n) lines →
  Forall (Forall (readable value members)) lines →
  collect (λ line : list ascii,
             collect (λ j, parse_cell value members
                             (take 2 (drop (Z.to_nat (j * 2)) (inner line))))
                     (seqZ 0 (Z.of_nat n)))
          (map (λ line, "|"%char :: concat (map (cell_text value) line)
                          ++ ["|"%char]) lines)
  = Ok lines.
Proof.
  intros Hlen Hcells. induction lines as [|line lines IH]; simpl; [done|].
  apply Forall_cons in Hlen as [Hline Hlen].
  apply Forall_cons in Hcells as [Hcell Hcells].
  rewrite inner_middle.
  pose proof (collect_cells line [] 0 Hcell (Z.le_refl 0) eq_refl) as Hcollect.
  simpl in Hcollect. rewrite Hline in Hcollect. rewrite Hcollect. simpl.
  by rewrite IH.
Qed.

(** X29. A grid with as many columns as rows, whose occupied cells belong
    to player 1 or 2 and hold kinds with a one-character value that is no
    white space and names the kind, is read back by [string_to_grid] from
    the text [grid_to_string] writes for it. *)
Theorem grid_text_round_trip (grid : Grid ShapeKind) :
  Forall (λ line, length line = length grid) grid →
  Forall (Forall (readable value members)) grid →
  string_to_grid value members (grid_to_string value grid) = Ok grid.
Proof.
  intros Hsquare Hcells. rewrite grid_to_string_lines.
  set (dashes := replicate (length grid * 2) "-"%char).
  set (rows := map (λ line, "|"%char :: concat (map (cell_text value) line)
                              ++ ["|"%char]) grid).
  assert (Hrows : concat (map (λ line,
                     ("|"%char :: concat (map (cell_text value) line))
                       ++ ["|"; "010"]%char) grid)
                  = concat (map (λ l, l ++ ["010"%char]) rows)).
  { unfold rows. rewrite map_map. f_equal. apply map_ext. intros line.
    simpl. by rewrite <- app_assoc. }
  rewrite Hrows. unfold string_to_grid.
  assert (Hstrip :
    py_strip (("+"%char :: dashes ++ ["+"; "010"]%char)
              ++ concat (map (λ l, l ++ ["010"%char]) rows)
              ++ "+"%char :: dashes ++ ["+"; "010"]%char)
    = concat (map (λ l, l ++ ["010"%char]) (("+"%char :: dashes ++ ["+"%char]) :: rows))
      ++ "+"%char :: dashes ++ ["+"%char]).
  { transitivity (py_strip ("+"%char ::
        (dashes ++ ["+"; "010"]%char
           ++ concat (map (λ l, l ++ ["010"%char]) rows)
           ++ "+"%char :: dashes) ++ ["+"; "010"]%char)).
    { f_equal. simpl. f_equal. rewrite <- !app_assoc. simpl.
      do 3 f_equal. by rewrite <- app_assoc. }
    rewrite py_strip_newline by done. simpl.
    f_equal. rewrite <- !app_assoc. simpl. rewrite <- !app_assoc. done. }
  rewrite Hstrip.
  assert (Hdashes : "010"%char ∉ "+"%char :: dashes ++ ["+"%char]).
  { rewrite elem_of_cons, elem_of_app, list_elem_of_singleton.
    intros [|[[? _]%elem_of_replicate|]]; done. }
  rewrite split_lines_joined; [|constructor; [done|]|done].
  - simpl.
    assert (Hsize : (Z.of_nat (S (length (dashes ++ ["+"%char]))) - 2) `div` 2
                    = Z.of_nat (length grid)).
    { unfold dashes. rewrite length_app, length_replicate. simpl.
      replace (Z.of_nat (S (length grid * 2 + 1)) - 2)
        with (Z.of_nat (length grid) * 2) by lia.
      by rewrite Z.div_mul. }
    rewrite Hsize, inner_middle. by apply collect_lines.
  - unfold rows. apply Forall_map.
    apply (Forall_impl _ _ _ Hcells). intros line Hline. simpl.
    rewrite elem_of_cons, elem_of_app, list_elem_of_singleton.
    intros [|[Hin|]]; try done.
    apply list_elem_of_In, in_concat in Hin as (text & Htext & Hch).
    apply list_elem_of_In in Htext, Hch.
    apply list_elem_of_fmap in Htext as (cell & -> & Hcell).
    apply (no_break_cell_text cell); [|done].
    by apply (proj1 (list.Forall_forall _ _) Hline).
Qed.

End GridTextProperties.

End Properties.

(** * The engine on concrete games *)

Example new_mini_game : new_game 2 5 mini_starts = Ok mini_game.
Proof. reflexivity. Qed.

Example new_solo_game : new_game 1 14 {[ (0, 0) ]} = Ok solo_game.
Proof. reflexivity. Qed.

Lemma catalog_keys_nodup : NoDup (shapes_keys catalog).
Proof. apply (bool_decide_unpack _). by vm_compute. Qed.

Lemma place_all_reachable b moves b' :
  reachable catalog b → place_all b moves = Some b' → reachable catalog b'.
Proof.
  revert b. induction moves as [|[k a] moves IH]; intros b Hb; simpl.
  - by intros [= <-].
  - destruct (piece_at k a) as [piece|]; [|done].
    destruct (maybe_place catalog b piece) as [[[|] b1]| |] eqn:Hplace;
      [|done..].
    apply IH. by eapply reach_place.
Qed.

Lemma place_all_play b moves b' :
  place_all b moves = Some b' → rtc (play_step catalog) b b'.
Proof.
  revert b. induction moves as [|[k a] moves IH]; intros b; simpl.
  - by intros [= <-].
  - destruct (piece_at k a) as [piece|]; [|done].
    destruct (maybe_place catalog b piece) as [[[|] b1]| |] eqn:Hplace;
      [|done..].
    intros Hrest. eapply rtc_l; [by eapply step_place|by apply IH].
Qed.

Example mini_opened_placed :
  place_all mini_game [(SK_ONE, (0, 0)); (SK_ONE, (4, 4))] = Some mini_opened.
Proof. by vm_compute. Qed.

Example solo_finished_placed :
  place_all solo_game moves_one_second = Some solo_finished.
Proof. by vm_compute. Qed.

Example solo_replayed_placed :
  place_all (reset solo_before_reset) moves_one_first = Some solo_replayed.
Proof. by vm_compute. Qed.

Example mini_first_move_placed :
  place_all mini_game [(SK_ONE, (0, 0))] = Some mini_first_move.
Proof. by vm_compute. Qed.

Lemma reachable_mini_game : reachable catalog mini_game.
Proof. eapply reach_init. exact new_mini_game. Qed.

Lemma reachable_solo_game : reachable catalog solo_game.
Proof. eapply reach_init. exact new_solo_game. Qed.

Lemma reachable_mini_opened : reachable catalog mini_opened.
Proof.
  eapply place_all_reachable;
    [exact reachable_mini_game|exact mini_opened_placed].
Qed.

Lemma reachable_solo_finished : reachable catalog solo_finished.
Proof.
  eapply place_all_reachable;
    [exact reachable_solo_game|exact solo_finished_placed].
Qed.

Lemma wf_mini_game : wf mini_game.
Proof. exact (wf_new_game _ _ _ _ new_mini_game). Qed.

Lemma wf_mini_opened : wf mini_opened.
Proof. exact (inv_wf _ _ (reachable_inv _ _ reachable_mini_opened)). Qed.

(** The stripped length [get_score] subtracts, the ["X"] and ["O"] of the
    text, and the squares [from_string] builds agree on every shape of the
    catalog, and add up to 89. *)
Example catalog_square_counts :
  Forall (λ kv, definition_length (snd kv) = count_squares (snd kv) ∧
                count_squares (snd kv)
                  = Z.of_nat (length (squares (from_string (fst kv) (snd kv)))))
         catalog ∧
  foldr Z.add 0 (map (λ kv, definition_length (snd kv)) catalog) = 89.
Proof. split; [|done]. repeat (constructor; [by vm_compute|]). constructor. Qed.

(** The first two tests of [grid.py]: after both single squares, and after
    both dominoes, the grid holds exactly these cells. *)
Example test_grid_1 :
  _grid mini_opened =
    [ [Some (1, SK_ONE); None; None; None; None];
      [None; None; None; None; None];
      [None; None; None; None; None];
      [None; None; None; None; None];
      [None; None; None; None; Some (2, SK_ONE)] ].
Proof. by vm_compute. Qed.

Example test_grid_2 :
  _grid <$> place_all mini_opened [(SK_TWO, (1, 1)); (SK_TWO, (3, 2))] =
    Some [ [Some (1, SK_ONE); None; None; None; None];
           [None; Some (1, SK_TWO); Some (1, SK_TWO); None; None];
           [None; None; None; None; None];
           [None; None; Some (2, SK_TWO); Some (2, SK_TWO); None];
           [None; None; None; None; Some (2, SK_ONE)] ].
Proof. by vm_compute. Qed.

(** The scenarios on the mini board: a second single square is refused
    with the already-played error; an opening move off the corners is not
    legal; after the opening round a domino next to the own square is not
    legal and one that touches it by a corner is. *)
Example mini_scenarios :
  maybe_place catalog mini_opened (one_at (1, 1)) = Raise AlreadyPlayedShape ∧
  legal_to_place catalog mini_game (one_at (2, 2)) = Ok false ∧
  maybe_place catalog mini_game (one_at (2, 2)) = Ok (false, mini_game) ∧
  legal_to_place catalog mini_opened (two_at (0, 1)) = Ok false ∧
  legal_to_place catalog mini_opened (two_at (1, 1)) = Ok true ∧
  legal_to_place catalog mini_opened (mkPiece (shape (two_at (1, 1))) None)
    = Raise NoAnchorSet.
Proof. by vm_compute. Qed.

(** One player who has placed every shape: the game is over and that
    player wins. *)
Example solo_winner :
  game_over catalog solo_finished = true ∧
  winners SK_ONE catalog solo_finished = Ok (Some [1]) ∧
  winners SK_ONE catalog mini_opened = Ok None.
Proof. by vm_compute. Qed.

(** ** The theorems at concrete games *)

Lemma curr_player_active_witness :
  NoDup (shapes_keys catalog) ∧ reachable_by_calls catalog mini_opened ∧
  (∃ p, 1 ≤ p ≤ _num_players mini_opened ∧ in_play catalog mini_opened p) ∧
  1 ≤ _curr_player mini_opened ≤ _num_players mini_opened ∧
  in_play catalog mini_opened (_curr_player mini_opened).
Proof.
  assert (Hcalls : reachable_by_calls catalog mini_opened)
    by exact (reachable_calls _ _ reachable_mini_opened).
  assert (Hsome : ∃ p, 1 ≤ p ≤ _num_players mini_opened ∧
                       in_play catalog mini_opened p).
  { exists 2. split; [by vm_compute|]. split.
    - apply (bool_decide_unpack _). by vm_compute.
    - by vm_compute. }
  split; [exact catalog_keys_nodup|]. split; [exact Hcalls|].
  split; [exact Hsome|].
  split.
  - exact (proj1 (curr_player_active catalog mini_opened catalog_keys_nodup
                    Hcalls)).
  - exact (proj1 (proj2 (curr_player_active catalog mini_opened
                           catalog_keys_nodup Hcalls)) Hsome).
Defined.

Lemma game_over_spec_witness :
  reachable catalog solo_finished ∧
  game_over catalog solo_finished = true ∧
  ∀ p, 1 ≤ p ≤ _num_players solo_finished →
       retired_or_exhausted catalog solo_finished p.
Proof.
  split; [exact reachable_solo_finished|]. split; [by vm_compute|].
  apply (proj1 (proj1 (game_over_spec catalog solo_finished
                         reachable_solo_finished))).
  by vm_compute.
Defined.

Lemma opening_move_rule_witness :
  wf mini_game ∧
  kind (shape (one_at (0, 0)))
    ∈ remaining_shapes catalog mini_game (_curr_player mini_game) ∧
  anchor (one_at (0, 0)) = Some (0, 0) ∧
  any_collisions mini_game (one_at (0, 0)) = Ok false ∧
  _num_moves mini_game < unmoved_active mini_game ∧
  ∃ sqs (v : bool),
    piece_squares (one_at (0, 0)) = Ok sqs ∧
    legal_to_place catalog mini_game (one_at (0, 0)) = Ok v ∧
    (v = true ↔ ∃ sq, sq ∈ sqs ∧ sq ∈ _start_positions mini_game).
Proof.
  assert (Hk : kind (shape (one_at (0, 0)))
                 ∈ remaining_shapes catalog mini_game (_curr_player mini_game))
    by (apply (bool_decide_unpack _); by vm_compute).
  repeat (split; [first [exact wf_mini_game|exact Hk|by vm_compute]|]).
  apply (opening_move_rule catalog mini_game (one_at (0, 0)) (0, 0));
    first [exact wf_mini_game|exact Hk|by vm_compute].
Defined.

Lemma subsequent_move_rule_witness :
  wf mini_opened ∧
  kind (shape (two_at (1, 1)))
    ∈ remaining_shapes catalog mini_opened (_curr_player mini_opened) ∧
  anchor (two_at (1, 1)) = Some (1, 1) ∧
  any_collisions mini_opened (two_at (1, 1)) = Ok false ∧
  _num_players mini_opened - Z.of_nat (size (_retired_players mini_opened))
    ≤ _num_moves mini_opened ∧
  ∃ sqs card inter,
    piece_squares (two_at (1, 1)) = Ok sqs ∧
    cardinal_neighbors (two_at (1, 1)) = Ok card ∧
    intercardinal_neighbors (two_at (1, 1)) = Ok inter ∧
    (∀ q, q ∈ card ↔ (q ∉ sqs) ∧ ∃ sq, sq ∈ sqs ∧ edge_adjacent sq q) ∧
    (∀ q, q ∈ inter ↔
          (q ∉ sqs) ∧ (∀ sq, sq ∈ sqs → ¬ edge_adjacent sq q) ∧
          ∃ sq, sq ∈ sqs ∧ diagonal sq q) ∧
    ((∃ q, (q ∉ sqs) ∧ (∃ sq, sq ∈ sqs ∧ edge_adjacent sq q) ∧
           in_board mini_opened q ∧
           ∃ k, grid_get (_grid mini_opened) (fst q) (snd q)
                = Ok (Some (_curr_player mini_opened, k))) →
       legal_to_place catalog mini_opened (two_at (1, 1)) = Ok false) ∧
    (¬ (∃ q, (q ∉ sqs) ∧ (∃ sq, sq ∈ sqs ∧ edge_adjacent sq q) ∧
             in_board mini_opened q ∧
             ∃ k, grid_get (_grid mini_opened) (fst q) (snd q)
                  = Ok (Some (_curr_player mini_opened, k))) →
       ∃ v : bool,
         legal_to_place catalog mini_opened (two_at (1, 1)) = Ok v ∧
         (v = true ↔
          ∃ q, (q ∉ sqs) ∧ (∀ sq, sq ∈ sqs → ¬ edge_adjacent sq q) ∧
               (∃ sq, sq ∈ sqs ∧ diagonal sq q) ∧
               in_board mini_opened q ∧
               ∃ k, grid_get (_grid mini_opened) (fst q) (snd q)
                    = Ok (Some (_curr_player mini_opened, k)))).
Proof.
  assert (Hk : kind (shape (two_at (1, 1)))
                 ∈ remaining_shapes catalog mini_opened (_curr_player mini_opened))
    by (apply (bool_decide_unpack _); by vm_compute).
  repeat (split; [first [exact wf_mini_opened|exact Hk|by vm_compute]|]).
  apply (subsequent_move_rule catalog mini_opened (two_at (1, 1)) (1, 1));
    first [exact wf_mini_opened|exact Hk|by vm_compute].
Defined.

Lemma maybe_place_false_unchanged_witness :
  (_curr_player mini_opened ∉ _retired_players mini_opened) ∧
  legal_to_place catalog mini_opened (two_at (2, 2)) = Ok false ∧
  maybe_place catalog mini_opened (two_at (2, 2)) = Ok (false, mini_opened).
Proof.
  assert (Hret : _curr_player mini_opened ∉ _retired_players mini_opened)
    by (apply (bool_decide_unpack _); by vm_compute).
  assert (Hlegal : legal_to_place catalog mini_opened (two_at (2, 2)) = Ok false)
    by (by vm_compute).
  split; [exact Hret|]. split; [exact Hlegal|].
  exact (proj2 (proj2 (maybe_place_false_unchanged catalog mini_opened
                         (two_at (2, 2)))) Hret Hlegal).
Defined.

Lemma legal_to_place_errors_witness :
  wf mini_opened ∧
  (kind (shape (one_at (1, 1)))
     ∉ remaining_shapes catalog mini_opened (_curr_player mini_opened)) ∧
  legal_to_place catalog mini_opened (one_at (1, 1)) = Raise AlreadyPlayedShape.
Proof.
  assert (Hk : kind (shape (one_at (1, 1)))
                 ∉ remaining_shapes catalog mini_opened (_curr_player mini_opened))
    by (apply (bool_decide_unpack _); by vm_compute).
  split; [exact wf_mini_opened|]. split; [exact Hk|].
  apply (proj1 (legal_to_place_errors catalog mini_opened (one_at (1, 1))
                  wf_mini_opened)).
  exact Hk.
Defined.

(** C9 as stated fails: player 1 places the single square and loses that
    kind; after [reset] the kind is back among the remaining shapes. *)
Lemma reset_regains_shape :
  maybe_place catalog mini_game (one_at (0, 0)) = Ok (true, mini_first_move) ∧
  (SK_ONE ∈ remaining_shapes catalog mini_game 1) ∧
  (SK_ONE ∉ remaining_shapes catalog mini_first_move 1) ∧
  (SK_ONE ∈ remaining_shapes catalog (reset mini_first_move) 1).
Proof.
  split; [by vm_compute|].
  repeat split; apply (bool_decide_unpack _); by vm_compute.
Qed.

Lemma remaining_shapes_shrinks_witness :
  NoDup (shapes_keys catalog) ∧ wf mini_game ∧
  maybe_place catalog mini_game (one_at (0, 0)) = Ok (true, mini_first_move) ∧
  (length (remaining_shapes catalog mini_first_move (_curr_player mini_game)) + 1
   = length (remaining_shapes catalog mini_game (_curr_player mini_game)))%nat.
Proof.
  assert (Hplace : maybe_place catalog mini_game (one_at (0, 0))
                   = Ok (true, mini_first_move)) by (by vm_compute).
  split; [exact catalog_keys_nodup|]. split; [exact wf_mini_game|].
  split; [exact Hplace|].
  apply (proj1 (remaining_shapes_shrinks catalog mini_game
                  catalog_keys_nodup wf_mini_game) _ _ Hplace).
Defined.

Lemma reset_keeps_history_witness :
  rtc (play_step catalog) (reset solo_before_reset) solo_replayed ∧
  remaining_shapes catalog solo_replayed 1 = [] ∧
  (1, SK_ONE) ∈ drop 1 (_played_pieces solo_before_reset) ∧
  get_score SK_ONE catalog solo_replayed 1 = Ok 20.
Proof.
  assert (Hplay : rtc (play_step catalog) (reset solo_before_reset) solo_replayed)
    by exact (place_all_play _ _ _ solo_replayed_placed).
  assert (Hrem : remaining_shapes catalog solo_replayed 1 = [])
    by (by vm_compute).
  assert (Hold : (1, SK_ONE) ∈ drop 1 (_played_pieces solo_before_reset))
    by (apply (bool_decide_unpack _); by vm_compute).
  split; [exact Hplay|]. split; [exact Hrem|]. split; [exact Hold|].
  exact (proj2 (reset_keeps_history SK_ONE catalog solo_before_reset)
           solo_replayed 1 Hplay Hrem Hold).
Defined.

(** The same 21 placements on a fresh engine score 15: there the single
    square is the oldest entry of the history, which the bonus loop never
    reads. *)
Example fresh_game_scores_15 :
  remaining_shapes catalog (after solo_game moves_one_first) 1 = [] ∧
  get_score SK_ONE catalog (after solo_game moves_one_first) 1 = Ok 15.
Proof. by vm_compute. Qed.

(** C2, the bonus.  One player on a 14 by 14 board places all 21 shapes,
    the single square second and the [Z] last.  The state is reachable, the
    player has no shape left and the last piece is not the single square,
    yet [get_score] returns 20 where the claim has 15. *)
Theorem get_score_bonus_not_last :
  reachable catalog solo_finished ∧
  remaining_shapes catalog solo_finished 1 = [] ∧
  last_played (_played_pieces solo_finished) 1 = Some SK_Z ∧
  get_score SK_ONE catalog solo_finished 1 = Ok 20.
Proof.
  split; [exact reachable_solo_finished|]. by vm_compute.
Qed.

(** Why [reachable] takes [retire] with the condition of its docstring.
    When players 1 and 2 have placed all their shapes and player 3 has
    retired, the game is over.  If player 1, out of shapes, is then retired
    all the same, [game_over] counts that player twice and turns false,
    with the pointer on player 2, who has no shape left. *)
Example retire_after_last_shape :
  new_game 3 28 {[ (0, 0); (14, 14); (27, 27) ]} = Ok three_game ∧
  place_all three_game [(SK_TWO, (0, 0)); (SK_TWO, (14, 14))]
    = Some three_opened ∧
  _curr_player three_opened = 3 ∧
  place_all (retired three_opened)
      (alternate (drop 1 moves_one_second)
                 (shift_moves 14 (drop 1 moves_one_second)))
    = Some three_finished ∧
  game_over catalog three_finished = true ∧
  _curr_player three_finished = 1 ∧
  remaining_shapes catalog three_finished 1 = [] ∧
  game_over catalog (retired three_finished) = false ∧
  _curr_player (retired three_finished) = 2 ∧
  remaining_shapes catalog (retired three_finished) 2 = [].
Proof. by vm_compute. Qed.

Lemma place_all_calls b moves b' :
  reachable_by_calls catalog b → place_all b moves = Some b' →
  reachable_by_calls catalog b'.
Proof.
  revert b. induction moves as [|[k a] moves IH]; intros b Hb; simpl.
  - by intros [= <-].
  - destruct (piece_at k a) as [piece|]; [|done].
    destruct (maybe_place catalog b piece) as [[[|] b1]| |] eqn:Hplace;
      [|done..].
    apply IH. by eapply calls_place.
Qed.

Lemma new_three_game :
  new_game 3 28 {[ (0, 0); (14, 14); (27, 27) ]} = Ok three_game.
Proof. by vm_compute. Qed.

Lemma three_opened_placed :
  place_all three_game [(SK_TWO, (0, 0)); (SK_TWO, (14, 14))]
  = Some three_opened.
Proof. by vm_compute. Qed.

Lemma three_opened_retire :
  retire three_opened = Ok (retired three_opened).
Proof. by vm_compute. Qed.

Lemma three_finished_placed :
  place_all (retired three_opened)
    (alternate (drop 1 moves_one_second)
               (shift_moves 14 (drop 1 moves_one_second)))
  = Some three_finished.
Proof. by vm_compute. Qed.

Lemma three_finished_retire :
  retire three_finished = Ok (retired three_finished).
Proof. by vm_compute. Qed.

Lemma reachable_three_finished : reachable catalog three_finished.
Proof.
  assert (Hgame : reachable catalog three_game)
    by (eapply reach_init; exact new_three_game).
  assert (Hopened : reachable catalog three_opened)
    by (eapply place_all_reachable; [exact Hgame|exact three_opened_placed]).
  assert (Hshapes : remaining_shapes catalog three_opened
                      (_curr_player three_opened) ≠ []) by (by vm_compute).
  assert (Hretired : reachable catalog (retired three_opened))
    by (eapply reach_retire;
          [exact Hopened|exact Hshapes|exact three_opened_retire]).
  eapply place_all_reachable; [exact Hretired|exact three_finished_placed].
Qed.

Lemma calls_three_retired :
  reachable_by_calls catalog (retired three_finished).
Proof.
  eapply calls_retire;
    [exact (reachable_calls _ _ reachable_three_finished)
    |exact three_finished_retire].
Qed.

(** C1 as stated fails.  Three players; player 3 retires after the first
    round, players 1 and 2 place all their shapes: the game is over, with
    the pointer on player 1.  [retire] is then called once more.  It has
    no test on the shapes of the player it retires, so player 1 is retired
    and is from then on counted twice by [game_over], which answers false;
    the turn advancement of [retire] has put the pointer on player 2, who
    has no shape left.  Also without that call the advancement of
    [maybe_place] need not end on a player with a shape left: after the
    last placement of the finished game the pointer is on player 1. *)
Lemma pointer_on_exhausted_player :
  reachable_by_calls catalog three_finished ∧
  retire three_finished = Ok (retired three_finished) ∧
  reachable_by_calls catalog (retired three_finished) ∧
  game_over catalog (retired three_finished) = false ∧
  _curr_player (retired three_finished) = 2 ∧
  remaining_shapes catalog (retired three_finished) 2 = [] ∧
  reachable catalog three_finished ∧
  _curr_player three_finished = 1 ∧
  remaining_shapes catalog three_finished 1 = [].
Proof.
  split; [exact (reachable_calls _ _ reachable_three_finished)|].
  split; [exact three_finished_retire|]. split; [exact calls_three_retired|].
  split; [by vm_compute|]. split; [by vm_compute|]. split; [by vm_compute|].
  split; [exact reachable_three_finished|]. by vm_compute.
Qed.

(** C3.  [game_over] departs from its docstring, for which a game is over
    when every player is either retired or has played all their pieces.
    In the three-player game above, after [retire] has been called on the
    finished game, player 1 is retired and has no shape left, player 2
    has no shape left and player 3 is retired: every player is retired or
    out of shapes.  [game_over] adds the two players without a shape to
    the two retired players, compares 4 with the 3 players and answers
    false.  One call earlier, on the same board, it answered true. *)
Theorem game_over_counts_twice :
  new_game 3 28 {[ (0, 0); (14, 14); (27, 27) ]} = Ok three_game ∧
  place_all three_game [(SK_TWO, (0, 0)); (SK_TWO, (14, 14))]
    = Some three_opened ∧
  retire three_opened = Ok (retired three_opened) ∧
  place_all (retired three_opened)
      (alternate (drop 1 moves_one_second)
                 (shift_moves 14 (drop 1 moves_one_second)))
    = Some three_finished ∧
  game_over catalog three_finished = true ∧
  retire three_finished = Ok (retired three_finished) ∧
  _grid (retired three_finished) = _grid three_finished ∧
  _retired_players (retired three_finished) = {[ 1; 3 ]} ∧
  remaining_shapes catalog (retired three_finished) 1 = [] ∧
  remaining_shapes catalog (retired three_finished) 2 = [] ∧
  (∀ p, 1 ≤ p ≤ _num_players (retired three_finished) →
        retired_or_exhausted catalog (retired three_finished) p) ∧
  game_over catalog (retired three_finished) = false.
Proof.
  assert (Hone : remaining_shapes catalog (retired three_finished) 1 = [])
    by (by vm_compute).
  assert (Htwo : remaining_shapes catalog (retired three_finished) 2 = [])
    by (by vm_compute).
  assert (Hret : _retired_players (retired three_finished) = {[ 1; 3 ]}).
  { apply (bool_decide_unpack _). by vm_compute. }
  assert (Hn : _num_players (retired three_finished) = 3) by (by vm_compute).
  split; [exact new_three_game|]. split; [exact three_opened_placed|].
  split; [exact three_opened_retire|]. split; [exact three_finished_placed|].
  split; [by vm_compute|]. split; [exact three_finished_retire|].
  split; [by vm_compute|]. split; [exact Hret|].
  split; [exact Hone|]. split; [exact Htwo|]. split; [|by vm_compute].
  intros p Hp. rewrite Hn in Hp.
  destruct (decide (p = 2)) as [->|Hne]; [right; exact Htwo|].
  left. rewrite Hret. apply elem_of_union.
  rewrite !elem_of_singleton. lia.
Qed.

(** The opening test of [legal_to_place] still holds for the second
    player's first move: one move is made, two players are in, and the
    single square on the free corner is legal with no cell of player 2
    around. *)
Example opening_rule_second_player :
  _num_moves mini_first_move = 1 ∧ unmoved_active mini_first_move = 1 ∧
  _curr_player mini_first_move = 2 ∧
  legal_to_place catalog mini_first_move (one_at (4, 4)) = Ok true ∧
  legal_to_place catalog mini_first_move (one_at (2, 2)) = Ok false.
Proof. by vm_compute. Qed.

(** C5 as stated fails when the opening phase is told as C4 tells it, by
    the number of players who are not retired and have not moved yet.
    After the first move of the mini game one such player is left and one
    move is made, so that phase has ended; player 2 has no cell on the
    board, hence no diagonal contact, and yet the single square on the
    free start corner is legal: [legal_to_place] compares the move counter
    with the number of players who are not retired and still applies the
    rule of the start positions. *)
Lemma first_move_judged_by_opening_rule :
  reachable catalog mini_first_move ∧
  unmoved_active mini_first_move ≤ _num_moves mini_first_move ∧
  _num_moves mini_first_move
    < _num_players mini_first_move
      - Z.of_nat (size (_retired_players mini_first_move)) ∧
  kind (shape (one_at (4, 4)))
    ∈ remaining_shapes catalog mini_first_move (_curr_player mini_first_move) ∧
  anchor (one_at (4, 4)) = Some (4, 4) ∧
  any_collisions mini_first_move (one_at (4, 4)) = Ok false ∧
  played_shapes (_grid mini_first_move) (_curr_player mini_first_move) = [] ∧
  (∃ inter, intercardinal_neighbors (one_at (4, 4)) = Ok inter ∧
     ∀ q, q ∈ inter → own_cell mini_first_move q = false) ∧
  legal_to_place catalog mini_first_move (one_at (4, 4)) = Ok true.
Proof.
  split; [eapply place_all_reachable;
            [exact reachable_mini_game|exact mini_first_move_placed]|].
  split; [by vm_compute|]. split; [by vm_compute|].
  split; [apply (bool_decide_unpack _); by vm_compute|].
  split; [by vm_compute|]. split; [by vm_compute|]. split; [by vm_compute|].
  split; [|by vm_compute].
  destruct (intercardinal_neighbors (one_at (4, 4))) as [inter| |] eqn:Hinter;
    [|by vm_compute in Hinter..].
  exists inter. split; [done|]. intros q Hq.
  apply elem_of_elements in Hq.
  assert (Hall : forallb (λ q, negb (own_cell mini_first_move q))
                   (elements inter) = true).
  { assert (Hsome : (inter0 ← intercardinal_neighbors (one_at (4, 4));
                     Ok (forallb (λ q, negb (own_cell mini_first_move q))
                           (elements inter0))) = Ok true) by (by vm_compute).
    rewrite Hinter in Hsome. simpl in Hsome. congruence. }
  rewrite forallb_forall in Hall. apply list_elem_of_In, Hall in Hq.
  by apply negb_true_iff in Hq.
Qed.

(** * The further properties on concrete games *)

Lemma reachable_mini_first_move : reachable catalog mini_first_move.
Proof.
  eapply place_all_reachable;
    [exact reachable_mini_game|exact mini_first_move_placed].
Qed.

Lemma wf_mini_first_move : wf mini_first_move.
Proof. exact (inv_wf _ _ (reachable_inv _ _ reachable_mini_first_move)). Qed.

Lemma mini_second_move :
  rtc (play_step catalog) mini_first_move mini_opened.
Proof.
  apply (place_all_play mini_first_move [(SK_ONE, (4, 4))]). by vm_compute.
Qed.

Lemma neighbours_apart_witness :
  ∃ sqs card inter,
    piece_squares (two_at (1, 1)) = Ok sqs ∧
    cardinal_neighbors (two_at (1, 1)) = Ok card ∧
    intercardinal_neighbors (two_at (1, 1)) = Ok inter ∧
    (∀ q, q ∈ card → q ∉ sqs) ∧
    (∀ q, q ∈ inter →
       (q ∉ sqs) ∧ (q ∉ card) ∧
       (∃ sq, sq ∈ sqs ∧ Z.abs (fst q - fst sq) = 1
                       ∧ Z.abs (snd q - snd sq) = 1) ∧
       (∀ sq, sq ∈ sqs →
          Z.abs (fst q - fst sq) + Z.abs (snd q - snd sq) ≠ 1)).
Proof.
  pose proof (piece_squares_anchored (two_at (1, 1)) (1, 1) eq_refl) as Hsqs.
  destruct (cardinal_neighbors_anchored (two_at (1, 1)) (1, 1) eq_refl)
    as [card Hcard].
  destruct (intercardinal_neighbors_anchored (two_at (1, 1)) (1, 1) eq_refl)
    as [inter Hinter].
  eexists _, card, inter. split; [exact Hsqs|]. split; [exact Hcard|].
  split; [exact Hinter|].
  exact (neighbours_apart (two_at (1, 1)) _ card inter Hsqs Hcard Hinter).
Defined.

Lemma collisions_spec_witness :
  wf mini_opened ∧ anchor (two_at (0, 4)) = Some (0, 4) ∧
  ∃ sqs (wall coll : bool),
    piece_squares (two_at (0, 4)) = Ok sqs ∧
    any_wall_collisions mini_opened (two_at (0, 4)) = Ok wall ∧
    (wall = true ↔ ∃ sq, sq ∈ sqs ∧ ¬ in_board mini_opened sq) ∧
    any_collisions mini_opened (two_at (0, 4)) = Ok coll ∧
    (coll = true ↔
       (∃ sq, sq ∈ sqs ∧ ¬ in_board mini_opened sq) ∨
       (∃ sq cell, sq ∈ sqs ∧
          grid_get (_grid mini_opened) (fst sq) (snd sq) = Ok (Some cell))).
Proof.
  split; [exact wf_mini_opened|]. split; [reflexivity|].
  exact (collisions_spec mini_opened (two_at (0, 4)) (0, 4)
           wf_mini_opened eq_refl).
Defined.

Lemma maybe_place_outcomes_witness :
  wf mini_opened ∧
  (_curr_player mini_opened ∉ _retired_players mini_opened) ∧
  legal_to_place catalog mini_opened (two_at (1, 1)) = Ok true ∧
  ∃ b', maybe_place catalog mini_opened (two_at (1, 1)) = Ok (true, b').
Proof.
  assert (Hret : _curr_player mini_opened ∉ _retired_players mini_opened)
    by (apply (bool_decide_unpack _); by vm_compute).
  assert (Hlegal : legal_to_place catalog mini_opened (two_at (1, 1)) = Ok true)
    by (by vm_compute).
  split; [exact wf_mini_opened|]. split; [exact Hret|]. split; [exact Hlegal|].
  exact (proj1 (proj1 (maybe_place_outcomes catalog mini_opened (two_at (1, 1))
                         wf_mini_opened) Hret) Hlegal).
Defined.

Lemma maybe_place_effect_witness :
  wf mini_game ∧
  maybe_place catalog mini_game (one_at (0, 0)) = Ok (true, mini_first_move) ∧
  ∃ sqs,
    piece_squares (one_at (0, 0)) = Ok sqs ∧ sqs ≠ [] ∧
    (∀ sq, sq ∈ sqs →
       in_board mini_game sq ∧
       grid_get (_grid mini_game) (fst sq) (snd sq) = Ok None) ∧
    (∀ r c, 0 ≤ r → 0 ≤ c →
       grid_get (_grid mini_first_move) r c =
         if decide ((r, c) ∈ sqs)
         then Ok (Some (_curr_player mini_game, kind (shape (one_at (0, 0)))))
         else grid_get (_grid mini_game) r c) ∧
    _num_moves mini_first_move = _num_moves mini_game + 1 ∧
    _played_pieces mini_first_move =
      _played_pieces mini_game
        ++ [(_curr_player mini_game, kind (shape (one_at (0, 0))))] ∧
    _retired_players mini_first_move = _retired_players mini_game ∧
    _num_players mini_first_move = _num_players mini_game ∧
    _size mini_first_move = _size mini_game ∧
    _start_positions mini_first_move = _start_positions mini_game.
Proof.
  assert (Hplace : maybe_place catalog mini_game (one_at (0, 0))
                   = Ok (true, mini_first_move)) by (by vm_compute).
  split; [exact wf_mini_game|]. split; [exact Hplace|].
  exact (maybe_place_effect catalog mini_game (one_at (0, 0)) mini_first_move
           wf_mini_game Hplace).
Defined.

Lemma cells_are_kept_witness :
  wf mini_first_move ∧ rtc (play_step catalog) mini_first_move mini_opened ∧
  grid_get (_grid mini_first_move) 0 0 = Ok (Some (1, SK_ONE)) ∧
  grid_get (_grid mini_opened) 0 0 = Ok (Some (1, SK_ONE)).
Proof.
  assert (Hcell : grid_get (_grid mini_first_move) 0 0 = Ok (Some (1, SK_ONE)))
    by (by vm_compute).
  split; [exact wf_mini_first_move|]. split; [exact mini_second_move|].
  split; [exact Hcell|].
  apply (cells_are_kept catalog mini_first_move mini_opened
           wf_mini_first_move mini_second_move 0 0 (1, SK_ONE));
    [lia|lia|exact Hcell].
Defined.

Lemma retire_effect_witness :
  wf mini_opened ∧
  ∃ b', retire mini_opened = Ok b' ∧
    _retired_players b'
      = _retired_players mini_opened ∪ {[ _curr_player mini_opened ]} ∧
    _grid b' = _grid mini_opened ∧ _num_moves b' = _num_moves mini_opened ∧
    _played_pieces b' = _played_pieces mini_opened ∧
    1 ≤ _curr_player b' ≤ _num_players b' ∧
    (Z.of_nat (size (_retired_players b')) ≠ _num_players b' →
     _curr_player b' ∉ _retired_players b').
Proof.
  split; [exact wf_mini_opened|].
  exact (proj1 (retire_effect catalog mini_opened wf_mini_opened)).
Defined.

Lemma advance_first_active_witness :
  1 ≤ 2 ≤ _num_players mini_game ∧
  (∀ p, p ∈ ({[ 2 ]} : gset Z) → 1 ≤ p ≤ _num_players mini_game) ∧
  ∃ c', advance mini_game {[ 2 ]} 2 = Ok c' ∧
    next_player mini_game 2
      = (if decide (2 < _num_players mini_game) then 2 + 1 else 1) ∧
    (Z.of_nat (size ({[ 2 ]} : gset Z)) = _num_players mini_game →
     c' = next_player mini_game 2) ∧
    (Z.of_nat (size ({[ 2 ]} : gset Z)) ≠ _num_players mini_game →
     ∃ k : nat,
       Z.of_nat k ≤ _num_players mini_game ∧
       c' = Nat.iter k (next_player mini_game) 2 ∧
       (c' ∉ ({[ 2 ]} : gset Z)) ∧
       ∀ j : nat, (j < k)%nat →
         Nat.iter j (next_player mini_game) 2 ∈ ({[ 2 ]} : gset Z)).
Proof.
  assert (Hc : 1 ≤ 2 ≤ _num_players mini_game) by (simpl; lia).
  assert (Hret : ∀ p, p ∈ ({[ 2 ]} : gset Z) →
                      1 ≤ p ≤ _num_players mini_game).
  { intros p Hp. apply elem_of_singleton in Hp. subst p. simpl. lia. }
  split; [exact Hc|]. split; [exact Hret|].
  exact (advance_first_active mini_game {[ 2 ]} 2 Hc Hret).
Defined.

Lemma turns_are_fair_witness :
  NoDup (shapes_keys catalog) ∧ reachable catalog mini_first_move ∧
  1 ≤ 1 ≤ _num_players mini_first_move ∧
  1 ≤ 2 ≤ _num_players mini_first_move ∧
  (1 ∉ _retired_players mini_first_move) ∧
  (2 ∉ _retired_players mini_first_move →
     (length (remaining_shapes catalog mini_first_move 1)
      ≤ length (remaining_shapes catalog mini_first_move 2) + 1)%nat) ∧
  (2 ∈ _retired_players mini_first_move →
     (length (remaining_shapes catalog mini_first_move 1)
      ≤ length (remaining_shapes catalog mini_first_move 2))%nat) ∧
  (2 = _curr_player mini_first_move →
     (length (remaining_shapes catalog mini_first_move 1)
      ≤ length (remaining_shapes catalog mini_first_move 2))%nat).
Proof.
  assert (Hp : 1 ≤ 1 ≤ _num_players mini_first_move) by (by vm_compute).
  assert (Hq : 1 ≤ 2 ≤ _num_players mini_first_move) by (by vm_compute).
  assert (Hact : 1 ∉ _retired_players mini_first_move)
    by (apply (bool_decide_unpack _); by vm_compute).
  split; [exact catalog_keys_nodup|].
  split; [exact reachable_mini_first_move|].
  split; [exact Hp|]. split; [exact Hq|]. split; [exact Hact|].
  exact (turns_are_fair catalog mini_first_move catalog_keys_nodup
           reachable_mini_first_move 1 2 Hp Hq Hact).
Defined.

Lemma num_moves_counts_placements_witness :
  NoDup (shapes_keys catalog) ∧ reachable catalog mini_opened ∧
  _num_moves mini_opened = total_played catalog mini_opened.
Proof.
  split; [exact catalog_keys_nodup|]. split; [exact reachable_mini_opened|].
  exact (proj1 (num_moves_counts_placements catalog mini_opened
                  catalog_keys_nodup reachable_mini_opened)).
Defined.

Lemma opening_test_is_first_move_witness :
  NoDup (shapes_keys catalog) ∧ reachable catalog mini_first_move ∧
  (_curr_player mini_first_move ∉ _retired_players mini_first_move) ∧
  (_num_moves mini_first_move
     < _num_players mini_first_move
       - Z.of_nat (size (_retired_players mini_first_move)) ↔
   remaining_shapes catalog mini_first_move (_curr_player mini_first_move)
     = shapes_keys catalog).
Proof.
  assert (Hact : _curr_player mini_first_move ∉ _retired_players mini_first_move)
    by (apply (bool_decide_unpack _); by vm_compute).
  split; [exact catalog_keys_nodup|].
  split; [exact reachable_mini_first_move|]. split; [exact Hact|].
  exact (proj1 (opening_test_is_first_move catalog mini_first_move
                  catalog_keys_nodup reachable_mini_first_move Hact)).
Defined.

Lemma own_pieces_never_share_an_edge_witness :
  NoDup (shapes_keys catalog) ∧ reachable catalog solo_finished ∧
  edge_adjacent (0, 0) (0, 1) ∧
  grid_get (_grid solo_finished) 0 0 = Ok (Some (1, SK_TWO)) ∧
  grid_get (_grid solo_finished) 0 1 = Ok (Some (1, SK_TWO)) ∧
  SK_TWO = SK_TWO.
Proof.
  assert (Hadj : edge_adjacent (0, 0) (0, 1)) by (by vm_compute).
  assert (Hx : grid_get (_grid solo_finished) 0 0 = Ok (Some (1, SK_TWO)))
    by (by vm_compute).
  assert (Hy : grid_get (_grid solo_finished) 0 1 = Ok (Some (1, SK_TWO)))
    by (by vm_compute).
  split; [exact catalog_keys_nodup|].
  split; [exact reachable_solo_finished|]. split; [exact Hadj|].
  split; [exact Hx|]. split; [exact Hy|].
  apply (own_pieces_never_share_an_edge catalog solo_finished
           catalog_keys_nodup reachable_solo_finished (0, 0) (0, 1) 1
           SK_TWO SK_TWO); first [exact Hadj|exact Hx|exact Hy|simpl; lia].
Defined.

Lemma cells_come_from_placements_witness :
  reachable catalog mini_opened ∧
  grid_get (_grid mini_opened) 4 4 = Ok (Some (2, SK_ONE)) ∧
  in_board mini_opened (4, 4) ∧ 1 ≤ 2 ≤ _num_players mini_opened ∧
  SK_ONE ∈ shapes_keys catalog ∧ (2, SK_ONE) ∈ _played_pieces mini_opened ∧
  SK_ONE ∉ remaining_shapes catalog mini_opened 2.
Proof.
  assert (Hcell : grid_get (_grid mini_opened) 4 4 = Ok (Some (2, SK_ONE)))
    by (by vm_compute).
  split; [exact reachable_mini_opened|]. split; [exact Hcell|].
  apply (cells_come_from_placements catalog mini_opened 4 4 2 SK_ONE
           reachable_mini_opened); [lia|lia|exact Hcell].
Defined.

Lemma catalog_marker_chars :
  Forall (λ kv, Forall marker_char (list_ascii_of_string (snd kv))) catalog.
Proof. apply (bool_decide_unpack _). by vm_compute. Qed.

Lemma reset_spec_witness :
  reachable catalog mini_opened ∧
  reset (reset mini_opened) = reset mini_opened ∧
  _retired_players (reset mini_opened) = ∅ ∧
  _curr_player (reset mini_opened) = 1 ∧
  _num_moves (reset mini_opened) = 0 ∧
  (∀ p, remaining_shapes catalog (reset mini_opened) p = shapes_keys catalog) ∧
  (catalog ≠ [] → game_over catalog (reset mini_opened) = false) ∧
  reachable catalog (reset mini_opened).
Proof.
  split; [exact reachable_mini_opened|].
  exact (proj2 (reset_spec catalog mini_opened reachable_mini_opened)).
Defined.

Lemma score_is_minus_squares_witness :
  Forall (λ kv, Forall marker_char (list_ascii_of_string (snd kv))) catalog ∧
  remaining_shapes catalog mini_opened 1 ≠ [] ∧
  get_score SK_ONE catalog mini_opened 1
    = Ok (- foldr Z.add 0
              (map (λ k, default 0 ((λ sh, Z.of_nat (length (squares sh)))
                                      <$> shapes_get catalog k))
                   (remaining_shapes catalog mini_opened 1))).
Proof.
  assert (Hrem : remaining_shapes catalog mini_opened 1 ≠ [])
    by (by vm_compute).
  split; [exact catalog_marker_chars|]. split; [exact Hrem|].
  exact (proj1 (score_is_minus_squares SK_ONE catalog mini_opened 1
                  catalog_marker_chars Hrem)).
Defined.

Lemma available_moves_spec_witness :
  wf mini_game ∧
  ∃ moves, available_moves catalog mini_game = Some moves ∧
    (∀ piece, piece ∈ moves ↔
       ∃ (rc : Point) (k : Kind21) (sh : Shape Kind21),
         in_board mini_game rc ∧
         k ∈ remaining_shapes catalog mini_game (_curr_player mini_game) ∧
         shapes_get catalog k = Some sh ∧
         piece = mkPiece sh (Some rc) ∧
         legal_to_place catalog mini_game piece = Ok true) ∧
    (_curr_player mini_game ∉ _retired_players mini_game →
     ∀ piece, piece ∈ moves →
       ∃ b', maybe_place catalog mini_game piece = Ok (true, b')).
Proof.
  split; [exact wf_mini_game|].
  exact (available_moves_spec catalog mini_game wf_mini_game).
Defined.

(** On the empty mini board the first player has 27 moves, the shapes
    that as defined cover the corner [(0, 0)] or [(4, 4)] from an anchor on
    the board; a player who has placed every shape has none. *)
Example mini_available_moves :
  length <$> available_moves catalog mini_game = Some 27%nat ∧
  length <$> available_moves catalog solo_finished = Some 0%nat.
Proof. by vm_compute. Qed.

(** The first test of [grid.py]: the text of the grid after both single
    squares. *)
Example test_grid_1_text :
  py_strip (grid_to_string test_value (_grid mini_opened))
  = list_ascii_of_string
"+----------+
|1         |
|          |
|          |
|          |
|         1|
+----------+" ∧
  string_to_grid test_value test_members
    (grid_to_string test_value (_grid mini_opened)) = Ok (_grid mini_opened).
Proof. by vm_compute. Qed.

(** A cell of a third player is written as nothing, and the row is read
    back one cell short: the last cell comes back empty. *)
Example third_player_is_not_written :
  string_to_grid test_value test_members
    (grid_to_string test_value
       [ [Some (3, SK_ONE); Some (1, SK_TWO)]; [None; None] ])
  = Ok [ [Some (1, SK_TWO); None]; [None; None] ].
Proof. by vm_compute. Qed.

Lemma readable_test_cell (cell : Cell Kind21) :
  cell ∈ [None; Some (1, SK_ONE); Some (2, SK_ONE);
          Some (1, SK_TWO); Some (2, SK_TWO)] →
  readable test_value test_members cell.
Proof.
  rewrite !elem_of_cons, elem_of_nil.
  intros [->|[->|[->|[->|[->|[]]]]]]; simpl; first [exact I|idtac];
    (split; [auto|]); eexists; (split; [reflexivity|]); by split.
Qed.

Lemma grid_text_round_trip_witness :
  Forall (λ line, length line = length (_grid mini_opened))
         (_grid mini_opened) ∧
  Forall (Forall (readable test_value test_members)) (_grid mini_opened) ∧
  string_to_grid test_value test_members
    (grid_to_string test_value (_grid mini_opened)) = Ok (_grid mini_opened).
Proof.
  assert (Hsquare : Forall (λ line, length line = length (_grid mini_opened))
                           (_grid mini_opened))
    by (apply (bool_decide_unpack _); by vm_compute).
  assert (Hcells : Forall (Forall (readable test_value test_members))
                          (_grid mini_opened)).
  { assert (Hin : Forall (Forall (λ cell : Cell Kind21,
                     cell ∈ [None; Some (1, SK_ONE); Some (2, SK_ONE);
                             Some (1, SK_TWO); Some (2, SK_TWO)]))
                    (_grid mini_opened))
      by (apply (bool_decide_unpack _); by vm_compute).
    apply (Forall_impl _ _ _ Hin). intros line Hline.
    apply (Forall_impl _ _ _ Hline). exact readable_test_cell. }
  split; [exact Hsquare|]. split; [exact Hcells|].
  exact (grid_text_round_trip test_value test_members (_grid mini_opened)
           Hsquare Hcells).
Defined.

(** A shape that cannot be transformed is not mirrored by [TuiBoard.flip]
    but moved: the single square, shifted to column 2, lands four columns
    to the right; on the mini board that is off the board, and the piece
    comes back as it was. *)
Example flip_moves_fixed_shape :
  tui_shift solo_game (one_at (0, 0)) 2 1 = Ok (one_shifted, one_shifted) ∧
  (tui_flip solo_game one_shifted
     ≫= λ out, Ok (squares (shape (snd out)))) = Ok [(1, 6)] ∧
  (tui_flip mini_game one_shifted ≫= λ out, Ok (snd out)) = Ok one_shifted.
Proof. by vm_compute. Qed.

Lemma game_over_is_final_witness :
  reachable catalog solo_finished ∧
  game_over catalog solo_finished = true ∧
  ∀ piece (ok : bool) b',
    maybe_place catalog solo_finished piece = Ok (ok, b') →
    ok = false ∧ b' = solo_finished.
Proof.
  assert (Hover : game_over catalog solo_finished = true) by (by vm_compute).
  split; [exact reachable_solo_finished|]. split; [exact Hover|].
  exact (proj1 (game_over_is_final catalog solo_finished
                  reachable_solo_finished Hover)).
Defined.

Lemma placement_raises_score_witness :
  NoDup (shapes_keys catalog) ∧ wf mini_game ∧
  maybe_place catalog mini_game (one_at (0, 0)) = Ok (true, mini_first_move) ∧
  ∀ q, q ≠ _curr_player mini_game →
       get_score SK_ONE catalog mini_first_move q
         = get_score SK_ONE catalog mini_game q.
Proof.
  assert (Hplace : maybe_place catalog mini_game (one_at (0, 0))
                   = Ok (true, mini_first_move)) by (by vm_compute).
  split; [exact catalog_keys_nodup|]. split; [exact wf_mini_game|].
  split; [exact Hplace|].
  exact (proj2 (placement_raises_score SK_ONE catalog mini_game (one_at (0, 0))
                  mini_first_move catalog_keys_nodup wf_mini_game Hplace)).
Defined.

(** On the mini board the first single square raises the score of player 1
    from -89 to -88 and leaves player 2 at -89. *)
Example first_move_scores :
  get_score SK_ONE catalog mini_game 1 = Ok (-89) ∧
  get_score SK_ONE catalog mini_first_move 1 = Ok (-88) ∧
  get_score SK_ONE catalog mini_first_move 2 = Ok (-89).
Proof. by vm_compute. Qed.
